(** * Routing core of the distributed key-value client

    A shallow embedding of [kv/dist_sender.go] (the distributed sender) and
    of the multi-replica RPC sender ([send], [shuffleClients]) together with
    the properties the specification states about them.

    Conventions.  Go's [int], [int32] and [int64] values are modelled in [Z];
    every arithmetic operation below works on slice lengths, result counts
    and result bounds, none of which approaches [2^63].  Keys are byte
    strings with the byte-wise order.  Calls into collaborators (descriptor
    cache, gossip, transport, random source, timers) are answered by a
    scripted environment and recorded in an event log, so that a statement
    such as "before any RPC is issued" is a statement about that log. *)

From stdpp Require Import gmap strings list.
From Stdlib Require Import ZArith Lia.

Local Open Scope Z_scope.

(** ** Data model *)

(** [roachpb.RKey]: an ordered byte string. *)
Definition RKey := string.

(** [RKey.Less]: strict byte-wise order. *)
Definition Less (a b : RKey) : bool := String.ltb a b.

Record RSpan := { rs_Key : RKey; rs_EndKey : RKey }.

Record ReplicaDescriptor := {
  NodeID : Z;
  StoreID : Z;
  ReplicaID : Z
}.

(** The zero value [roachpb.ReplicaDescriptor{}]. *)
Definition zeroReplicaDescriptor : ReplicaDescriptor :=
  {| NodeID := 0; StoreID := 0; ReplicaID := 0 |}.

Record RangeDescriptor := {
  RangeID : Z;
  StartKey : RKey;
  EndKey : RKey;
  Replicas : list ReplicaDescriptor
}.

Record NodeDescriptor := {
  nd_NodeID : Z;
  nd_Address : string;
  nd_Attrs : list string
}.

(** [ReplicaInfo]: a replica with its resolved node descriptor. *)
Record ReplicaInfo := {
  ri_Replica : ReplicaDescriptor;
  ri_NodeDesc : NodeDescriptor
}.

Definition ReplicaSlice := list ReplicaInfo.

Inductive ReadConsistencyType := CONSISTENT | CONSENSUS | INCONSISTENT.

Record Transaction := {
  txn_ID : Z;
  txn_OrigTimestamp : Z;
  txn_ObservedTimestamps : list (Z * Z)
}.

(** The request variants the sender inspects by type: scans carry a result
    bound ([Bounded]); everything else is told apart by its method name. *)
Inductive Request :=
| ScanRequest (key endKey : string) (MaxResults : Z)
| ReverseScanRequest (key endKey : string) (MaxResults : Z)
| NoopRequest
| EndTransactionRequest (key : string)
| OtherRequest (method : string) (key endKey : string).

Inductive Response :=
| ScanResponse (Rows : list (string * string))
| ReverseScanResponse (Rows : list (string * string))
| NoopResponse
| OtherResponse (method : string) (payload : string).

(** Errors.  [GoError] is a Go [error] value as the two senders classify it:
    the sentinel [io.ErrUnexpectedEOF], a value implementing
    [retry.Retryable] (with what [CanRetry] answers), [roachpb.SendError]
    (which implements [retry.Retryable] through its flag) and the routing
    errors that the distributed sender tells apart by type. *)
Inductive SendErrorMsg :=
| InsufficientReplicas (have need : Z)
| TooManyErrors (errors total : Z).

Inductive GoError :=
| ErrUnexpectedEOF
| RetryableErr (msg : string) (canRetry : bool)
| PlainErr (msg : string)
| SendError (msg : SendErrorMsg) (retryable : bool)
| RangeNotFoundError
| RangeKeyMismatchError
| NotLeaderError (Leader : option ReplicaDescriptor)
| OpRequiresTxnError
| NodeUnavailableError.

(** [roachpb.Error]: the detail and the retryable flag computed by
    [roachpb.NewError]. *)
Record Error := {
  err_Detail : GoError;
  err_Retryable : bool
}.

Record BatchResponse_Header := {
  h_Error : option Error;
  h_Timestamp : Z;
  h_Txn : option Transaction;
  h_CollectedSpans : list string
}.

Record BatchResponse := {
  br_Header : BatchResponse_Header;
  Responses : list Response
}.

Record BatchRequest := {
  Requests : list Request;
  Txn : option Transaction;
  ReadConsistency : ReadConsistencyType;
  MaxScanResults : Z;
  ba_Timestamp : Z;
  ba_RangeID : Z;
  ba_Replica : ReplicaDescriptor
}.

(** ** The multi-replica sender ([send]) *)

Inductive orderingPolicy := orderStable | orderRandom.

Record SendOptions := {
  Ordering : orderingPolicy;
  SendNextTimeout : Z;
  Timeout : Z
}.

Inductive ConnState := Idle | Connecting | Ready | TransientFailure | Shutdown.

Record batchClient := {
  remoteAddr : string;
  bc_args : BatchRequest
}.

Record batchCall := {
  bc_reply : option BatchResponse;
  bc_err : option GoError
}.

(** What one call of [send] can observe of its surroundings: the dialer
    and the connection states of [rpc.Context], the random source behind
    [rand.Intn], and the completion each dispatched client eventually puts
    on the [done] channel ([sendOneFn] sends exactly one [batchCall] per
    dispatch). *)
Record RPCEnv := {
  GRPCDial : string -> option GoError;
  connState : string -> GoError + ConnState;
  randSource : nat -> nat;
  completionOf : batchClient -> batchCall
}.

(** One wake-up of the [select] in the wait loop: the send-next timer
    fires, or the completion of the [k]-th dispatched and still unanswered
    client is received from [done]. *)
Inductive SelectEvent :=
| TimerFires
| Completion (k : nat).

(** Slice element exchange [s[i], s[j] = s[j], s[i]]; both indices are in
    range at every use below. *)
Definition swap {A} (i j : nat) (s : list A) : list A :=
  match s !! i, s !! j with
  | Some a, Some b => <[j:=a]> (<[i:=b]> s)
  | _, _ => s
  end.

(** [shuffleClients]: [for i, n := 0, len(clients); i < n-1; i++] exchanges
    position [i] with position [rand.Intn(n-i) + i].  [ctr] counts the calls
    made to the random source so far; [k] is the number of iterations left. *)
Fixpoint shuffleFrom {A} (rnd : nat -> nat) (ctr : nat) (i k : nat)
    (clients : list A) : list A * nat :=
  match k with
  | O => (clients, ctr)
  | S k' =>
      let n := length clients in
      let j := (rnd ctr mod (n - i) + i)%nat in
      shuffleFrom rnd (S ctr) (S i) k' (swap i j clients)
  end.

Definition shuffleClients {A} (rnd : nat -> nat) (ctr : nat)
    (clients : list A) : list A * nat :=
  shuffleFrom rnd ctr 0 (length clients - 1) clients.

(** The health partition of the [orderRandom] case: clients whose
    connection is [Ready] are exchanged towards the front; a failing
    [conn.State()] aborts. *)
Fixpoint partitionHealthy (env : RPCEnv) (i nHealthy : nat) (k : nat)
    (clients : list batchClient) : GoError + (list batchClient * nat) :=
  match k with
  | O => inr (clients, nHealthy)
  | S k' =>
      match clients !! i with
      | None => inr (clients, nHealthy)
      | Some client =>
          match connState env (remoteAddr client) with
          | inl err => inl err
          | inr clientState =>
              match clientState with
              | Ready =>
                  partitionHealthy env (S i) (S nHealthy) k'
                    (swap i nHealthy clients)
              | _ => partitionHealthy env (S i) nHealthy k' clients
              end
          end
      end
  end.

Definition orderClients (env : RPCEnv) (policy : orderingPolicy)
    (clients : list batchClient) : GoError + list batchClient :=
  match policy with
  | orderStable => inr clients
  | orderRandom =>
      match partitionHealthy env 0 0 (length clients) clients with
      | inl err => inl err
      | inr (clients', nHealthy) =>
          let '(healthy, ctr) := shuffleClients (randSource env) 0 (take nHealthy clients') in
          let '(rest, _) := shuffleClients (randSource env) ctr (drop nHealthy clients') in
          inr (healthy ++ rest)
      end
  end.

(** Dialing every replica in slice order; the first failure aborts the
    call.  Returns the addresses dialed, in order, and the clients built. *)
Fixpoint dialAll (env : RPCEnv) (args : BatchRequest) (replicas : ReplicaSlice)
    : list string * (GoError + list batchClient) :=
  match replicas with
  | [] => ([], inr [])
  | replica :: rest =>
      let addr := nd_Address (ri_NodeDesc replica) in
      match GRPCDial env addr with
      | Some err => ([addr], inl err)
      | None =>
          let argsCopy :=
            {| Requests := Requests args; Txn := Txn args;
               ReadConsistency := ReadConsistency args;
               MaxScanResults := MaxScanResults args;
               ba_Timestamp := ba_Timestamp args;
               ba_RangeID := ba_RangeID args;
               ba_Replica := ri_Replica replica |} in
          let '(log, r) := dialAll env args rest in
          (addr :: log,
           match r with
           | inl err => inl err
           | inr clients =>
               inr ({| remoteAddr := addr; bc_args := argsCopy |} :: clients)
           end)
      end
  end.

(** The state of the wait loop.  [orderedClients], [errors] and
    [retryableErrors] are the variables of the source; [inflight] is the
    content of the [done] channel's producers (dispatched, not yet
    received); [sentLog] and [failureLog] only record what happened. *)
Record SendState := {
  orderedClients : list batchClient;
  errors : Z;
  retryableErrors : Z;
  inflight : list batchClient;
  sentLog : list batchClient;
  failureLog : list GoError
}.

(** How a call of [send] stands once the schedule is used up: it has
    returned (with the state it returned in), it is blocked in the [select]
    of the wait loop, or it has panicked indexing an empty client list
    (which a non-empty replica slice rules out). *)
Inductive SendResult :=
| Returned (reply : option BatchResponse) (err : option GoError) (final : SendState)
| Blocked (st : SendState)
| IndexPanic.

(** [sendOneFn(orderedClients[0], ...); orderedClients = orderedClients[1:]] *)
Definition sendNext (c : batchClient) (rest : list batchClient) (st : SendState)
    : SendState :=
  {| orderedClients := rest;
     errors := errors st;
     retryableErrors := retryableErrors st;
     inflight := inflight st ++ [c];
     sentLog := sentLog st ++ [c];
     failureLog := failureLog st |}.

(** [if len(orderedClients) > 0 { sendOneFn(...); ... }] *)
Definition sendNextIfAny (st : SendState) : SendState :=
  match orderedClients st with
  | [] => st
  | c :: rest => sendNext c rest st
  end.

(** The retryable classification of a failed completion:
    [disconnected || (ok && retryErr.CanRetry())]. *)
Definition isRetryableFailure (err : GoError) : bool :=
  match err with
  | ErrUnexpectedEOF => true
  | RetryableErr _ canRetry => canRetry
  | SendError _ retryable => retryable
  | _ => false
  end.

Definition recordFailure (k : nat) (err : GoError) (st : SendState) : SendState :=
  {| orderedClients := orderedClients st;
     errors := errors st + 1;
     retryableErrors :=
       if isRetryableFailure err then retryableErrors st + 1
       else retryableErrors st;
     inflight := delete k (inflight st);
     sentLog := sentLog st;
     failureLog := failureLog st ++ [err] |}.

Definition received (k : nat) (st : SendState) : SendState :=
  {| orderedClients := orderedClients st;
     errors := errors st;
     retryableErrors := retryableErrors st;
     inflight := delete k (inflight st);
     sentLog := sentLog st;
     failureLog := failureLog st |}.

(** The wait loop, driven by the wake-ups the environment schedules. *)
Fixpoint waitLoop (env : RPCEnv) (nReplicas : Z) (sched : list SelectEvent)
    (st : SendState) : SendResult :=
  match sched with
  | [] => Blocked st
  | TimerFires :: sched' =>
      waitLoop env nReplicas sched' (sendNextIfAny st)
  | Completion k :: sched' =>
      match inflight st !! k with
      | None => Blocked st
      | Some c =>
          let call := completionOf env c in
          match bc_err call with
          | None => Returned (bc_reply call) None (received k st)
          | Some err =>
              let st1 := recordFailure k err st in
              let remainingNonErrorRPCs := nReplicas - errors st1 in
              if remainingNonErrorRPCs <? 1 then
                Returned None
                  (Some (SendError
                           (TooManyErrors (errors st1) nReplicas)
                           (1 <=? remainingNonErrorRPCs + retryableErrors st1)))
                  st1
              else waitLoop env nReplicas sched' (sendNextIfAny st1)
          end
      end
  end.

Definition initialState : SendState :=
  {| orderedClients := []; errors := 0; retryableErrors := 0;
     inflight := []; sentLog := []; failureLog := [] |}.

(** [send]: returns the addresses dialed and the result of the call. *)
Definition send (env : RPCEnv) (opts : SendOptions) (replicas : ReplicaSlice)
    (args : BatchRequest) (sched : list SelectEvent)
    : list string * SendResult :=
  if Z.of_nat (length replicas) <? 1 then
    ([], Returned None
           (Some (SendError (InsufficientReplicas (Z.of_nat (length replicas)) 1) false))
           initialState)
  else
    match dialAll env args replicas with
    | (log, inl err) => (log, Returned None (Some err) initialState)
    | (log, inr clients) =>
        match orderClients env (Ordering opts) clients with
        | inl err => (log, Returned None (Some err) initialState)
        | inr [] => (log, IndexPanic)
        | inr (first :: rest) =>
            (log,
             waitLoop env (Z.of_nat (length replicas)) sched
               (sendNext first rest initialState))
        end
    end.

(** ** Replica ordering *)

(** Modelled from the spec: the reordering operations of [ReplicaSlice]
    (their file is not part of the sources at hand).  The spec gives a
    slice "stable sort by attribute-prefix match, move-to-front by node id,
    move-to-front by store id, without changing element identity". *)
Fixpoint commonPrefixLen (a b : list string) : nat :=
  match a, b with
  | x :: a', y :: b' => if String.eqb x y then S (commonPrefixLen a' b') else O
  | _, _ => O
  end.

Definition affinity (attrs : list string) (r : ReplicaInfo) : nat :=
  commonPrefixLen attrs (nd_Attrs (ri_NodeDesc r)).

(** Modelled from the spec: stable insertion, longest common prefix first. *)
Fixpoint insertByAffinity (attrs : list string) (r : ReplicaInfo)
    (sorted : ReplicaSlice) : ReplicaSlice :=
  match sorted with
  | [] => [r]
  | y :: rest =>
      if (affinity attrs r <? affinity attrs y)%nat
      then y :: insertByAffinity attrs r rest
      else r :: sorted
  end.

(** Modelled from the spec: [SortByCommonAttributePrefix] reorders the slice
    (stable, longest common attribute prefix first) and returns the length
    of the longest prefix matched by some replica. *)
Definition SortByCommonAttributePrefix (attrs : list string) (rs : ReplicaSlice)
    : ReplicaSlice * Z :=
  let sorted := foldr (insertByAffinity attrs) [] rs in
  (sorted,
   match sorted with
   | [] => 0
   | r :: _ => Z.of_nat (affinity attrs r)
   end).

(** Modelled from the spec: index of the first element satisfying [p], or
    [-1]; [FindReplicaByNodeID] and [FindReplica] are its two uses. *)
Fixpoint findIndex {A} (p : A -> bool) (l : list A) : Z :=
  match l with
  | [] => -1
  | x :: rest =>
      if p x then 0
      else let i := findIndex p rest in if i <? 0 then -1 else i + 1
  end.

Definition FindReplicaByNodeID (nodeID : Z) (rs : ReplicaSlice) : Z :=
  findIndex (fun r => NodeID (ri_Replica r) =? nodeID) rs.

Definition FindReplica (storeID : Z) (rs : ReplicaSlice) : Z :=
  findIndex (fun r => StoreID (ri_Replica r) =? storeID) rs.

(** Modelled from the spec: [MoveToFront(i)] moves element [i] to the head
    and keeps the order of the others. *)
Definition MoveToFront (i : Z) (rs : ReplicaSlice) : ReplicaSlice :=
  match rs !! Z.to_nat i with
  | Some r => r :: delete (Z.to_nat i) rs
  | None => rs
  end.

(** Modelled from the spec: the gossip network as the cluster metadata
    source: the node's own identifier and the node descriptors it knows. *)
Record Gossip := {
  g_NodeID : Z;
  g_Nodes : gmap Z NodeDescriptor
}.

(** [getNodeDescriptor]: the cached descriptor if set; otherwise looked up
    in gossip under the node's own identifier and cached.  Returns the
    descriptor and the new content of [ds.nodeDescriptor]. *)
Definition getNodeDescriptor (cached : option NodeDescriptor)
    (gossip : option Gossip) : option NodeDescriptor * option NodeDescriptor :=
  match cached with
  | Some desc => (Some desc, cached)
  | None =>
      match gossip with
      | None => (None, None)
      | Some g =>
          let ownNodeID := g_NodeID g in
          if 0 <? ownNodeID then
            match g_Nodes g !! ownNodeID with
            | Some nodeDesc => (Some nodeDesc, Some nodeDesc)
            | None => (None, None)
            end
          else (None, None)
      end
  end.

(** [optimizeReplicaOrder], given what [getNodeDescriptor] returned.  The
    source reorders [replicas] in place; the reordered slice is returned
    next to the policy. *)
Definition optimizeReplicaOrder (nodeDesc : option NodeDescriptor)
    (replicas : ReplicaSlice) : ReplicaSlice * orderingPolicy :=
  let order := orderRandom in
  match nodeDesc with
  | None => (replicas, order)
  | Some nodeDesc =>
      let '(replicas, n) := SortByCommonAttributePrefix (nd_Attrs nodeDesc) replicas in
      let order := if 0 <? n then orderStable else order in
      let i := FindReplicaByNodeID (nd_NodeID nodeDesc) replicas in
      if 0 <? i then (MoveToFront i replicas, orderStable)
      else (replicas, order)
  end.

(** ** The distributed sender: collaborators *)

(** Result of a Go call that may panic, or that never gets an answer from
    the scripted environment (or from the iteration budget of the model). *)
Inductive Outcome (A : Type) :=
| Done (a : A)
| Panic (msg : string)
| Stalled.
Arguments Done {A} a.
Arguments Panic {A} msg.
Arguments Stalled {A}.

(** Modelled from the spec: [roachpb.NewError] and the error taxonomy of the
    spec's error-handling section: an error is flagged retryable exactly
    when it reports so itself; usage errors such as "requires transaction"
    never are. *)
Definition canRetry (e : GoError) : bool :=
  match e with
  | RetryableErr _ c => c
  | SendError _ r => r
  | _ => false
  end.

Definition NewError (e : GoError) : Error :=
  {| err_Detail := e; err_Retryable := canRetry e |}.

Definition NewErrorf (msg : string) : Error := NewError (PlainErr msg).

(** [noNodeAddrsAvailError{}]; its [CanRetry] returns [true]. *)
Definition noNodeAddrsAvailError : GoError :=
  RetryableErr "no replica node addresses available via gossip" true.

(** The batch and key helpers that [Send] and [sendChunk] call and whose
    definitions lie outside the sources at hand ([keys.Range], [truncate],
    [next], [prev], the [BatchRequest] predicates, [Split], the span and
    descriptor tests, [Transaction.Update]).  Every statement below holds
    for whatever they compute. *)
Record BatchOps := {
  keys_Range : BatchRequest -> RSpan;
  IsReverse : BatchRequest -> bool;
  IsReadOnly : BatchRequest -> bool;
  IsPossibleTransaction : BatchRequest -> bool;
  Intersect : RSpan -> RangeDescriptor -> GoError + RSpan;
  truncate : BatchRequest -> RSpan -> BatchRequest * Z * option GoError;
  ContainsKeyRange : RangeDescriptor -> RKey -> RKey -> bool;
  next : BatchRequest -> RKey -> RKey;
  prev : BatchRequest -> RKey -> RKey;
  Split : BatchRequest -> bool -> list (list Request);
  TxnUpdate : option Transaction -> option Transaction -> option Transaction
}.

(** Modelled from the spec: one answer of the range descriptor cache backed
    by its authoritative lookup.  A lookup that is allowed to consider
    uncommitted ("intent") values does so on a random draw, here [coin];
    [uncommitted] is the answer read from the intent, [committed] the
    answer read from the committed value. *)
Record LookupAnswer := {
  committed : Error + RangeDescriptor;
  uncommitted : Error + RangeDescriptor;
  coin : bool
}.

Inductive Event :=
| EvLookup (key : RKey) (considerIntents useReverseScan usedIntent : bool)
| EvEvict (key : RKey) (desc : RangeDescriptor) (useReverseScan : bool)
| EvRPC (order : orderingPolicy) (replicas : ReplicaSlice) (ba : BatchRequest)
| EvBackoff (millis : Z).

(** The [DistSender] fields that change ([nodeDescriptor], [leaderCache]),
    its gossip handle and clock, the scripted answers of the descriptor
    cache and of [ds.rpcSend], the number of backoff waits that complete
    before [rpcRetryOptions.Closer] fires ([None]: never), and the log. *)
Record World := {
  nodeDescriptor : option NodeDescriptor;
  gossip : option Gossip;
  leaderCache : gmap Z ReplicaDescriptor;
  clockNow : Z;
  lookups : list LookupAnswer;
  rpcs : list (GoError + BatchResponse);
  closer : option nat;
  log : list Event
}.

Definition logEvent (e : Event) (w : World) : World :=
  {| nodeDescriptor := nodeDescriptor w; gossip := gossip w;
     leaderCache := leaderCache w; clockNow := clockNow w;
     lookups := lookups w; rpcs := rpcs w; closer := closer w;
     log := log w ++ [e] |}.

Definition setNodeDescriptor (d : option NodeDescriptor) (w : World) : World :=
  {| nodeDescriptor := d; gossip := gossip w;
     leaderCache := leaderCache w; clockNow := clockNow w;
     lookups := lookups w; rpcs := rpcs w; closer := closer w;
     log := log w |}.

Definition setLeaderCache (c : gmap Z ReplicaDescriptor) (w : World) : World :=
  {| nodeDescriptor := nodeDescriptor w; gossip := gossip w;
     leaderCache := c; clockNow := clockNow w;
     lookups := lookups w; rpcs := rpcs w; closer := closer w;
     log := log w |}.

Definition setLookups (l : list LookupAnswer) (w : World) : World :=
  {| nodeDescriptor := nodeDescriptor w; gossip := gossip w;
     leaderCache := leaderCache w; clockNow := clockNow w;
     lookups := l; rpcs := rpcs w; closer := closer w;
     log := log w |}.

Definition setRpcs (l : list (GoError + BatchResponse)) (w : World) : World :=
  {| nodeDescriptor := nodeDescriptor w; gossip := gossip w;
     leaderCache := leaderCache w; clockNow := clockNow w;
     lookups := lookups w; rpcs := l; closer := closer w;
     log := log w |}.

Definition setCloser (c : option nat) (w : World) : World :=
  {| nodeDescriptor := nodeDescriptor w; gossip := gossip w;
     leaderCache := leaderCache w; clockNow := clockNow w;
     lookups := lookups w; rpcs := rpcs w; closer := c;
     log := log w |}.

(** Modelled from the spec: the leader cache maps a range identifier to the
    last observed leader; the zero value stands for "unknown".  (The bounded
    size of the cache is left out: the entry just written is the youngest.) *)
Definition leaderCacheLookup (rid : Z) (w : World) : ReplicaDescriptor :=
  default zeroReplicaDescriptor (leaderCache w !! rid).

Definition leaderCacheUpdate (rid : Z) (r : ReplicaDescriptor) (w : World) : World :=
  setLeaderCache (<[rid := r]> (leaderCache w)) w.

(** [updateLeaderCache] *)
Definition updateLeaderCache (rid : Z) (leader : ReplicaDescriptor) (w : World)
    : World :=
  let oldLeader := leaderCacheLookup rid w in
  if negb (StoreID leader =? StoreID oldLeader)
  then leaderCacheUpdate rid leader w
  else w.

(** Modelled from the spec: [rangeCache.LookupRangeDescriptor], answered by
    the next scripted [LookupAnswer]; [None] when the script has run out. *)
Definition LookupRangeDescriptor (key : RKey)
    (considerIntents useReverseScan : bool) (w : World)
    : option ((Error + RangeDescriptor) * World) :=
  match lookups w with
  | [] => None
  | a :: rest =>
      let usedIntent := considerIntents && coin a in
      Some (if usedIntent then uncommitted a else committed a,
            logEvent (EvLookup key considerIntents useReverseScan usedIntent)
              (setLookups rest w))
  end.

(** [getDescriptors].  The eviction closure it returns is determined by
    the lookup key and the descriptor, which are returned in its place. *)
Definition getDescriptors (rs : RSpan) (considerIntents useReverseScan : bool)
    (w : World)
    : option ((Error + (RangeDescriptor * bool * RKey)) * World) :=
  let descKey := if negb useReverseScan then rs_Key rs else rs_EndKey rs in
  match LookupRangeDescriptor descKey considerIntents useReverseScan w with
  | None => None
  | Some (inl pErr, w') => Some (inl pErr, w')
  | Some (inr desc, w') =>
      let needAnother :=
        if useReverseScan then Less (rs_Key rs) (StartKey desc)
        else Less (EndKey desc) (rs_EndKey rs) in
      Some (inr (desc, needAnother, descKey), w')
  end.

(** The closure [evict] of [getDescriptors]:
    [ds.rangeCache.EvictCachedRangeDescriptor(descKey, desc, useReverseScan)]. *)
Definition evictDesc (descKey : RKey) (desc : RangeDescriptor)
    (useReverseScan : bool) (w : World) : World :=
  logEvent (EvEvict descKey desc useReverseScan) w.

(** ** The retry loop *)

Definition retryBackoff : Z := 250.
Definition maxRetryBackoff : Z := 30000.

(** Modelled from the spec: the retry state machine of the spec's design
    notes (attempt counter and "reset immediately" flag) with bounded
    exponential backoff, in milliseconds, and the external closer signal. *)
Record Retry := {
  currentAttempt : Z;
  isReset : bool
}.

Definition retryStart : Retry := {| currentAttempt := 0; isReset := true |}.

Definition retryReset (r : Retry) : Retry :=
  {| currentAttempt := 0; isReset := true |}.

Definition backoffMillis (attempt : Z) : Z :=
  Z.min maxRetryBackoff (retryBackoff * 2 ^ attempt).

(** Modelled from the spec: [r.Next()]: immediately [true] after a start or
    a reset; otherwise a backoff wait that either completes or is cut short
    by the closer, which ends the loop. *)
Definition retryNext (r : Retry) (w : World) : bool * Retry * World :=
  if isReset r then
    (true, {| currentAttempt := currentAttempt r; isReset := false |}, w)
  else
    let waited := logEvent (EvBackoff (backoffMillis (currentAttempt r))) w in
    let r' := {| currentAttempt := currentAttempt r + 1; isReset := false |} in
    match closer w with
    | Some O => (false, r, w)
    | Some (S n) => (true, r', setCloser (Some n) waited)
    | None => (true, r', waited)
    end.

(** ** Dispatch to one range *)

Definition setRangeID (rid : Z) (ba : BatchRequest) : BatchRequest :=
  {| Requests := Requests ba; Txn := Txn ba;
     ReadConsistency := ReadConsistency ba;
     MaxScanResults := MaxScanResults ba; ba_Timestamp := ba_Timestamp ba;
     ba_RangeID := rid; ba_Replica := ba_Replica ba |}.

Definition setMaxScanResults (n : Z) (ba : BatchRequest) : BatchRequest :=
  {| Requests := Requests ba; Txn := Txn ba;
     ReadConsistency := ReadConsistency ba;
     MaxScanResults := n; ba_Timestamp := ba_Timestamp ba;
     ba_RangeID := ba_RangeID ba; ba_Replica := ba_Replica ba |}.

Definition setRequests (l : list Request) (ba : BatchRequest) : BatchRequest :=
  {| Requests := l; Txn := Txn ba;
     ReadConsistency := ReadConsistency ba;
     MaxScanResults := MaxScanResults ba; ba_Timestamp := ba_Timestamp ba;
     ba_RangeID := ba_RangeID ba; ba_Replica := ba_Replica ba |}.

Definition setTxn (t : option Transaction) (ba : BatchRequest) : BatchRequest :=
  {| Requests := Requests ba; Txn := t;
     ReadConsistency := ReadConsistency ba;
     MaxScanResults := MaxScanResults ba; ba_Timestamp := ba_Timestamp ba;
     ba_RangeID := ba_RangeID ba; ba_Replica := ba_Replica ba |}.

Definition setTimestamp (t : Z) (ba : BatchRequest) : BatchRequest :=
  {| Requests := Requests ba; Txn := Txn ba;
     ReadConsistency := ReadConsistency ba;
     MaxScanResults := MaxScanResults ba; ba_Timestamp := t;
     ba_RangeID := ba_RangeID ba; ba_Replica := ba_Replica ba |}.

Definition isInconsistent (c : ReadConsistencyType) : bool :=
  match c with INCONSISTENT => true | _ => false end.

(** Modelled from the spec: [newReplicaSlice] resolves each replica of the
    descriptor through gossip and leaves out those it cannot resolve. *)
Definition newReplicaSlice (g : option Gossip) (desc : RangeDescriptor)
    : ReplicaSlice :=
  match g with
  | None => []
  | Some g =>
      omap (fun r => match g_Nodes g !! NodeID r with
                     | Some nd => Some {| ri_Replica := r; ri_NodeDesc := nd |}
                     | None => None
                     end) (Replicas desc)
  end.

(** [sendRPC]; [ds.rpcSend] is answered by the next scripted result. *)
Definition sendRPC (rangeID : Z) (replicas : ReplicaSlice)
    (order : orderingPolicy) (ba : BatchRequest) (w : World)
    : option ((Error + BatchResponse) * World) :=
  if Z.of_nat (length replicas) =? 0 then
    Some (inl (NewError noNodeAddrsAvailError), w)
  else
    let ba := setRangeID rangeID ba in
    match rpcs w with
    | [] => None
    | answer :: rest =>
        let w' := logEvent (EvRPC order replicas ba) (setRpcs rest w) in
        match answer with
        | inl err => Some (inl (NewError err), w')
        | inr reply => Some (inr reply, w')
        end
    end.

Definition scrubError (br : BatchResponse) : BatchResponse :=
  {| br_Header :=
       {| h_Error := None; h_Timestamp := h_Timestamp (br_Header br);
          h_Txn := h_Txn (br_Header br);
          h_CollectedSpans := h_CollectedSpans (br_Header br) |};
     Responses := Responses br |}.

(** [sendSingleRange] ([ba.SetNewRequest()], which only advances the
    transaction's sequence counter, is left out).  The source returns the
    scrubbed reply together with the error untangled from it; the caller
    reads the reply only when that error is nil, so the result is either
    the error or the reply. *)
Definition sendSingleRange (ops : BatchOps) (ba : BatchRequest)
    (desc : RangeDescriptor) (w : World)
    : option ((Error + BatchResponse) * World) :=
  let leader := leaderCacheLookup (RangeID desc) w in
  let replicas := newReplicaSlice (gossip w) desc in
  let '(nodeDesc, cached) := getNodeDescriptor (nodeDescriptor w) (gossip w) in
  let w := setNodeDescriptor cached w in
  let '(replicas, order) := optimizeReplicaOrder nodeDesc replicas in
  let '(replicas, order) :=
    if negb (IsReadOnly ops ba && isInconsistent (ReadConsistency ba))
       && (0 <? StoreID leader)
    then
      let i := FindReplica (StoreID leader) replicas in
      if 0 <=? i then (MoveToFront i replicas, orderStable)
      else (replicas, order)
    else (replicas, order) in
  match sendRPC (RangeID desc) replicas order ba w with
  | None => None
  | Some (inl pErr, w') => Some (inl pErr, w')
  | Some (inr br, w') =>
      match h_Error (br_Header br) with
      | Some pErr => Some (inl pErr, w')
      | None => Some (inr (scrubError br), w')
      end
  end.

(** The function literal inside the retry loop: truncate the batch to the
    part of the span held by [desc] and send it there. *)
Definition sendTruncated (ops : BatchOps) (ba : BatchRequest) (rs : RSpan)
    (desc : RangeDescriptor) (w : World)
    : option ((Error + BatchResponse) * World) :=
  match Intersect ops rs desc with
  | inl iErr => Some (inl (NewError iErr), w)
  | inr intersected =>
      let '(truncBA, numActive, trErr) := truncate ops ba intersected in
      match trErr with
      | None =>
          if numActive =? 0 then
            Some (inl (NewErrorf "truncation resulted in empty batch"), w)
          else
            sendSingleRange ops (setMaxScanResults (MaxScanResults ba) truncBA)
              desc w
      | Some e => Some (inl (NewError e), w)
      end
  end.

(** ** Combining and bounding results *)

(** [roachpb.Countable]: the responses that carry a result count. *)
Definition Count (r : Response) : option Z :=
  match r with
  | ScanResponse rows => Some (Z.of_nat (length rows))
  | ReverseScanResponse rows => Some (Z.of_nat (length rows))
  | _ => None
  end.

(** The counting loop of [sendChunk]. *)
Fixpoint countResults (responses : list Response) : Z :=
  match responses with
  | [] => 0
  | resp :: rest =>
      match Count resp with
      | Some c => c + countResults rest
      | None => countResults rest
      end
  end.

(** Modelled from the spec: [BatchResponse.Combine] concatenates per-request
    results; a slot that is still a no-op takes the other side's result, and
    a slot without rows to concatenate keeps what it has. *)
Definition combineResponse (l r : Response) : GoError + Response :=
  match l, r with
  | ScanResponse a, ScanResponse b => inr (ScanResponse (a ++ b))
  | ReverseScanResponse a, ReverseScanResponse b =>
      inr (ReverseScanResponse (a ++ b))
  | ScanResponse _, ReverseScanResponse _
  | ReverseScanResponse _, ScanResponse _ =>
      inl (PlainErr "unable to combine responses of different kinds")
  | NoopResponse, _ => inr r
  | _, _ => inr l
  end.

Fixpoint combineResponses (l r : list Response) : GoError + list Response :=
  match l, r with
  | [], [] => inr []
  | x :: l', y :: r' =>
      match combineResponse x y, combineResponses l' r' with
      | inr z, inr rest => inr (z :: rest)
      | inl e, _ => inl e
      | _, inl e => inl e
      end
  | _, _ => inl (PlainErr "unable to combine batch responses of different length")
  end.

Definition Combine (br other : BatchResponse) : GoError + BatchResponse :=
  match combineResponses (Responses br) (Responses other) with
  | inl e => inl e
  | inr rs => inr {| br_Header := br_Header br; Responses := rs |}
  end.

(** The replacement loop run once the global bound is used up: every slot
    still holding a [NoopResponse] gets an empty response of the type of
    its request.  The unchecked type assertion panics on any other request
    type, indexing panics beyond the end of [br.Responses]; a panic is
    returned as its message on the left. *)
Fixpoint fillNoops (i : nat) (reqs : list Request) (resps : list Response)
    : string + list Response :=
  match reqs with
  | [] => inr resps
  | req :: reqs' =>
      match resps !! i with
      | None => inl "index out of range"
      | Some NoopResponse =>
          match req with
          | ScanRequest _ _ _ =>
              fillNoops (S i) reqs' (<[i := ScanResponse []]> resps)
          | ReverseScanRequest _ _ _ =>
              fillNoops (S i) reqs' (<[i := ReverseScanResponse []]> resps)
          | _ => inl "interface conversion: not a ReverseScanRequest"
          end
      | Some _ => fillNoops (S i) reqs' resps
      end
  end.

(** The masking loop run when another range is needed: [k] iterations are
    left, [i] is the index of the current one. *)
Fixpoint maskSaturated (k i : nat) (reqs : list Request)
    (curResponses : list Response) (needAnother : bool)
    : string + list Request * bool :=
  match k with
  | O => inr (reqs, needAnother)
  | S k' =>
      let continue reqs needAnother :=
        maskSaturated k' (S i) reqs curResponses needAnother in
      let bounded (prevBound : Z) (setBound : Z -> Request) :=
        match curResponses !! i with
        | None => inl "index out of range"
        | Some resp =>
            match Count resp with
            | None => continue reqs true
            | Some count =>
                if prevBound <=? 0 then continue reqs true
                else
                  let nextBound := prevBound - count in
                  if nextBound <=? 0
                  then continue (<[i := NoopRequest]> reqs) needAnother
                  else continue (<[i := setBound nextBound]> reqs) true
            end
        end in
      match reqs !! i with
      | None => inl "index out of range"
      | Some NoopRequest => continue reqs needAnother
      | Some (ScanRequest key endKey prevBound) =>
          bounded prevBound (ScanRequest key endKey)
      | Some (ReverseScanRequest key endKey prevBound) =>
          bounded prevBound (ReverseScanRequest key endKey)
      | Some _ => continue reqs true
      end
  end.

(** The accumulated response after one more reply: the first reply is the
    base, later ones are combined into it. *)
Definition accumulate (br : option BatchResponse) (curReply : BatchResponse)
    : GoError + BatchResponse :=
  match br with
  | None => inr curReply
  | Some br => Combine br curReply
  end.

Inductive RangeStep :=
| RangeReturn (br : BatchResponse)
| RangeError (pErr : Error)
| RangePanic (msg : string)
| RangeNext (ba : BatchRequest) (rs : RSpan) (br : BatchResponse).

Definition setResponses (l : list Response) (br : BatchResponse) : BatchResponse :=
  {| br_Header := br_Header br; Responses := l |}.

(** The part of [sendChunk]'s outer loop body that follows a successful
    retry loop.  (The copy of [ba.Requests] guarded by [br == nil] inside
    the masking branch never runs, [br] having been set just before; with
    a batch passed by value it would not change what is computed here.) *)
Definition afterRange (ops : BatchOps) (isReverse : bool) (ba : BatchRequest)
    (rs : RSpan) (br : option BatchResponse) (curReply : BatchResponse)
    (desc : RangeDescriptor) (needAnother : bool) : RangeStep :=
  let ba := setTxn (TxnUpdate ops (Txn ba) (h_Txn (br_Header curReply))) ba in
  match accumulate br curReply with
  | inl err => RangeError (NewError err)
  | inr br =>
      let bounded :=
        if 0 <? MaxScanResults ba then
          let numResults := countResults (Responses curReply) in
          if MaxScanResults ba <? numResults then inl (RangePanic "received more results than the limit")
          else
            let ba := setMaxScanResults (MaxScanResults ba - numResults) ba in
            if MaxScanResults ba =? 0 then
              match fillNoops 0 (Requests ba) (Responses br) with
              | inr resps => inl (RangeReturn (setResponses resps br))
              | inl msg => inl (RangePanic msg)
              end
            else inr ba
        else inr ba in
      match bounded with
      | inl stop => stop
      | inr ba =>
          let masked :=
            if needAnother then
              maskSaturated (length (Requests ba)) 0 (Requests ba)
                (Responses curReply) false
            else inr (Requests ba, false) in
          match masked with
          | inl msg => RangePanic msg
          | inr (reqs, needAnother) =>
              let ba := setRequests reqs ba in
              if negb needAnother then RangeReturn br
              else if isReverse then
                RangeNext ba {| rs_Key := rs_Key rs;
                                rs_EndKey := prev ops ba (StartKey desc) |} br
              else
                RangeNext ba {| rs_Key := next ops ba (EndKey desc);
                                rs_EndKey := rs_EndKey rs |} br
          end
      end
  end.

(** ** [sendChunk] *)

(** [desc.FindReplica(storeID)]: the index of the replica on that store in
    the descriptor, [-1] when there is none. *)
Definition descFindReplica (storeID : Z) (desc : RangeDescriptor) : Z :=
  findIndex (fun r => StoreID r =? storeID) (Replicas desc).

Definition isEndTransaction (r : Request) : bool :=
  match r with EndTransactionRequest _ => true | _ => false end.

(** How one pass through the body of the retry loop ends. *)
Inductive Attempt :=
| Continue (considerIntents : bool) (r : Retry) (pErr : option Error) (w : World)
| BreakError (pErr : Error) (w : World)
| Finished (curReply : BatchResponse) (desc : RangeDescriptor)
    (needAnother : bool) (w : World)
| Return (pErr : Error) (shouldSplitET : bool) (w : World)
| NoAnswer (w : World).

(** The error handling at the end of the retry loop body. *)
Definition handleError (considerIntents : bool) (r : Retry) (pErr : Error)
    (descKey : RKey) (desc : RangeDescriptor) (isReverse : bool) (w : World)
    : Attempt :=
  match err_Detail pErr with
  | SendError _ retryable =>
      let w := evictDesc descKey desc isReverse w in
      if retryable then Continue considerIntents r (Some pErr) w
      else BreakError pErr w
  | RangeNotFoundError | RangeKeyMismatchError =>
      let w := evictDesc descKey desc isReverse w in
      Continue true (retryReset r) (Some pErr) w
  | NotLeaderError Leader =>
      let '(newLeader, w) :=
        match Leader with
        | Some newLeader =>
            if descFindReplica (StoreID newLeader) desc =? -1
            then (newLeader, evictDesc descKey desc isReverse w)
            else (newLeader, w)
        | None => (zeroReplicaDescriptor, evictDesc descKey desc isReverse w)
        end in
      let w := updateLeaderCache (RangeID desc) newLeader w in
      Continue considerIntents (retryReset r) (Some pErr) w
  | RetryableErr _ canRetry =>
      if canRetry then Continue considerIntents r (Some pErr) w
      else BreakError pErr w
  | _ => BreakError pErr w
  end.

(** The body of the retry loop. *)
Definition attempt (ops : BatchOps) (isReverse : bool) (ba : BatchRequest)
    (rs : RSpan) (br : option BatchResponse) (considerIntents : bool)
    (r : Retry) (w : World) : Attempt :=
  match getDescriptors rs considerIntents isReverse w with
  | None => NoAnswer w
  | Some (inl pErr, w) =>
      if err_Retryable pErr then Continue considerIntents r (Some pErr) w
      else BreakError pErr w
  | Some (inr (desc, needAnother, descKey), w) =>
      if needAnother && bool_decide (br = None)
         && bool_decide (Txn ba = None) && IsPossibleTransaction ops ba
         && negb (isInconsistent (ReadConsistency ba))
      then Return (NewError OpRequiresTxnError) false w
      else if needAnother && bool_decide (br = None)
              && (0 <? Z.of_nat (length (Requests ba)) - 1)
              && from_option isEndTransaction false (last (Requests ba))
      then Return (NewError (PlainErr "cannot send 1PC txn to multiple ranges")) true w
      else if (isReverse && negb (ContainsKeyRange ops desc (StartKey desc) (rs_EndKey rs)))
              || (negb isReverse && negb (ContainsKeyRange ops desc (rs_Key rs) (EndKey desc)))
      then Continue considerIntents r None (evictDesc descKey desc isReverse w)
      else
        match sendTruncated ops ba rs desc w with
        | None => NoAnswer w
        | Some (inr curReply, w) => Finished curReply desc needAnother w
        | Some (inl pErr, w) =>
            handleError considerIntents r pErr descKey desc isReverse w
        end
  end.

Definition ChunkResult : Type :=
  Outcome (option BatchResponse * option Error * bool) * World.

(** What follows a retry loop that [r.Next()] ended: the last error if there
    is one, else the closer must have fired. *)
Definition afterClosedLoop (pErr : option Error) (w : World) : ChunkResult :=
  match pErr with
  | Some pErr => (Done (None, Some pErr, false), w)
  | None =>
      match closer w with
      | Some O => (Done (None, Some (NewError NodeUnavailableError), false), w)
      | _ => (Panic "exited retry loop with nil error but finished=false", w)
      end
  end.

(** The two nested loops of [sendChunk].  One unit of [fuel] pays for one
    pass through the body of the retry loop; [considerIntents], [r] and
    [pErr] are the variables of the current retry loop, [ba], [rs] and [br]
    those of the loop over ranges. *)
Fixpoint sendChunkLoop (ops : BatchOps) (isReverse : bool) (fuel : nat)
    (ba : BatchRequest) (rs : RSpan) (br : option BatchResponse)
    (considerIntents : bool) (r : Retry) (pErr : option Error) (w : World)
    : ChunkResult :=
  match fuel with
  | O => (Stalled, w)
  | S fuel' =>
      match retryNext r w with
      | (false, _, w) => afterClosedLoop pErr w
      | (true, r, w) =>
          match attempt ops isReverse ba rs br considerIntents r w with
          | Continue considerIntents r pErr w =>
              sendChunkLoop ops isReverse fuel' ba rs br considerIntents r pErr w
          | BreakError pErr w => (Done (None, Some pErr, false), w)
          | Return pErr shouldSplitET w => (Done (None, Some pErr, shouldSplitET), w)
          | NoAnswer w => (Stalled, w)
          | Finished curReply desc needAnother w =>
              match afterRange ops isReverse ba rs br curReply desc needAnother with
              | RangeReturn br => (Done (Some br, None, false), w)
              | RangeError pErr => (Done (None, Some pErr, false), w)
              | RangePanic msg => (Panic msg, w)
              | RangeNext ba rs br =>
                  sendChunkLoop ops isReverse fuel' ba rs (Some br)
                    false retryStart None w
              end
          end
      end
  end.

Definition sendChunk (ops : BatchOps) (fuel : nat) (ba : BatchRequest)
    (w : World) : ChunkResult :=
  sendChunkLoop ops (IsReverse ops ba) fuel ba (keys_Range ops ba) None
    false retryStart None w.

(** ** [Send] *)

(** The verification loop for a batch with a limit: [fwd] and [rev] record
    the scan directions seen; the first request of another type ends it. *)
Fixpoint scanDirections (reqs : list Request) (fwd rev : bool)
    : Error + bool * bool :=
  match reqs with
  | [] => inr (fwd, rev)
  | ScanRequest _ _ _ :: rest => scanDirections rest true rev
  | ReverseScanRequest _ _ _ :: rest => scanDirections rest fwd true
  | _ :: _ => inl (NewErrorf "batch with limit contains non-scan requests")
  end.

Definition checkLimit (ba : BatchRequest) : option Error :=
  if negb (MaxScanResults ba =? 0) then
    match scanDirections (Requests ba) false false with
    | inl pErr => Some pErr
    | inr (fwd, rev) =>
        if fwd && rev then
          Some (NewErrorf "batch with limit contains both forward and reverse scans")
        else None
    end
  else None.

(** The two adjustments [Send] makes to its copy of the batch before
    anything else: the timestamp of an inconsistent read, and the local
    node's entry in a transaction's (empty) list of observed timestamps. *)
Definition prepareBatch (ba : BatchRequest) (w : World) : BatchRequest * World :=
  let ba :=
    if isInconsistent (ReadConsistency ba) && (ba_Timestamp ba =? 0)
    then setTimestamp (clockNow w) ba else ba in
  match Txn ba with
  | Some txn =>
      if Z.of_nat (length (txn_ObservedTimestamps txn)) =? 0 then
        let '(nDesc, cached) := getNodeDescriptor (nodeDescriptor w) (gossip w) in
        let w := setNodeDescriptor cached w in
        match nDesc with
        | Some nDesc =>
            let txnShallow :=
              {| txn_ID := txn_ID txn;
                 txn_OrigTimestamp := txn_OrigTimestamp txn;
                 txn_ObservedTimestamps :=
                   [(nd_NodeID nDesc, txn_OrigTimestamp txn)] |} in
            (setTxn (Some txnShallow) ba, w)
        | None => (ba, w)
        end
      else (ba, w)
  | None => (ba, w)
  end.

(** The loop [for len(parts) > 0]; one unit of [fuel] pays for one pass,
    and every call of [sendChunk] gets [fuel] passes of its own. *)
Fixpoint sendParts (ops : BatchOps) (fuel n : nat) (parts : list (list Request))
    (ba : BatchRequest) (rplChunks : list BatchResponse) (w : World)
    : Outcome (Error + list BatchResponse) * World :=
  match n with
  | O => (Stalled, w)
  | S n' =>
      match parts with
      | [] => (Done (inr rplChunks), w)
      | part :: rest =>
          let ba := setRequests part ba in
          match sendChunk ops fuel ba w with
          | (Panic msg, w) => (Panic msg, w)
          | (Stalled, w) => (Stalled, w)
          | (Done (rpl, pErr, shouldSplitET), w) =>
              if shouldSplitET then
                if negb (Z.of_nat (length parts) =? 1) then
                  (Panic "EndTransaction not in last chunk of batch", w)
                else
                  let parts := Split ops ba true in
                  if negb (Z.of_nat (length parts) =? 2) then
                    (Panic "split of final EndTransaction chunk resulted in != 2 parts", w)
                  else sendParts ops fuel n' parts ba rplChunks w
              else
                match pErr, rpl with
                | Some pErr, _ => (Done (inl pErr), w)
                | None, None => (Panic "nil pointer dereference", w)
                | None, Some rpl =>
                    let ba := setTxn (TxnUpdate ops (Txn ba) (h_Txn (br_Header rpl))) ba in
                    sendParts ops fuel n' rest ba (rplChunks ++ [rpl]) w
                end
          end
      end
  end.

(** [reply.Responses = append(reply.Responses, rpl.Responses...)] and the
    same for the collected spans. *)
Definition appendChunk (reply rpl : BatchResponse) : BatchResponse :=
  {| br_Header :=
       {| h_Error := h_Error (br_Header reply);
          h_Timestamp := h_Timestamp (br_Header reply);
          h_Txn := h_Txn (br_Header reply);
          h_CollectedSpans :=
            h_CollectedSpans (br_Header reply) ++ h_CollectedSpans (br_Header rpl) |};
     Responses := Responses reply ++ Responses rpl |}.

(** The recombination at the end of [Send].  [reply] is the first chunk,
    extended in place; the header assigned last is read from the last
    chunk, which is the unextended first one when there is no other. *)
Definition recombine (rplChunks : list BatchResponse) : string + BatchResponse :=
  match rplChunks with
  | [] => inl "index out of range"
  | first :: rest =>
      let reply := foldl appendChunk first rest in
      inr {| br_Header := br_Header (List.last rest first);
             Responses := Responses reply |}
  end.

Definition Send (ops : BatchOps) (fuel : nat) (ba : BatchRequest) (w : World)
    : Outcome (option BatchResponse * option Error) * World :=
  let '(ba, w) := prepareBatch ba w in
  if Z.of_nat (length (Requests ba)) <? 1 then (Panic "empty batch", w)
  else
    match checkLimit ba with
    | Some pErr => (Done (None, Some pErr), w)
    | None =>
        let parts := Split ops ba false in
        if (1 <? Z.of_nat (length parts)) && negb (MaxScanResults ba =? 0) then
          (Panic "batch with MaxScanResults needs splitting", w)
        else
          match sendParts ops fuel fuel parts ba [] w with
          | (Panic msg, w) => (Panic msg, w)
          | (Stalled, w) => (Stalled, w)
          | (Done (inl pErr), w) => (Done (None, Some pErr), w)
          | (Done (inr rplChunks), w) =>
              match recombine rplChunks with
              | inl msg => (Panic msg, w)
              | inr reply => (Done (Some reply, None), w)
              end
          end
    end.

(** ** An instance of the helpers, for running the model

    Simple stand-ins for the batch and key helpers, used only to evaluate
    the senders on concrete inputs.  Keys are clipped with the byte-wise
    order; a request that does not touch the span is replaced by a no-op;
    requests of the maintenance methods listed in [nonTransactional] cannot
    be part of a transaction. *)
Definition keyMax (a b : RKey) : RKey := if Less a b then b else a.
Definition keyMin (a b : RKey) : RKey := if Less a b then a else b.

Definition requestSpan (r : Request) : option (string * string) :=
  match r with
  | ScanRequest k e _ | ReverseScanRequest k e _ | OtherRequest _ k e => Some (k, e)
  | EndTransactionRequest k => Some (k, k)
  | NoopRequest => None
  end.

Definition exampleRange (ba : BatchRequest) : RSpan :=
  match omap requestSpan (Requests ba) with
  | [] => {| rs_Key := ""; rs_EndKey := "" |}
  | (k, e) :: rest =>
      {| rs_Key := foldr (fun s acc => keyMin (fst s) acc) k rest;
         rs_EndKey := foldr (fun s acc => keyMax (snd s) acc) e rest |}
  end.

Definition clipRequest (rs : RSpan) (r : Request) : Request :=
  match requestSpan r with
  | None => NoopRequest
  | Some (k, e) =>
      let k' := keyMax k (rs_Key rs) in
      let e' := keyMin e (rs_EndKey rs) in
      if Less k' e'
         || (String.eqb k e && negb (Less k (rs_Key rs))
             && negb (Less (rs_EndKey rs) k)) then
        match r with
        | ScanRequest _ _ m => ScanRequest k' e' m
        | ReverseScanRequest _ _ m => ReverseScanRequest k' e' m
        | OtherRequest m _ _ => OtherRequest m k' e'
        | _ => r
        end
      else NoopRequest
  end.

Definition isNoop (r : Request) : bool :=
  match r with NoopRequest => true | _ => false end.

Definition nonTransactional : list string :=
  ["GC"; "PushTxn"; "ResolveIntent"; "ResolveIntentRange"; "RangeLookup"].

Definition canBeInTransaction (r : Request) : bool :=
  match r with
  | NoopRequest => false
  | OtherRequest m _ _ => negb (bool_decide (m ∈ nonTransactional))
  | _ => true
  end.

Definition exampleOps : BatchOps :=
  {| keys_Range := exampleRange;
     IsReverse ba :=
       existsb (fun r => match r with ReverseScanRequest _ _ _ => true | _ => false end)
         (Requests ba);
     IsReadOnly ba :=
       forallb (fun r => match r with
                         | ScanRequest _ _ _ | ReverseScanRequest _ _ _ | NoopRequest => true
                         | OtherRequest m _ _ => String.eqb m "Get"
                         | _ => false
                         end) (Requests ba);
     IsPossibleTransaction ba := existsb canBeInTransaction (Requests ba);
     Intersect rs desc :=
       inr {| rs_Key := keyMax (rs_Key rs) (StartKey desc);
              rs_EndKey := keyMin (rs_EndKey rs) (EndKey desc) |};
     truncate ba rs :=
       let reqs := map (clipRequest rs) (Requests ba) in
       (setRequests reqs ba,
        Z.of_nat (length (filter (fun r => isNoop r = false) reqs)), None);
     ContainsKeyRange desc start end_ :=
       negb (Less end_ start)
       && negb (Less start (StartKey desc)) && negb (Less (EndKey desc) end_);
     next _ k := k;
     prev _ k := k;
     Split ba splitET :=
       match reverse (Requests ba) with
       | EndTransactionRequest k :: (_ :: _) as before =>
           if splitET then [reverse before; [EndTransactionRequest k]]
           else [Requests ba]
       | _ => [Requests ba]
       end;
     TxnUpdate t o := match o with Some _ => o | None => t end |}.

Definition replicaOn (n : Z) : ReplicaDescriptor :=
  {| NodeID := n; StoreID := n; ReplicaID := n |}.

Definition nodeAt (n : Z) (addr : string) : NodeDescriptor :=
  {| nd_NodeID := n; nd_Address := addr; nd_Attrs := [] |}.

Definition exampleGossip : Gossip :=
  {| g_NodeID := 1;
     g_Nodes := <[1 := nodeAt 1 "n1:26257"]>
                  (<[2 := nodeAt 2 "n2:26257"]>
                     (<[3 := nodeAt 3 "n3:26257"]> ∅)) |}.

Definition rangeAM : RangeDescriptor :=
  {| RangeID := 1; StartKey := "a"; EndKey := "m";
     Replicas := [replicaOn 1; replicaOn 2; replicaOn 3] |}.

Definition rangeMZ : RangeDescriptor :=
  {| RangeID := 2; StartKey := "m"; EndKey := "z";
     Replicas := [replicaOn 2; replicaOn 3] |}.

(** The descriptor of range 1 as it was before it split at "m". *)
Definition rangeAZ : RangeDescriptor :=
  {| RangeID := 1; StartKey := "a"; EndKey := "z";
     Replicas := [replicaOn 1; replicaOn 2; replicaOn 3] |}.

Definition found (desc : RangeDescriptor) : LookupAnswer :=
  {| committed := inr desc; uncommitted := inr desc; coin := false |}.

Definition emptyHeader : BatchResponse_Header :=
  {| h_Error := None; h_Timestamp := 0; h_Txn := None; h_CollectedSpans := [] |}.

Definition replyOf (l : list Response) : BatchResponse :=
  {| br_Header := emptyHeader; Responses := l |}.

Definition failedWith (e : GoError) : BatchResponse :=
  {| br_Header :=
       {| h_Error := Some (NewError e); h_Timestamp := 0; h_Txn := None;
          h_CollectedSpans := [] |};
     Responses := [] |}.

Definition exampleWorld (answers : list LookupAnswer)
    (results : list (GoError + BatchResponse)) : World :=
  {| nodeDescriptor := None; gossip := Some exampleGossip;
     leaderCache := ∅; clockNow := 100;
     lookups := answers; rpcs := results; closer := None; log := [] |}.

Definition batchOf (limit : Z) (reqs : list Request) : BatchRequest :=
  {| Requests := reqs; Txn := None; ReadConsistency := CONSISTENT;
     MaxScanResults := limit; ba_Timestamp := 0; ba_RangeID := 0;
     ba_Replica := zeroReplicaDescriptor |}.

Definition withTxn (ba : BatchRequest) : BatchRequest :=
  setTxn (Some {| txn_ID := 7; txn_OrigTimestamp := 100;
                  txn_ObservedTimestamps := [(1, 100)] |}) ba.

Definition rows (n : nat) : list (string * string) := replicate n ("k", "v").

(** The state [send] ended in or is blocked in. *)
Definition finalState (res : SendResult) : option SendState :=
  match res with
  | Returned _ _ st | Blocked st => Some st
  | IndexPanic => None
  end.

(** The client [send] builds for a replica. *)
Definition clientFor (args : BatchRequest) (replica : ReplicaInfo) : batchClient :=
  {| remoteAddr := nd_Address (ri_NodeDesc replica);
     bc_args :=
       {| Requests := Requests args; Txn := Txn args;
          ReadConsistency := ReadConsistency args;
          MaxScanResults := MaxScanResults args;
          ba_Timestamp := ba_Timestamp args;
          ba_RangeID := ba_RangeID args;
          ba_Replica := ri_Replica replica |} |}.

(** The ordered client list [send] works through; empty when the call
    returns before its first dispatch. *)
Definition orderedFor (env : RPCEnv) (opts : SendOptions)
    (replicas : ReplicaSlice) (args : BatchRequest) : list batchClient :=
  match dialAll env args replicas with
  | (_, inr clients) =>
      match orderClients env (Ordering opts) clients with
      | inr ordered => ordered
      | inl _ => []
      end
  | (_, inl _) => []
  end.

(** Two replicas at different addresses whose RPCs both fail, the first
    with a disconnect. *)
Definition failingEnv : RPCEnv :=
  {| GRPCDial _ := None;
     connState _ := inr Ready;
     randSource n := n;
     completionOf c :=
       {| bc_reply := None;
          bc_err := Some (if String.eqb (remoteAddr c) "n1:26257"
                          then ErrUnexpectedEOF else PlainErr "refused") |} |}.

Definition twoReplicas : ReplicaSlice :=
  [{| ri_Replica := {| NodeID := 1; StoreID := 1; ReplicaID := 1 |};
      ri_NodeDesc := {| nd_NodeID := 1; nd_Address := "n1:26257"; nd_Attrs := [] |} |};
   {| ri_Replica := {| NodeID := 2; StoreID := 2; ReplicaID := 2 |};
      ri_NodeDesc := {| nd_NodeID := 2; nd_Address := "n2:26257"; nd_Attrs := [] |} |}].

Definition stableOpts : SendOptions :=
  {| Ordering := orderStable; SendNextTimeout := 10000; Timeout := 3000 |}.

Definition randomOpts : SendOptions :=
  {| Ordering := orderRandom; SendNextTimeout := 10000; Timeout := 3000 |}.

Definition emptyBatch : BatchRequest :=
  {| Requests := []; Txn := None; ReadConsistency := CONSISTENT;
     MaxScanResults := 0; ba_Timestamp := 0; ba_RangeID := 0;
     ba_Replica := {| NodeID := 0; StoreID := 0; ReplicaID := 0 |} |}.

Definition isScan (r : Request) : bool :=
  match r with ScanRequest _ _ _ => true | _ => false end.

Definition isReverseScan (r : Request) : bool :=
  match r with ReverseScanRequest _ _ _ => true | _ => false end.

(** The calls of [sendChunk] that send a list of parts to completion, in
    order: [partsRun ops fuel parts ba w chunks w'] holds when, starting in
    world [w], the parts are answered by [chunks], one reply per part sent,
    a part that has to be re-split being replaced by its two halves. *)
Inductive partsRun (ops : BatchOps) (fuel : nat)
    : list (list Request) -> BatchRequest -> World
      -> list BatchResponse -> World -> Prop :=
| partsRun_done ba w : partsRun ops fuel [] ba w [] w
| partsRun_part part rest ba w rpl w1 chunks w2 :
    sendChunk ops fuel (setRequests part ba) w = (Done (Some rpl, None, false), w1) ->
    partsRun ops fuel rest
      (setTxn (TxnUpdate ops (Txn ba) (h_Txn (br_Header rpl))) (setRequests part ba))
      w1 chunks w2 ->
    partsRun ops fuel (part :: rest) ba w (rpl :: chunks) w2
| partsRun_split part ba w rpl pErr w1 first second chunks w2 :
    sendChunk ops fuel (setRequests part ba) w = (Done (rpl, pErr, true), w1) ->
    Split ops (setRequests part ba) true = [first; second] ->
    partsRun ops fuel [first; second] (setRequests part ba) w1 chunks w2 ->
    partsRun ops fuel [part] ba w chunks w2.

(** A scripted lookup answer that fails retryably when read without
    intents. *)
Definition retryableMiss (a : LookupAnswer) : Prop :=
  exists pErr, committed a = inl pErr /\ err_Retryable pErr = true.

(** The closer does not fire during the next [k] backoff waits. *)
Definition closerAllows (k : nat) (c : option nat) : Prop :=
  match c with
  | None => True
  | Some n => (k <= n)%nat
  end.

Definition isRPC (e : Event) : bool :=
  match e with EvRPC _ _ _ => true | _ => false end.

(** [needAnother] as [getDescriptors] computes it. *)
Definition extendsBeyond (isReverse : bool) (rs : RSpan) (desc : RangeDescriptor)
    : bool :=
  if isReverse then Less (rs_Key rs) (StartKey desc)
  else Less (EndKey desc) (rs_EndKey rs).

(** What the wait loop keeps true of its state: clients leave the ordered
    list from its head and only towards the sent log, every sent client
    is either in flight or has failed, and the two counters agree with
    the failures recorded. *)
Record loopInvariant (ordered : list batchClient) (st : SendState) : Prop := {
  inv_order : sentLog st ++ orderedClients st = ordered;
  inv_flight : errors st + Z.of_nat (length (inflight st))
               <= Z.of_nat (length (sentLog st));
  inv_errors : errors st = Z.of_nat (length (failureLog st));
  inv_retryable :
    retryableErrors st
    = Z.of_nat (length (filter (fun e => isRetryableFailure e = true) (failureLog st)))
}.

(** The key [getDescriptors] looks up: the leading edge of the span, or
    its trailing edge for a reverse scan. *)
Definition lookupKey (isReverse : bool) (rs : RSpan) : RKey :=
  if negb isReverse then rs_Key rs else rs_EndKey rs.

(** A lookup that fails retryably, as while the first range has not been
    gossiped yet. *)
Definition firstRangeMissing : LookupAnswer :=
  {| committed :=
       inl (NewError (RetryableErr
              "the descriptor for the first range is not available via gossip" true));
     uncommitted :=
       inl (NewError (RetryableErr
              "the descriptor for the first range is not available via gossip" true));
     coin := false |}.

(** A consistent batch without a transaction that resolves intents over
    the span a-z, and a world in which that span is held by two ranges. *)
Definition resolveBatch : BatchRequest :=
  batchOf 0 [OtherRequest "ResolveIntentRange" "a" "z"].

Definition resolveWorld : World :=
  exampleWorld [found rangeAM; found rangeMZ]
    [inr (replyOf [OtherResponse "ResolveIntentRange" "ok"]);
     inr (replyOf [OtherResponse "ResolveIntentRange" "ok"])].

(** The count a response contributes: its rows if it is countable. *)
Definition cnt (r : Response) : Z := default 0 (Count r).

Definition brCount (br : option BatchResponse) : Z :=
  match br with
  | None => 0
  | Some br => countResults (Responses br)
  end.

(** What the replacement loop leaves in slot [i] of the response it
    returns, given the request of that slot and the accumulated response:
    the empty response of the request's type where the accumulated response
    held a no-op, the accumulated response of the slot otherwise. *)
Definition slotFilled (req : Request) (acc : list Response) (final : list Response)
    (i : nat) : Prop :=
  (acc !! i = Some NoopResponse
   /\ ((isScan req = true /\ final !! i = Some (ScanResponse []))
       \/ (isReverseScan req = true /\ final !! i = Some (ReverseScanResponse []))))
  \/ (exists resp, resp <> NoopResponse
                   /\ acc !! i = Some resp /\ final !! i = Some resp).

(** A batch of two scans under a limit of three results, inside a
    transaction, over two ranges: the first range returns two rows for the
    first scan, the second range the third row; the second scan is not
    reached in either. *)
Definition limitedBatch : BatchRequest :=
  withTxn (batchOf 3 [ScanRequest "a" "z" 0; ScanRequest "n" "q" 0]).

Definition limitedWorld : World :=
  exampleWorld [found rangeAM; found rangeMZ]
    [inr (replyOf [ScanResponse (rows 2); NoopResponse]);
     inr (replyOf [ScanResponse (rows 1); NoopResponse])].

(** The world a pass through the retry loop body ends in. *)
Definition attemptWorld (a : Attempt) : World :=
  match a with
  | Continue _ _ _ w | BreakError _ w | Finished _ _ _ w | Return _ _ w
  | NoAnswer w => w
  end.

(** The kind of a logged event, for reading a log at a glance. *)
Inductive EventKind :=
| Lookup (considerIntents usedIntent : bool)
| Evict
| RPC
| Backoff.

Definition eventKind (e : Event) : EventKind :=
  match e with
  | EvLookup _ considerIntents _ usedIntent => Lookup considerIntents usedIntent
  | EvEvict _ _ _ => Evict
  | EvRPC _ _ _ => RPC
  | EvBackoff _ => Backoff
  end.

(** Whether the connection of a client is known to be ready, as the
    health partition of [send] tests it. *)
Definition isReady (env : RPCEnv) (c : batchClient) : bool :=
  match connState env (remoteAddr c) with
  | inr Ready => true
  | _ => false
  end.

(** A dialer that refuses the second node, for running [send]. *)
Definition refusingEnv : RPCEnv :=
  {| GRPCDial addr :=
       if String.eqb addr "n2:26257" then Some (PlainErr "connection refused")
       else None;
     connState addr :=
       if String.eqb addr "n1:26257" then inr Idle else inr Ready;
     randSource n := n;
     completionOf c :=
       if String.eqb (remoteAddr c) "n3:26257"
       then {| bc_reply := Some {| br_Header :=
                                     {| h_Error := None; h_Timestamp := 0;
                                        h_Txn := None; h_CollectedSpans := [] |};
                                   Responses := [] |};
               bc_err := None |}
       else {| bc_reply := None; bc_err := Some ErrUnexpectedEOF |} |}.

(** The same surroundings with a dialer that accepts every address. *)
Definition mixedEnv : RPCEnv :=
  {| GRPCDial _ := None;
     connState := connState refusingEnv;
     randSource := randSource refusingEnv;
     completionOf := completionOf refusingEnv |}.

Definition threeReplicas : ReplicaSlice :=
  [{| ri_Replica := {| NodeID := 1; StoreID := 1; ReplicaID := 1 |};
      ri_NodeDesc := {| nd_NodeID := 1; nd_Address := "n1:26257"; nd_Attrs := [] |} |};
   {| ri_Replica := {| NodeID := 2; StoreID := 2; ReplicaID := 2 |};
      ri_NodeDesc := {| nd_NodeID := 2; nd_Address := "n2:26257"; nd_Attrs := [] |} |};
   {| ri_Replica := {| NodeID := 3; StoreID := 3; ReplicaID := 3 |};
      ri_NodeDesc := {| nd_NodeID := 3; nd_Address := "n3:26257"; nd_Attrs := [] |} |}].

(** ** [sendOne] *)

(** [newRPCError]: an [rpcError], whose [CanRetry] answers [true]. *)
Definition newRPCError (msg : string) : GoError := RetryableErr msg true.

(** The part of [rpc.Context] that [sendOne] reads. *)
Record RPCContext := {
  LocalInternalServer : option (BatchRequest -> batchCall);
  LocalAddr : string
}.

(** The calls [sendOne] makes, in order. *)
Inductive SendOneCall :=
| CallLocalBatch (args : BatchRequest)
| CallState
| CallWaitForStateChange (from : ConnState)
| CallRemoteBatch (args : BatchRequest).

Inductive WaitOutcome :=
| BecameReady
| WaitFailed (err : GoError)
| StillWaiting.

Definition isReadyState (s : ConnState) : bool :=
  match s with Ready => true | _ => false end.

Definition isShutdown (s : ConnState) : bool :=
  match s with Shutdown => true | _ => false end.

(** The loop [for state, err := c.State(); state != grpc.Ready;
    state, err = c.WaitForStateChange(ctx, state)].  [changes] lists what
    [c.State()] and then the successive calls of [WaitForStateChange]
    return (state and error); [call] is the call whose result is read
    next.  When the list runs out the goroutine is still waiting.  The text
    of the underlying error is not carried into the message. *)
Fixpoint awaitReady (addr : string) (call : SendOneCall)
    (changes : list (ConnState * option GoError))
    : list SendOneCall * WaitOutcome :=
  match changes with
  | [] => ([], StillWaiting)
  | (state, err) :: rest =>
      if isReadyState state then ([call], BecameReady)
      else
        match err with
        | Some _ => ([call], WaitFailed (newRPCError ("rpc to " +:+ addr +:+ " failed")))
        | None =>
            if isShutdown state then
              ([call],
               WaitFailed (newRPCError
                 ("rpc to " +:+ addr +:+ " failed as client connection was closed")))
            else
              let '(calls, outcome) :=
                awaitReady addr (CallWaitForStateChange state) rest in
              (call :: calls, outcome)
        end
  end.

(** What a call of [sendOne] leaves behind: the values put on [done], the
    calls made, and whether its goroutine is still waiting for the
    connection. *)
Record SendOneResult := {
  onDone : list batchCall;
  callsMade : list SendOneCall;
  stillWaiting : bool
}.

(** [sendOne].  [enableLocalCalls] is the package variable of that name,
    [remoteBatch] what [client.client.Batch] returns.  (The timeout only
    bounds the context handed to these calls.) *)
Definition sendOne (enableLocalCalls : bool) (rpcContext : RPCContext)
    (changes : list (ConnState * option GoError))
    (remoteBatch : BatchRequest -> batchCall) (client : batchClient)
    : SendOneResult :=
  let addr := remoteAddr client in
  let viaConnection :=
    match awaitReady addr CallState changes with
    | (calls, WaitFailed err) =>
        {| onDone := [{| bc_reply := None; bc_err := Some err |}];
           callsMade := calls; stillWaiting := false |}
    | (calls, StillWaiting) =>
        {| onDone := []; callsMade := calls; stillWaiting := true |}
    | (calls, BecameReady) =>
        {| onDone := [remoteBatch (bc_args client)];
           callsMade := calls ++ [CallRemoteBatch (bc_args client)];
           stillWaiting := false |}
    end in
  match LocalInternalServer rpcContext with
  | Some localServer =>
      if enableLocalCalls && String.eqb addr (LocalAddr rpcContext) then
        {| onDone := [localServer (bc_args client)];
           callsMade := [CallLocalBatch (bc_args client)];
           stillWaiting := false |}
      else viaConnection
  | None => viaConnection
  end.

Definition isBatchCall (c : SendOneCall) : bool :=
  match c with
  | CallLocalBatch _ | CallRemoteBatch _ => true
  | _ => false
  end.

(** An [rpc.Context] without a local server, and one whose local server
    answers every batch with an empty reply. *)
Definition remoteOnly : RPCContext :=
  {| LocalInternalServer := None; LocalAddr := "n1:26257" |}.

Definition okCall : batchCall :=
  {| bc_reply := Some {| br_Header :=
                           {| h_Error := None; h_Timestamp := 0; h_Txn := None;
                              h_CollectedSpans := [] |};
                         Responses := [] |};
     bc_err := None |}.

Definition withLocalServer : RPCContext :=
  {| LocalInternalServer := Some (fun _ => okCall); LocalAddr := "n1:26257" |}.

(** Every connection has been closed: the completion of each client is
    what [sendOne] puts on [done] then. *)
Definition shutdownEnv : RPCEnv :=
  {| GRPCDial _ := None;
     connState _ := inr Shutdown;
     randSource n := n;
     completionOf c :=
       default okCall
         (head (onDone (sendOne true remoteOnly [(Shutdown, None)]
                          (fun _ => okCall) c))) |}.

(** Whether every RPC in a stretch of the log comes directly after a
    descriptor lookup; [afterLookup] tells whether the event just before
    the stretch was one. *)
Fixpoint rpcsFollowLookups (afterLookup : bool) (l : list Event) : bool :=
  match l with
  | [] => true
  | EvRPC _ _ _ :: rest => afterLookup && rpcsFollowLookups false rest
  | EvLookup _ _ _ _ :: rest => rpcsFollowLookups true rest
  | _ :: rest => rpcsFollowLookups false rest
  end.

Definition isLookup (e : Event) : bool :=
  match e with EvLookup _ _ _ _ => true | _ => false end.

(** ** Construction of the sender *)

Definition defaultRangeLookupMaxRanges : Z := 8.
Definition defaultLeaderCacheSize : Z := Z.shiftl 1 16.
Definition defaultRangeDescriptorCacheSize : Z := Z.shiftl 1 20.

(** [retry.Options], as far as [defaultRPCRetryOptions] sets it; durations
    in milliseconds. *)
Record RetryOptions := {
  InitialBackoff : Z;
  MaxBackoff : Z;
  Multiplier : Z
}.

Definition defaultRPCRetryOptions : RetryOptions :=
  {| InitialBackoff := retryBackoff; MaxBackoff := maxRetryBackoff;
     Multiplier := 2 |}.

(** The objects [NewDistSender] creates when the context names none, next
    to those a context can name. *)
Inductive Clock := UnixNanoClock | GivenClock (name : string).
Inductive Tracer := NewTracer | GivenTracer (name : string).
Inductive DescriptorDB := SenderItself | GivenDB (name : string).
Inductive rpcSendFn := DefaultSend | GivenSend (name : string).

(** [DistSenderContext]; a nil pointer or interface is [None]. *)
Record DistSenderContext := {
  ctx_Clock : option string;
  RangeDescriptorCacheSize : Z;
  RangeLookupMaxRanges : Z;
  LeaderCacheSize : Z;
  RPCRetryOptions : option RetryOptions;
  ctx_nodeDescriptor : option NodeDescriptor;
  RPCSend : option string;
  ctx_RPCContext : option RPCContext;
  RangeDescriptorDB : option string;
  ctx_Tracer : option string
}.

(** [&DistSenderContext{}] *)
Definition zeroContext : DistSenderContext :=
  {| ctx_Clock := None; RangeDescriptorCacheSize := 0;
     RangeLookupMaxRanges := 0; LeaderCacheSize := 0;
     RPCRetryOptions := None; ctx_nodeDescriptor := None; RPCSend := None;
     ctx_RPCContext := None; RangeDescriptorDB := None; ctx_Tracer := None |}.

(** The fields of a [DistSender] after construction; the two caches are
    given by the arguments of their constructors. *)
Record DistSender := {
  ds_Tracer : Tracer;
  ds_nodeDescriptor : option NodeDescriptor;
  ds_clock : Clock;
  ds_gossip : option Gossip;
  ds_rangeCacheDB : DescriptorDB;
  ds_rangeCacheSize : Z;
  ds_rangeLookupMaxRanges : Z;
  ds_leaderCacheSize : Z;
  ds_rpcSend : rpcSendFn;
  ds_rpcContext : option RPCContext;
  ds_rpcRetryOptions : RetryOptions
}.

(** [NewDistSender] *)
Definition NewDistSender (ctx : option DistSenderContext) (gossip : option Gossip)
    : DistSender :=
  let ctx := match ctx with None => zeroContext | Some ctx => ctx end in
  let clock := match ctx_Clock ctx with
               | None => UnixNanoClock
               | Some c => GivenClock c
               end in
  let rcSize := RangeDescriptorCacheSize ctx in
  let rcSize := if rcSize <=? 0 then defaultRangeDescriptorCacheSize else rcSize in
  let rdb := match RangeDescriptorDB ctx with
             | None => SenderItself
             | Some db => GivenDB db
             end in
  let lcSize := LeaderCacheSize ctx in
  let lcSize := if lcSize <=? 0 then defaultLeaderCacheSize else lcSize in
  {| ds_clock := clock;
     ds_gossip := gossip;
     ds_nodeDescriptor := ctx_nodeDescriptor ctx;
     ds_rangeCacheDB := rdb;
     ds_rangeCacheSize := rcSize;
     ds_leaderCacheSize := lcSize;
     ds_rangeLookupMaxRanges :=
       if RangeLookupMaxRanges ctx <=? 0 then defaultRangeLookupMaxRanges else 0;
     ds_rpcSend := match RPCSend ctx with
                   | Some f => GivenSend f
                   | None => DefaultSend
                   end;
     ds_rpcContext := ctx_RPCContext ctx;
     ds_rpcRetryOptions := match RPCRetryOptions ctx with
                           | Some o => o
                           | None => defaultRPCRetryOptions
                           end;
     ds_Tracer := match ctx_Tracer ctx with
                  | Some t => GivenTracer t
                  | None => NewTracer
                  end |}.

(** A context that sets the three sizes and nothing else. *)
Definition sizedContext (rangeCache lookupMax leaderCache : Z) : DistSenderContext :=
  {| ctx_Clock := None; RangeDescriptorCacheSize := rangeCache;
     RangeLookupMaxRanges := lookupMax; LeaderCacheSize := leaderCache;
     RPCRetryOptions := None; ctx_nodeDescriptor := None; RPCSend := None;
     ctx_RPCContext := None; RangeDescriptorDB := None; ctx_Tracer := None |}.

(** A context that names the node the sender lives on. *)
Definition nodeContext (d : NodeDescriptor) : DistSenderContext :=
  {| ctx_Clock := None; RangeDescriptorCacheSize := 0;
     RangeLookupMaxRanges := 0; LeaderCacheSize := 0;
     RPCRetryOptions := None; ctx_nodeDescriptor := Some d; RPCSend := None;
     ctx_RPCContext := None; RangeDescriptorDB := None; ctx_Tracer := None |}.

Definition isActive (r : Request) : bool := negb (isNoop r).

(** The part of the retry loop body that comes before the RPC: the
    descriptor lookup and the three tests that end or restart the pass.
    [Some] when the pass gets as far as sending, with the descriptor,
    [needAnother] and the world left by the lookup. *)
Definition descriptorForSend (ops : BatchOps) (isReverse : bool)
    (ba : BatchRequest) (rs : RSpan) (br : option BatchResponse)
    (considerIntents : bool) (w : World)
    : option (RangeDescriptor * bool * World) :=
  match getDescriptors rs considerIntents isReverse w with
  | Some (inr (desc, needAnother, _), w) =>
      if needAnother && bool_decide (br = None)
         && bool_decide (Txn ba = None) && IsPossibleTransaction ops ba
         && negb (isInconsistent (ReadConsistency ba))
      then None
      else if needAnother && bool_decide (br = None)
              && (0 <? Z.of_nat (length (Requests ba)) - 1)
              && from_option isEndTransaction false (last (Requests ba))
      then None
      else if (isReverse && negb (ContainsKeyRange ops desc (StartKey desc) (rs_EndKey rs)))
              || (negb isReverse && negb (ContainsKeyRange ops desc (rs_Key rs) (EndKey desc)))
      then None
      else Some (desc, needAnother, w)
  | _ => None
  end.

(** A lookup script in which the committed descriptor of the span n-p is
    the stale a-z and the uncommitted one the current m-z, behind a first
    answer from the cache. *)
Definition splitLookups : list LookupAnswer :=
  [found rangeAZ;
   {| committed := inr rangeAZ; uncommitted := inr rangeMZ; coin := true |}].

Definition mismatchWorld : World :=
  exampleWorld splitLookups
    [inr (failedWith RangeKeyMismatchError);
     inr (replyOf [ScanResponse (rows 1)])].

(** A world whose leader cache names, for range 1, replica 7 on node 5 and
    store 2. *)
Definition cachedLeaderWorld : World :=
  setLeaderCache (<[1 := {| NodeID := 5; StoreID := 2; ReplicaID := 7 |}]> ∅)
    (exampleWorld [] []).

(** The stale descriptor of the source's example: a range c-d that does
    not hold the start of a scan over a-z. *)
Definition rangeCD : RangeDescriptor :=
  {| RangeID := 3; StartKey := "c"; EndKey := "d";
     Replicas := [replicaOn 1; replicaOn 2; replicaOn 3] |}.

(** A schedule that delivers completions in the order of dispatch: every
    completion received is that of the oldest call still unanswered. *)
Definition inDispatchOrder (sched : list SelectEvent) : Prop :=
  Forall (fun ev => ev = TimerFires \/ ev = Completion 0) sched.

Definition isCompletion (ev : SelectEvent) : bool :=
  match ev with Completion _ => true | TimerFires => false end.

Definition countCompletions (sched : list SelectEvent) : nat :=
  length (filter (fun ev => isCompletion ev = true) sched).

(** The error with which the call to a replica fails in [env], if it
    does. *)
Definition failureOf (env : RPCEnv) (args : BatchRequest) (replica : ReplicaInfo)
    : option GoError :=
  bc_err (completionOf env (clientFor args replica)).

(** Three replicas whose calls all fail without a retryable error. *)
Definition refusedEnv : RPCEnv :=
  {| GRPCDial _ := None;
     connState _ := inr Ready;
     randSource n := n;
     completionOf c := {| bc_reply := None; bc_err := Some (PlainErr "refused") |} |}.

(** What holds of the wait loop while completions arrive in dispatch
    order: the calls in flight are the clients sent to that have not failed
    yet, and the failures recorded are those of the clients before them. *)
Definition inOrderInvariant (env : RPCEnv) (ordered : list batchClient)
    (st : SendState) : Prop :=
  loopInvariant ordered st
  /\ inflight st = drop (length (failureLog st)) (sentLog st)
  /\ Forall2 (fun c e => bc_err (completionOf env c) = Some e)
       (take (length (failureLog st)) (sentLog st)) (failureLog st)
  /\ (length (failureLog st) <= length (sentLog st))%nat.

(** What an answer of [rpcSend] contributes to the response of a batch:
    the reply, with its error field cleared, when the call succeeded and
    the reply carries no error. *)
Definition goodReply (answer : GoError + BatchResponse) : option BatchResponse :=
  match answer with
  | inr br =>
      match h_Error (br_Header br) with
      | None => Some (scrubError br)
      | Some _ => None
      end
  | inl _ => None
  end.

(** The accumulated response after a list of replies received in that
    order, starting from [br]. *)
Fixpoint accumulateAll (br : option BatchResponse) (replies : list BatchResponse)
    : GoError + option BatchResponse :=
  match replies with
  | [] => inr br
  | curReply :: rest =>
      match accumulate br curReply with
      | inl e => inl e
      | inr acc => accumulateAll (Some acc) rest
      end
  end.

(** The results counted in a list of replies. *)
Definition totalResults (replies : list BatchResponse) : Z :=
  foldr (fun r n => countResults (Responses r) + n) 0 replies.

(** What the masking loop can make of a request: it stays a scan or a
    reverse scan if it was one, or becomes a no-op, or stays as it is. *)
Definition keepsKind (original current : Request) : Prop :=
  current = NoopRequest
  \/ current = original
  \/ (isScan original = true /\ isScan current = true)
  \/ (isReverseScan original = true /\ isReverseScan current = true).

Definition keepKinds (original current : list Request) : Prop :=
  length current = length original
  /\ forall i o c, original !! i = Some o -> current !! i = Some c -> keepsKind o c.

(** Two reverse scans under a limit of three results, inside a
    transaction, over two ranges visited from the end: range m-z returns
    two rows for the first scan, range a-m the third; the second scan is
    not reached in either. *)
Definition limitedReverseBatch : BatchRequest :=
  withTxn (batchOf 3 [ReverseScanRequest "c" "z" 0; ReverseScanRequest "a" "b" 0]).

Definition limitedReverseWorld : World :=
  exampleWorld [found rangeMZ; found rangeAM]
    [inr (replyOf [ReverseScanResponse (rows 2); NoopResponse]);
     inr (replyOf [ReverseScanResponse (rows 1); NoopResponse])].

(** Two reverse scans under a limit of two results that the first range
    visited uses up. *)
Definition fullReverseBatch : BatchRequest :=
  withTxn (batchOf 2 [ReverseScanRequest "n" "z" 0; ReverseScanRequest "b" "d" 0]).

Definition fullReverseWorld : World :=
  exampleWorld [found rangeMZ; found rangeAM]
    [inr (replyOf [ReverseScanResponse (rows 2); NoopResponse])].

(** * Properties *)

(** ** The multi-replica sender *)

Section SendFacts.
Context (env : RPCEnv).

Lemma insert_swaps_head {A} (s : list A) (j : nat) (a b : A) :
  s !! j = Some b -> b :: <[j:=a]> s ≡ₚ a :: s.
Proof.
  revert j; induction s as [|x s IH]; intros [|j] Hj; simplify_eq/=.
  - apply Permutation_swap.
  - etrans; [apply Permutation_swap|]. rewrite (IH _ Hj). apply Permutation_swap.
Qed.

Lemma swap_Permutation {A} (i j : nat) (s : list A) : swap i j s ≡ₚ s.
Proof.
  unfold swap.
  destruct (s !! i) as [a|] eqn:Hi; [|done].
  destruct (s !! j) as [b|] eqn:Hj; [|done].
  revert i j Hi Hj; induction s as [|x s IH]; intros [|i] [|j] Hi Hj;
    simplify_eq/=; try done.
  - by apply insert_swaps_head.
  - by apply insert_swaps_head.
  - f_equiv. by apply IH.
Qed.

Lemma swap_length {A} (i j : nat) (s : list A) : length (swap i j s) = length s.
Proof. apply Permutation_length, swap_Permutation. Qed.

Lemma shuffleFrom_Permutation {A} rnd ctr i k (s : list A) :
  (shuffleFrom rnd ctr i k s).1 ≡ₚ s.
Proof.
  revert ctr i s; induction k as [|k IH]; intros ctr i s; simpl; [done|].
  rewrite IH. apply swap_Permutation.
Qed.

Lemma shuffleClients_Permutation {A} rnd ctr (s : list A) :
  (shuffleClients rnd ctr s).1 ≡ₚ s.
Proof. apply shuffleFrom_Permutation. Qed.

Lemma partitionHealthy_Permutation i nHealthy k clients clients' n :
  partitionHealthy env i nHealthy k clients = inr (clients', n) ->
  clients' ≡ₚ clients.
Proof.
  revert i nHealthy clients; induction k as [|k IH]; intros i nH clients; simpl.
  - by intros [= <- <-].
  - destruct (clients !! i) as [c|]; [|by intros [= <- <-]].
    destruct (connState env (remoteAddr c)) as [err|state]; [done|].
    destruct state; intros H; apply IH in H; try done.
    rewrite H. apply swap_Permutation.
Qed.

Lemma orderClients_Permutation policy clients ordered :
  orderClients env policy clients = inr ordered -> ordered ≡ₚ clients.
Proof.
  unfold orderClients. destruct policy; [by intros [= <-]|].
  destruct (partitionHealthy env 0 0 (length clients) clients)
    as [err|[clients' nHealthy]] eqn:Hp; [done|].
  apply partitionHealthy_Permutation in Hp.
  pose proof (shuffleClients_Permutation (randSource env) 0 (take nHealthy clients')) as H1.
  destruct (shuffleClients (randSource env) 0 (take nHealthy clients')) as [healthy ctr].
  pose proof (shuffleClients_Permutation (randSource env) ctr (drop nHealthy clients')) as H2.
  destruct (shuffleClients (randSource env) ctr (drop nHealthy clients')) as [rest ctr'].
  intros [= <-]. simpl in *. by rewrite H1, H2, take_drop.
Qed.

Lemma dialAll_clients args replicas dialed clients :
  dialAll env args replicas = (dialed, inr clients) ->
  clients = clientFor args <$> replicas.
Proof.
  revert dialed clients; induction replicas as [|replica rest IH];
    intros dialed clients; simpl.
  - by intros [= <- <-].
  - destruct (GRPCDial env _); [done|].
    destruct (dialAll env args rest) as [dlog [err|cs]]; [done|].
    intros [= <- <-]. by rewrite (IH _ _ eq_refl).
Qed.

Lemma sendNextIfAny_invariant ordered st :
  loopInvariant ordered st -> loopInvariant ordered (sendNextIfAny st).
Proof.
  intros Hinv. unfold sendNextIfAny.
  destruct (orderedClients st) as [|c rest] eqn:Hc; [done|].
  destruct Hinv as [H1 H2 H3 H4]. split; simpl; try done.
  - by rewrite <- H1, Hc, <- app_assoc.
  - rewrite !length_app. simpl. lia.
Qed.

Lemma recordFailure_invariant ordered st k c err :
  inflight st !! k = Some c ->
  loopInvariant ordered st -> loopInvariant ordered (recordFailure k err st).
Proof.
  intros Hk [H1 H2 H3 H4]. split; simpl; try done.
  - pose proof (length_delete (inflight st) k (mk_is_Some _ _ Hk)).
    apply lookup_lt_Some in Hk. lia.
  - rewrite length_app. simpl. lia.
  - rewrite filter_app, length_app, filter_cons, filter_nil.
    destruct (isRetryableFailure err) eqn:Herr.
    + rewrite decide_True by done. simpl. lia.
    + rewrite decide_False by (by intros ?). simpl. lia.
Qed.

Lemma received_invariant ordered st k c :
  inflight st !! k = Some c ->
  loopInvariant ordered st -> loopInvariant ordered (received k st).
Proof.
  intros Hk [H1 H2 H3 H4]. split; simpl; try done.
  pose proof (length_delete (inflight st) k (mk_is_Some _ _ Hk)). lia.
Qed.

Lemma waitLoop_invariant ordered n sched st st' :
  loopInvariant ordered st ->
  finalState (waitLoop env n sched st) = Some st' ->
  loopInvariant ordered st'.
Proof.
  revert st; induction sched as [|ev sched IH]; intros st Hinv; simpl.
  - by intros [= <-].
  - destruct ev as [|k].
    + apply IH. by apply sendNextIfAny_invariant.
    + destruct (inflight st !! k) as [c|] eqn:Hk; [|by intros [= <-]].
      destruct (bc_err (completionOf env c)) as [err|].
      * pose proof (recordFailure_invariant _ _ _ _ err Hk Hinv) as Hinv1.
        case_match; [by intros [= <-]|].
        apply IH. by apply sendNextIfAny_invariant.
      * intros [= <-]. by eapply received_invariant.
Qed.

Lemma initial_dispatch_invariant first rest :
  loopInvariant (first :: rest) (sendNext first rest initialState).
Proof. split; simpl; done. Qed.

Lemma retryable_count_positive (l : list GoError) :
  1 <= Z.of_nat (length (filter (fun e => isRetryableFailure e = true) l))
  <-> exists e, e ∈ l /\ isRetryableFailure e = true.
Proof.
  split.
  - intros H.
    destruct (filter (fun e => isRetryableFailure e = true) l) as [|e l'] eqn:Hf;
      [simpl in H; lia|].
    exists e.
    assert (e ∈ filter (fun e => isRetryableFailure e = true) l) as Hm
      by (rewrite Hf; left).
    apply list_elem_of_filter in Hm. tauto.
  - intros (e & Hin & He).
    assert (e ∈ filter (fun e => isRetryableFailure e = true) l) as Hm
      by by apply list_elem_of_filter.
    destruct (filter _ l) as [|x l']; [by apply elem_of_nil in Hm|simpl; lia].
Qed.

(** An error returned from the wait loop is the aggregate one, every
    client sent so far has failed, and no client is left unsent. *)
Lemma waitLoop_error ordered sched st reply err st' :
  loopInvariant ordered st ->
  waitLoop env (Z.of_nat (length ordered)) sched st = Returned reply (Some err) st' ->
  reply = None /\ errors st' = Z.of_nat (length ordered) /\ failureLog st' <> [] /\
  exists flag,
    err = SendError (TooManyErrors (errors st') (Z.of_nat (length ordered))) flag /\
    (flag = true <-> exists e, e ∈ failureLog st' /\ isRetryableFailure e = true).
Proof.
  revert st; induction sched as [|ev sched IH]; intros st Hinv; simpl; [done|].
  destruct ev as [|k].
  - apply IH. by apply sendNextIfAny_invariant.
  - destruct (inflight st !! k) as [c|] eqn:Hk; [|done].
    destruct (bc_err (completionOf env c)) as [e|]; [|done].
    pose proof (recordFailure_invariant _ _ _ _ e Hk Hinv) as Hinv1.
    case_match eqn:Hrem; [|apply IH; by apply sendNextIfAny_invariant].
    intros [= <- <- <-].
    destruct Hinv1 as [H1 H2 H3 H4].
    assert (errors (recordFailure k e st) = Z.of_nat (length ordered)) as Herr.
    { apply Z.ltb_lt in Hrem.
      assert (length (sentLog (recordFailure k e st)) <= length ordered)%nat
        by (rewrite <- H1, length_app; lia).
      simpl in *. lia. }
    split_and!; try done.
    + simpl. by destruct (failureLog st).
    + eexists; split; [done|].
      change (errors st + 1) with (errors (recordFailure k e st)).
      change (if isRetryableFailure e then retryableErrors st + 1
              else retryableErrors st)
        with (retryableErrors (recordFailure k e st)).
      rewrite Herr, Z.sub_diag, Z.add_0_l, H4, Z.leb_le.
      apply retryable_count_positive.
Qed.

(** Where [send] reaches its wait loop, and with which clients. *)
Lemma send_cases opts replicas args sched :
  (exists dialed reply err,
      send env opts replicas args sched
      = (dialed, Returned reply (Some err) initialState)
      /\ orderedFor env opts replicas args = [])
  \/ (exists dialed, send env opts replicas args sched = (dialed, IndexPanic))
  \/ (exists dialed first rest,
        orderedFor env opts replicas args = first :: rest
        /\ first :: rest ≡ₚ clientFor args <$> replicas
        /\ send env opts replicas args sched
           = (dialed,
              waitLoop env (Z.of_nat (length (first :: rest))) sched
                (sendNext first rest initialState))).
Proof.
  unfold send, orderedFor.
  destruct (Z.of_nat (length replicas) <? 1) eqn:Hlen.
  - left. apply Z.ltb_lt in Hlen.
    destruct replicas; [|simpl in Hlen; lia].
    eexists _, _, _; split; [done|]. simpl. by destruct (Ordering opts).
  - destruct (dialAll env args replicas) as [dialed [err|clients]] eqn:Hd.
    + left. by eexists _, _, _.
    + pose proof (dialAll_clients _ _ _ _ Hd) as ->.
      destruct (orderClients env (Ordering opts) _) as [err|ordered] eqn:Ho.
      * left. by eexists _, _, _.
      * apply orderClients_Permutation in Ho.
        destruct ordered as [|first rest]; [right; left; by eexists|].
        right; right. exists dialed, first, rest. split_and!; try done.
        by rewrite (Permutation_length Ho), length_fmap.
Qed.
End SendFacts.

(** C8.  A call of [send] with an empty replica slice returns at once the
    non-retryable "insufficient replicas" send error; no address has been
    dialed and no client has been sent to. *)
Theorem send_without_replicas (env : RPCEnv) (opts : SendOptions)
    (args : BatchRequest) (sched : list SelectEvent) :
  send env opts [] args sched
  = ([], Returned None (Some (SendError (InsufficientReplicas 0 1) false))
           initialState)
  /\ sentLog initialState = [] /\ inflight initialState = [].
Proof. done. Qed.

(** C10.  Whatever the schedule of timer firings and completions, the
    clients sent to so far followed by the clients still waiting are the
    ordered client list fixed before the first dispatch, itself a
    rearrangement of the replicas' clients: every dispatch takes the head of
    the waiting list and nothing returns to it, so at most as many RPCs are
    attempted as there are replicas; and a timer firing while no client
    waits leaves the state, error counters included, as it is. *)
Theorem send_dispatches_each_replica_once (env : RPCEnv) (opts : SendOptions)
    (replicas : ReplicaSlice) (args : BatchRequest) (sched : list SelectEvent)
    (dialed : list string) (res : SendResult) (st : SendState) :
  send env opts replicas args sched = (dialed, res) ->
  finalState res = Some st ->
  sentLog st ++ orderedClients st = orderedFor env opts replicas args
  /\ orderedFor env opts replicas args ⊆+ (clientFor args <$> replicas)
  /\ (length (sentLog st) <= length replicas)%nat
  /\ (orderedClients st = [] ->
      sendNextIfAny st = st
      /\ forall n more,
          waitLoop env n (TimerFires :: more) st = waitLoop env n more st).
Proof.
  intros Hsend Hfinal.
  assert (orderedClients st = [] ->
          sendNextIfAny st = st
          /\ forall n more,
              waitLoop env n (TimerFires :: more) st = waitLoop env n more st)
    as Htimer.
  { intros Hnone. unfold sendNextIfAny. simpl. unfold sendNextIfAny.
    by rewrite Hnone. }
  destruct (send_cases env opts replicas args sched)
    as [(d & r & e & H & Ho)|[(d & H)|(d & first & rest & Ho & Hperm & H)]];
    rewrite H in Hsend; injection Hsend as <- <-.
  - injection Hfinal as <-. rewrite Ho. simpl. split_and!; try done.
    + apply submseteq_nil_l.
    + lia.
  - done.
  - rewrite Ho.
    pose proof (waitLoop_invariant env _ _ _ _ _
                  (initial_dispatch_invariant first rest) Hfinal) as [H1 _ _ _].
    split_and!; try done.
    + by rewrite Hperm.
    + apply Permutation_length in Hperm. rewrite length_fmap in Hperm.
      rewrite <- Hperm, <- H1, length_app. lia.
Qed.

Lemma send_dispatches_each_replica_once_witness :
  exists dialed res st,
    send failingEnv randomOpts twoReplicas emptyBatch
      [TimerFires; TimerFires; Completion 1]
    = (dialed, res)
    /\ finalState res = Some st
    /\ (length (sentLog st) <= 2)%nat
    /\ sendNextIfAny st = st.
Proof.
  do 3 eexists. split; [vm_compute; reflexivity|]. split; [reflexivity|].
  destruct (send_dispatches_each_replica_once failingEnv randomOpts twoReplicas
              emptyBatch [TimerFires; TimerFires; Completion 1] _ _ _
              eq_refl eq_refl) as (_ & _ & Hlen & Htimer).
  split; [exact Hlen|]. apply Htimer. reflexivity.
Defined.

(** ** Replica ordering *)

Lemma findIndex_range {A} (p : A -> bool) (l : list A) :
  findIndex p l = -1
  \/ (0 <= findIndex p l
      /\ exists x, l !! Z.to_nat (findIndex p l) = Some x /\ p x = true).
Proof.
  induction l as [|x l IH]; simpl; [by left|].
  destruct (p x) eqn:Hx; [right; split; [lia|by exists x]|].
  destruct IH as [->|(Hpos & y & Hy & Hpy)]; [by left|].
  right. rewrite (proj2 (Z.ltb_ge _ _) Hpos). split; [lia|].
  exists y. split; [|done].
  by replace (Z.to_nat (findIndex p l + 1)) with (S (Z.to_nat (findIndex p l))) by lia.
Qed.

Lemma findIndex_found {A} (p : A -> bool) (l : list A) (x : A) :
  x ∈ l -> p x = true -> 0 <= findIndex p l.
Proof.
  induction 1 as [x l|x y l Hin IH]; intros Hp; simpl.
  - by rewrite Hp.
  - destruct (p y); [done|]. specialize (IH Hp).
    rewrite (proj2 (Z.ltb_ge _ _) IH). lia.
Qed.

Lemma findIndex_zero {A} (p : A -> bool) (l : list A) :
  findIndex p l = 0 -> exists x, head l = Some x /\ p x = true.
Proof.
  destruct l as [|x l]; simpl; [done|].
  destruct (p x) eqn:Hx; [by exists x|].
  case_match eqn:Hneg; [done|]. apply Z.ltb_ge in Hneg. lia.
Qed.

Lemma insertByAffinity_Permutation attrs r sorted :
  insertByAffinity attrs r sorted ≡ₚ r :: sorted.
Proof.
  induction sorted as [|y rest IH]; simpl; [done|].
  case_match; [|done]. rewrite IH. apply Permutation_swap.
Qed.

Lemma SortByCommonAttributePrefix_Permutation attrs rs :
  (SortByCommonAttributePrefix attrs rs).1 ≡ₚ rs.
Proof.
  simpl. induction rs as [|r rs IH]; simpl; [done|].
  by rewrite insertByAffinity_Permutation, IH.
Qed.

(** The half of the local-replica preference that the code delivers: a
    replica on the local node, if the slice has one, ends up at the front. *)
Lemma optimizeReplicaOrder_local_front (nodeDesc : NodeDescriptor)
    (replicas : ReplicaSlice) (r : ReplicaInfo) :
  r ∈ replicas ->
  NodeID (ri_Replica r) = nd_NodeID nodeDesc ->
  exists r',
    head (optimizeReplicaOrder (Some nodeDesc) replicas).1 = Some r'
    /\ NodeID (ri_Replica r') = nd_NodeID nodeDesc.
Proof.
  intros Hin Hlocal. unfold optimizeReplicaOrder.
  pose proof (SortByCommonAttributePrefix_Permutation (nd_Attrs nodeDesc) replicas) as Hperm.
  destruct (SortByCommonAttributePrefix (nd_Attrs nodeDesc) replicas) as [sorted n].
  simpl in Hperm. rewrite <- Hperm in Hin.
  assert (0 <= FindReplicaByNodeID (nd_NodeID nodeDesc) sorted) as Hpos.
  { eapply findIndex_found; [exact Hin|]. by apply Z.eqb_eq. }
  destruct (findIndex_range (fun r => NodeID (ri_Replica r) =? nd_NodeID nodeDesc) sorted)
    as [Hnone|(_ & x & Hx & Hpx)]; [unfold FindReplicaByNodeID in Hpos; lia|].
  fold (FindReplicaByNodeID (nd_NodeID nodeDesc) sorted) in Hx.
  apply Z.eqb_eq in Hpx.
  destruct (0 <? FindReplicaByNodeID (nd_NodeID nodeDesc) sorted) eqn:Hi;
    cbn [fst head].
  - unfold MoveToFront, ReplicaSlice in *. rewrite Hx. by exists x.
  - apply Z.ltb_ge in Hi.
    assert (FindReplicaByNodeID (nd_NodeID nodeDesc) sorted = 0) as H0 by lia.
    apply findIndex_zero in H0 as (y & Hy & Hpy). apply Z.eqb_eq in Hpy. by exists y.
Qed.

(** C9.  The code at the input on which it departs from the claim: the
    local node (node 1, no attributes) holds the first replica of the slice.
    [FindReplicaByNodeID] answers index 0, the test [i > 0] fails, and the
    policy returned is the randomized one, although the local replica is at
    the front.  With the local replica at any later index (node 2 here) the
    policy is the stable one. *)
Theorem optimizeReplicaOrder_local_first_is_random :
  FindReplicaByNodeID 1 twoReplicas = 0
  /\ optimizeReplicaOrder (Some (nodeAt 1 "n1:26257")) twoReplicas
     = (twoReplicas, orderRandom)
  /\ optimizeReplicaOrder (Some (nodeAt 2 "n2:26257")) twoReplicas
     = (reverse twoReplicas, orderStable).
Proof. done. Qed.

(** ** [Send] *)

Section SendBatchFacts.
Context (ops : BatchOps).

Lemma prepareBatch_keeps ba w ba' w' :
  prepareBatch ba w = (ba', w') ->
  Requests ba' = Requests ba /\ MaxScanResults ba' = MaxScanResults ba
  /\ log w' = log w /\ lookups w' = lookups w /\ rpcs w' = rpcs w.
Proof.
  unfold prepareBatch.
  set (ba1 := if isInconsistent (ReadConsistency ba) && (ba_Timestamp ba =? 0)
              then setTimestamp (clockNow w) ba else ba).
  assert (Requests ba1 = Requests ba /\ MaxScanResults ba1 = MaxScanResults ba)
    as [HR HM] by (subst ba1; by case_match).
  destruct (Txn ba1) as [txn|]; [|by intros [= <- <-]].
  case_match; [|by intros [= <- <-]].
  destruct (getNodeDescriptor _ _) as [[nDesc|] cached]; by intros [= <- <-].
Qed.

Lemma scanDirections_other reqs fwd rev req :
  req ∈ reqs -> isScan req = false -> isReverseScan req = false ->
  exists msg, scanDirections reqs fwd rev = inl (NewErrorf msg).
Proof.
  intros Hin Hs Hr. revert fwd rev.
  induction Hin as [req reqs|req other reqs Hin IH]; intros fwd rev.
  - destruct req; try done; by eexists.
  - destruct other; simpl; try by eexists.
    + apply IH; done.
    + apply IH; done.
Qed.

Lemma scanDirections_flags reqs fwd rev :
  (exists msg, scanDirections reqs fwd rev = inl (NewErrorf msg))
  \/ scanDirections reqs fwd rev
     = inr (fwd || existsb isScan reqs, rev || existsb isReverseScan reqs).
Proof.
  revert fwd rev; induction reqs as [|req reqs IH]; intros fwd rev; simpl.
  - right. by rewrite !orb_false_r.
  - destruct req; try (left; by eexists); simpl.
    + destruct (IH true rev) as [?| ->]; [by left|right].
      by rewrite orb_true_r.
    + destruct (IH fwd true) as [?| ->]; [by left|right].
      by rewrite orb_true_r.
Qed.

Lemma checkLimit_rejects ba :
  MaxScanResults ba <> 0 ->
  (exists req, req ∈ Requests ba /\ isScan req = false /\ isReverseScan req = false)
  \/ ((exists req, req ∈ Requests ba /\ isScan req = true)
      /\ (exists req, req ∈ Requests ba /\ isReverseScan req = true)) ->
  exists msg, checkLimit ba = Some (NewErrorf msg).
Proof.
  intros HK Hmixed. unfold checkLimit.
  rewrite (proj2 (Z.eqb_neq _ _) HK). simpl.
  destruct Hmixed as [(req & Hin & Hs & Hr)|[(f & Hf & Hfs) (r & Hr & Hrs)]].
  - destruct (scanDirections_other _ false false _ Hin Hs Hr) as [msg ->].
    by exists msg.
  - destruct (scanDirections_flags (Requests ba) false false) as [[msg ->]| ->];
      [by exists msg|].
    simpl.
    assert (existsb isScan (Requests ba) = true) as ->
      by (apply existsb_exists; exists f; by rewrite <- list_elem_of_In).
    assert (existsb isReverseScan (Requests ba) = true) as ->
      by (apply existsb_exists; exists r; by rewrite <- list_elem_of_In).
    by eexists.
Qed.
End SendBatchFacts.

(** C6.  [Send] on a batch with a non-zero [MaxScanResults] that holds a
    request other than a forward or reverse scan, or scans of both
    directions, returns a non-retryable error; the world keeps its log (no
    descriptor lookup, no eviction, no RPC) and both scripts untouched. *)
Theorem Send_limit_rejects_mixed (ops : BatchOps) (fuel : nat)
    (ba : BatchRequest) (w : World) :
  MaxScanResults ba <> 0 ->
  (exists req, req ∈ Requests ba /\ isScan req = false /\ isReverseScan req = false)
  \/ ((exists req, req ∈ Requests ba /\ isScan req = true)
      /\ (exists req, req ∈ Requests ba /\ isReverseScan req = true)) ->
  exists pErr w',
    Send ops fuel ba w = (Done (None, Some pErr), w')
    /\ err_Retryable pErr = false
    /\ log w' = log w /\ lookups w' = lookups w /\ rpcs w' = rpcs w.
Proof.
  intros HK Hmixed. unfold Send.
  destruct (prepareBatch ba w) as [ba' w'] eqn:Hprep.
  apply prepareBatch_keeps in Hprep as (HR & HM & Hlog & Hl & Hr).
  assert (Requests ba' <> []) as Hne.
  { rewrite HR. destruct Hmixed as [(req & Hin & _)|[(req & Hin & _) _]];
      intros Hnil; rewrite Hnil in Hin; by apply elem_of_nil in Hin. }
  destruct (Z.of_nat (length (Requests ba')) <? 1) eqn:Hlen.
  { apply Z.ltb_lt in Hlen. destruct (Requests ba'); [done|simpl in Hlen; lia]. }
  rewrite <- HR, <- HM in *.
  destruct (checkLimit_rejects ba' HK Hmixed) as [msg ->].
  by exists (NewErrorf msg), w'.
Qed.

Lemma Send_limit_rejects_mixed_witness :
  exists pErr w',
    Send exampleOps 5
      (batchOf 10 [ScanRequest "a" "c" 0; ReverseScanRequest "d" "f" 0])
      (exampleWorld [found rangeAM] [])
    = (Done (None, Some pErr), w')
    /\ err_Retryable pErr = false
    /\ log w' = [] /\ lookups w' = [found rangeAM] /\ rpcs w' = [].
Proof.
  apply (Send_limit_rejects_mixed exampleOps 5
           (batchOf 10 [ScanRequest "a" "c" 0; ReverseScanRequest "d" "f" 0])
           (exampleWorld [found rangeAM] [])).
  - simpl. lia.
  - right. split.
    + exists (ScanRequest "a" "c" 0). split; [apply list_elem_of_here|reflexivity].
    + exists (ReverseScanRequest "d" "f" 0).
      split; [apply list_elem_of_further, list_elem_of_here|reflexivity].
Defined.

Section RecombineFacts.
Context (ops : BatchOps).

Lemma appendChunk_Responses first rest :
  Responses (foldl appendChunk first rest)
  = Responses first ++ concat (Responses <$> rest).
Proof.
  revert first; induction rest as [|rpl rest IH]; intros first; simpl.
  - by rewrite app_nil_r.
  - rewrite IH. simpl. by rewrite <- app_assoc.
Qed.

Lemma last_default (first : BatchResponse) rest :
  last (first :: rest) = Some (List.last rest first).
Proof.
  revert first; induction rest as [|x rest IH]; intros first; [done|].
  change (last (first :: x :: rest)) with (last (x :: rest)).
  rewrite IH. f_equal. clear IH.
  revert x; induction rest as [|y rest IH]; intros x; [done|].
  change (List.last (x :: y :: rest) first) with (List.last (y :: rest) first).
  destruct rest as [|z rest]; [done|].
  change (List.last (y :: z :: rest) x) with (List.last (z :: rest) x).
  change (List.last (y :: z :: rest) first) with (List.last (z :: rest) first).
  rewrite (IH x). done.
Qed.

Lemma recombine_spec rplChunks reply :
  recombine rplChunks = inr reply ->
  Responses reply = concat (Responses <$> rplChunks)
  /\ exists final, last rplChunks = Some final /\ br_Header reply = br_Header final.
Proof.
  destruct rplChunks as [|first rest]; [done|]. intros [= <-]. simpl. split.
  - apply appendChunk_Responses.
  - exists (List.last rest first). split; [apply last_default|done].
Qed.

(** The chunks [sendParts] returns are what it was given followed by the
    replies of its own calls of [sendChunk], in order. *)
Lemma sendParts_run fuel n parts ba acc w chunks w' :
  sendParts ops fuel n parts ba acc w = (Done (inr chunks), w') ->
  exists more, chunks = acc ++ more /\ partsRun ops fuel parts ba w more w'.
Proof.
  revert parts ba acc w; induction n as [|n IH]; intros parts ba acc w; [done|].
  cbn [sendParts]. destruct parts as [|part rest].
  - intros [= <- <-]. exists []. split; [by rewrite app_nil_r|constructor].
  - destruct (sendChunk ops fuel (setRequests part ba) w)
      as [[[[rpl pErr] shouldSplitET]|msg|] w1] eqn:Hchunk; try done.
    destruct shouldSplitET.
    + destruct (Z.of_nat (length (part :: rest)) =? 1) eqn:Hone; [|done].
      apply Z.eqb_eq in Hone. destruct rest; [|simpl in Hone; lia].
      cbn [negb].
      destruct (Z.of_nat (length (Split ops (setRequests part ba) true)) =? 2)
        eqn:Htwo; [|done].
      apply Z.eqb_eq in Htwo. cbn [negb].
      destruct (Split ops (setRequests part ba) true)
        as [|first [|second [|third parts]]] eqn:Hsplit;
        try (simpl in Htwo; lia).
      intros H. apply IH in H as (more & -> & Hrun).
      exists more. split; [done|]. by eapply partsRun_split.
    + destruct pErr as [pErr|]; [done|]. destruct rpl as [rpl|]; [|done].
      intros H. apply IH in H as (more & -> & Hrun).
      exists (rpl :: more). split; [by rewrite <- app_assoc|].
      by eapply partsRun_part.
Qed.
End RecombineFacts.

(** C7.  The response [Send] returns holds the results of the replies that
    [sendChunk] gave for the parts, concatenated in the order the parts
    were sent, under the header of the last of these replies. *)
Theorem Send_concatenates_parts (ops : BatchOps) (fuel : nat)
    (ba : BatchRequest) (w : World) (reply : BatchResponse) (w' : World) :
  Send ops fuel ba w = (Done (Some reply, None), w') ->
  exists ba0 w0 chunks final,
    prepareBatch ba w = (ba0, w0)
    /\ partsRun ops fuel (Split ops ba0 false) ba0 w0 chunks w'
    /\ Responses reply = concat (Responses <$> chunks)
    /\ last chunks = Some final
    /\ br_Header reply = br_Header final.
Proof.
  unfold Send. destruct (prepareBatch ba w) as [ba0 w0].
  case_match; [done|]. destruct (checkLimit ba0); [done|].
  case_match; [done|].
  destruct (sendParts ops fuel fuel (Split ops ba0 false) ba0 [] w0)
    as [[[pErr|chunks]|msg|] w1] eqn:Hparts; try done.
  destruct (recombine chunks) as [msg|r] eqn:Hrec; [done|].
  intros [= <- <-].
  apply sendParts_run in Hparts as (more & -> & Hrun).
  apply recombine_spec in Hrec as (Hres & final & Hlast & Hhead).
  by exists ba0, w0, more, final.
Qed.

Lemma Send_concatenates_parts_witness :
  exists reply w' chunks final,
    Send exampleOps 5
      (withTxn (batchOf 0 [OtherRequest "Put" "a" "b"; EndTransactionRequest "x"]))
      (exampleWorld [found rangeAM; found rangeAM; found rangeMZ]
         [inr (replyOf [OtherResponse "Put" "ok"]);
          inr {| br_Header :=
                   {| h_Error := None; h_Timestamp := 5; h_Txn := None;
                      h_CollectedSpans := [] |};
                 Responses := [OtherResponse "EndTransaction" "committed"] |}])
    = (Done (Some reply, None), w')
    /\ Responses reply
       = [OtherResponse "Put" "ok"; OtherResponse "EndTransaction" "committed"]
    /\ h_Timestamp (br_Header reply) = 5
    /\ Responses reply = concat (Responses <$> chunks)
    /\ last chunks = Some final
    /\ br_Header reply = br_Header final.
Proof.
  destruct (Send_concatenates_parts exampleOps 5
              (withTxn (batchOf 0 [OtherRequest "Put" "a" "b"; EndTransactionRequest "x"]))
              (exampleWorld [found rangeAM; found rangeAM; found rangeMZ]
                 [inr (replyOf [OtherResponse "Put" "ok"]);
                  inr {| br_Header :=
                           {| h_Error := None; h_Timestamp := 5; h_Txn := None;
                              h_CollectedSpans := [] |};
                         Responses := [OtherResponse "EndTransaction" "committed"] |}])
              _ _ eq_refl)
    as (ba0 & w0 & chunks & final & Hprep & Hrun & Hres & Hlast & Hhead).
  eexists _, _, chunks, final. split; [vm_compute; reflexivity|].
  split; [reflexivity|]. split; [reflexivity|].
  split; [exact Hres|]. split; [exact Hlast|exact Hhead].
Defined.

(** ** The retry loop of [sendChunk] *)

Lemma findIndex_absent {A} (p : A -> bool) (l : list A) :
  findIndex p l = -1 <-> forall x, x ∈ l -> p x = false.
Proof.
  split.
  - intros Hnone x Hin. destruct (p x) eqn:Hp; [|done].
    pose proof (findIndex_found p l x Hin Hp). lia.
  - intros Hall. destruct (findIndex_range p l) as [?|(_ & x & Hx & Hp)]; [done|].
    apply list_elem_of_lookup_2 in Hx. rewrite (Hall x Hx) in Hp. done.
Qed.

Lemma retryNext_after_reset (r : Retry) (w : World) :
  retryNext (retryReset r) w
  = (true, {| currentAttempt := 0; isReset := false |}, w).
Proof. done. Qed.

Lemma updateLeaderCache_log rid leader w :
  log (updateLeaderCache rid leader w) = log w.
Proof. unfold updateLeaderCache. by case_match. Qed.

Section RetryFacts.
Context (ops : BatchOps).

Lemma sendRPC_log rangeID replicas order ba w res w' :
  sendRPC rangeID replicas order ba w = Some (res, w') ->
  exists suffix, log w' = log w ++ suffix.
Proof.
  unfold sendRPC. case_match.
  - intros [= <- <-]. exists []. by rewrite app_nil_r.
  - destruct (rpcs w) as [|answer rest]; [done|].
    destruct answer; intros [= <- <-]; by eexists [_].
Qed.

Lemma sendSingleRange_log ba desc w res w' :
  sendSingleRange ops ba desc w = Some (res, w') ->
  exists suffix, log w' = log w ++ suffix.
Proof.
  unfold sendSingleRange.
  destruct (getNodeDescriptor (nodeDescriptor w) (gossip w)) as [nodeDesc cached].
  destruct (optimizeReplicaOrder nodeDesc _) as [replicas order].
  match goal with
  | |- context [let '(_, _) := ?choice in _] =>
      destruct choice as [replicas' order']
  end.
  destruct (sendRPC _ _ _ _ _) as [[[pErr|br] w1]|] eqn:Hrpc; [| |done].
  - intros [= <- <-]. by apply sendRPC_log in Hrpc.
  - apply sendRPC_log in Hrpc. by destruct (h_Error (br_Header br)); intros [= <- <-].
Qed.

Lemma sendTruncated_log ba rs desc w res w' :
  sendTruncated ops ba rs desc w = Some (res, w') ->
  exists suffix, log w' = log w ++ suffix.
Proof.
  unfold sendTruncated.
  assert (exists suffix, log w = log w ++ suffix) as Hsame
    by (exists []; by rewrite app_nil_r).
  destruct (Intersect ops rs desc) as [iErr|intersected]; [by intros [= <- <-]|].
  destruct (truncate ops ba intersected) as [[truncBA numActive] [trErr|]];
    [by intros [= <- <-]|].
  case_match; [by intros [= <- <-]|]. apply sendSingleRange_log.
Qed.

Lemma handleError_log considerIntents r pErr descKey desc isReverse w :
  exists suffix,
    log (attemptWorld (handleError considerIntents r pErr descKey desc isReverse w))
    = log w ++ suffix.
Proof.
  assert (exists suffix, log w = log w ++ suffix) as Hsame
    by (exists []; by rewrite app_nil_r).
  unfold handleError.
  destruct (err_Detail pErr)
    as [|msg c|msg|msg retryable| | |[newLeader|]| |]; try done.
  - by destruct c.
  - destruct retryable; by eexists [_].
  - by eexists [_].
  - by eexists [_].
  - destruct (descFindReplica (StoreID newLeader) desc =? -1); simpl;
      rewrite updateLeaderCache_log; [by eexists [_]|done].
  - simpl. rewrite updateLeaderCache_log. by eexists [_].
Qed.

(** A pass through the retry loop body starts with the descriptor lookup,
    made with the [considerIntents] flag of the loop. *)
Lemma attempt_first_lookup isReverse ba rs br considerIntents r w a rest :
  lookups w = a :: rest ->
  exists suffix,
    log (attemptWorld (attempt ops isReverse ba rs br considerIntents r w))
    = log w ++ EvLookup (lookupKey isReverse rs) considerIntents isReverse
                 (considerIntents && coin a) :: suffix.
Proof.
  intros Hl. unfold attempt, getDescriptors, LookupRangeDescriptor. rewrite Hl.
  fold (lookupKey isReverse rs).
  set (w1 := logEvent _ (setLookups rest w)).
  assert (log w1 = log w ++ [EvLookup (lookupKey isReverse rs) considerIntents
                               isReverse (considerIntents && coin a)]) as Hw1 by done.
  assert (forall w2, (exists sfx, log w2 = log w1 ++ sfx) ->
            exists suffix,
              log w2 = log w ++ EvLookup (lookupKey isReverse rs) considerIntents
                                  isReverse (considerIntents && coin a) :: suffix)
    as Hgrow.
  { intros w2 [sfx Hsfx]. exists sfx. by rewrite Hsfx, Hw1, <- app_assoc. }
  assert (exists sfx, log w1 = log w1 ++ sfx) as Hsame
    by (exists []; by rewrite app_nil_r).
  destruct (if considerIntents && coin a then uncommitted a else committed a)
    as [pErr|desc].
  - destruct (err_Retryable pErr); by apply Hgrow.
  - match goal with
    | |- context [if ?c then Return (NewError OpRequiresTxnError) _ _ else _] =>
        destruct c; [by apply Hgrow|]
    end.
    match goal with
    | |- context [if ?c then Return _ true _ else _] =>
        destruct c; [by apply Hgrow|]
    end.
    match goal with
    | |- context [if ?c then Continue _ _ None _ else _] =>
        destruct c; [apply Hgrow; by eexists [_]|]
    end.
    destruct (sendTruncated ops ba rs desc w1) as [[[pErr|curReply] w2]|] eqn:Hsend;
      [| |by apply Hgrow].
    + apply sendTruncated_log in Hsend as [sfx Hsfx].
      destruct (handleError_log considerIntents r pErr
                  (lookupKey isReverse rs) desc isReverse w2) as [sfx' Hsfx'].
      apply Hgrow. exists (sfx ++ sfx'). by rewrite Hsfx', Hsfx, <- app_assoc.
    + apply Hgrow. by apply sendTruncated_log in Hsend.
Qed.
End RetryFacts.

(** A run of [sendChunk] through the same path: the first RPC, sent on a
    stale descriptor, is answered with a range-key-mismatch; the descriptor
    is evicted and the second lookup follows without a backoff wait, with
    intents allowed; its draw makes it read the uncommitted descriptor. *)
Example sendChunk_mismatch_then_intent_run :
  eventKind <$>
    log (sendChunk exampleOps 5 (batchOf 0 [ScanRequest "n" "p" 0])
           (exampleWorld
              [found rangeAZ;
               {| committed := inr rangeAZ; uncommitted := inr rangeMZ;
                  coin := true |}]
              [inr (failedWith RangeKeyMismatchError);
               inr (replyOf [ScanResponse (rows 1)])])).2
  = [Lookup false false; RPC; Evict; Lookup true true; RPC].
Proof. vm_compute. reflexivity. Qed.

Lemma leaderCacheLookup_updated rid leader w :
  StoreID (leaderCacheLookup rid (updateLeaderCache rid leader w)) = StoreID leader
  /\ (StoreID leader <> StoreID (leaderCacheLookup rid w) ->
      leaderCacheLookup rid (updateLeaderCache rid leader w) = leader).
Proof.
  unfold updateLeaderCache.
  destruct (StoreID leader =? StoreID (leaderCacheLookup rid w)) eqn:Hsame; simpl.
  - apply Z.eqb_eq in Hsame. by split.
  - unfold leaderCacheLookup, leaderCacheUpdate. simpl.
    by rewrite lookup_insert_eq.
Qed.

(** C3, the claim as stated fails: a not-the-leader error that reports a
    leader on store 9, which the descriptor of range 1 does not list, evicts
    the descriptor and leaves the reported replica, not the zero value, as
    the cached leader of the range. *)
Lemma not_leader_absent_leader_is_cached :
  exists considerIntents r pErr w',
    attempt exampleOps false (batchOf 0 [ScanRequest "a" "c" 0])
      {| rs_Key := "a"; rs_EndKey := "c" |} None false retryStart
      (exampleWorld [found rangeAM]
         [inr (failedWith (NotLeaderError (Some (replicaOn 9))))])
    = Continue considerIntents r pErr w'
    /\ (forall replica, replica ∈ Replicas rangeAM -> StoreID replica <> 9)
    /\ eventKind <$> log w' = [Lookup false false; RPC; Evict]
    /\ leaderCacheLookup (RangeID rangeAM) w' = replicaOn 9
    /\ leaderCacheLookup (RangeID rangeAM) w' <> zeroReplicaDescriptor.
Proof.
  eexists _, _, _, _. split; [vm_compute; reflexivity|].
  split; [|split; [reflexivity|split; [reflexivity|discriminate]]].
  intros replica Hin. unfold rangeAM in Hin. simpl in Hin.
  repeat (apply elem_of_cons in Hin as [->|Hin]; [simpl; lia|]).
  by apply elem_of_nil in Hin.
Qed.

(** ** [sendChunk]: batches that need a transaction *)

Section ChunkFacts.
Context (ops : BatchOps).

Lemma retryNext_allowed (k : nat) (r : Retry) (w : World) :
  closerAllows (k + (if isReset r then 0 else 1)) (closer w) ->
  exists r' w1 suffix,
    retryNext r w = (true, r', w1)
    /\ isReset r' = false
    /\ lookups w1 = lookups w /\ rpcs w1 = rpcs w
    /\ closerAllows k (closer w1)
    /\ log w1 = log w ++ suffix
    /\ Forall (fun e => isRPC e = false) suffix.
Proof.
  unfold retryNext. destruct (isReset r).
  - rewrite Nat.add_0_r. intros Hc. eexists _, w, []. rewrite app_nil_r.
    split_and!; done.
  - destruct (closer w) as [[|n]|] eqn:Hcl; simpl; intros Hc.
    + lia.
    + eexists _, _, [_]. split_and!; try done.
      * simpl. lia.
      * by repeat constructor.
    + eexists _, _, [_]. split_and!; try done.
      * simpl. by rewrite Hcl.
      * by repeat constructor.
Qed.

Lemma attempt_miss isReverse ba rs br r w m tail e :
  lookups w = m :: tail ->
  committed m = inl e ->
  err_Retryable e = true ->
  attempt ops isReverse ba rs br false r w
  = Continue false r (Some e)
      (logEvent (EvLookup (lookupKey isReverse rs) false isReverse false)
         (setLookups tail w)).
Proof.
  intros Hl Hm Hretry.
  unfold attempt, getDescriptors, LookupRangeDescriptor.
  rewrite Hl. cbn [andb]. rewrite Hm, Hretry. done.
Qed.

Lemma attempt_requires_txn isReverse ba rs r w a tail desc :
  lookups w = a :: tail ->
  committed a = inr desc ->
  extendsBeyond isReverse rs desc = true ->
  Txn ba = None ->
  isInconsistent (ReadConsistency ba) = false ->
  IsPossibleTransaction ops ba = true ->
  attempt ops isReverse ba rs None false r w
  = Return (NewError OpRequiresTxnError) false
      (logEvent (EvLookup (lookupKey isReverse rs) false isReverse false)
         (setLookups tail w)).
Proof.
  intros Hl Hfound Hbeyond HTxn Hcons Hposs.
  unfold attempt, getDescriptors, LookupRangeDescriptor.
  rewrite Hl. cbn [andb]. rewrite Hfound.
  fold (extendsBeyond isReverse rs desc). rewrite Hbeyond, HTxn, Hposs, Hcons.
  done.
Qed.

Lemma requires_txn_loop (isReverse : bool) (ba : BatchRequest) (rs : RSpan)
    (a : LookupAnswer) (rest : list LookupAnswer) (desc : RangeDescriptor)
    (misses : list LookupAnswer) :
  Txn ba = None ->
  isInconsistent (ReadConsistency ba) = false ->
  IsPossibleTransaction ops ba = true ->
  committed a = inr desc ->
  extendsBeyond isReverse rs desc = true ->
  Forall retryableMiss misses ->
  forall fuel r pErr w,
    lookups w = misses ++ a :: rest ->
    closerAllows (length misses + (if isReset r then 0 else 1)) (closer w) ->
    (length misses < fuel)%nat ->
    exists w' suffix,
      sendChunkLoop ops isReverse fuel ba rs None false r pErr w
      = (Done (None, Some (NewError OpRequiresTxnError), false), w')
      /\ rpcs w' = rpcs w
      /\ log w' = log w ++ suffix
      /\ Forall (fun e => isRPC e = false) suffix.
Proof.
  intros HTxn Hcons Hposs Hfound Hbeyond Hmisses.
  induction Hmisses as [|m misses (e & Hm & Hretry) _ IH];
    intros fuel r pErr w Hl Hc Hfuel;
    (destruct fuel as [|fuel]; [simpl in Hfuel; lia|]);
    destruct (retryNext_allowed _ r w Hc)
      as (r' & w1 & sfx & Hnext & Hr' & Hl1 & Hrpc1 & Hc1 & Hlog1 & Hsfx);
    cbn [sendChunkLoop]; rewrite Hnext; rewrite <- Hl1 in Hl.
  - rewrite (attempt_requires_txn _ _ _ _ _ _ _ _ Hl Hfound Hbeyond HTxn Hcons Hposs).
    eexists _, (sfx ++ [_]). split; [reflexivity|].
    split; [done|]. split; [cbn; by rewrite Hlog1, <- app_assoc|].
    apply Forall_app. split; [done|]. by repeat constructor.
  - rewrite (attempt_miss _ _ _ _ _ _ _ _ _ Hl Hm Hretry).
    destruct (IH fuel r' (Some e)
                (logEvent (EvLookup (lookupKey isReverse rs) false isReverse false)
                   (setLookups (misses ++ a :: rest) w1)))
      as (w' & sfx' & Hrun & Hrpc & Hlog & Hall);
      [| |simpl in Hfuel; lia|].
    + reflexivity.
    + cbn. rewrite Hr'. simpl in Hc1. by rewrite Nat.add_1_r.
    + exists w', (sfx ++ [EvLookup (lookupKey isReverse rs) false isReverse false]
                      ++ sfx').
      split; [exact Hrun|]. split; [by rewrite Hrpc|].
      split; [rewrite Hlog; cbn; rewrite Hlog1; by rewrite <- !app_assoc|].
      apply Forall_app. split; [done|]. apply Forall_app. split; [|done].
      by repeat constructor.
Qed.
End ChunkFacts.

(** C4, as the code has it.  A batch without a transaction, with read
    consistency required, that can be part of a transaction
    ([IsPossibleTransaction]) and whose span extends beyond the first range
    the descriptor lookup resolves (possibly after lookups that failed
    retryably) makes [sendChunk] return the non-retryable "requires
    transaction" error; up to then nothing but lookups and backoff waits
    has happened, and the RPC script is untouched. *)
Theorem sendChunk_requires_txn (ops : BatchOps) (fuel : nat) (ba : BatchRequest)
    (w : World) (misses : list LookupAnswer) (a : LookupAnswer)
    (rest : list LookupAnswer) (desc : RangeDescriptor) :
  Txn ba = None ->
  ReadConsistency ba <> INCONSISTENT ->
  IsPossibleTransaction ops ba = true ->
  lookups w = misses ++ a :: rest ->
  Forall retryableMiss misses ->
  committed a = inr desc ->
  extendsBeyond (IsReverse ops ba) (keys_Range ops ba) desc = true ->
  closerAllows (length misses) (closer w) ->
  (length misses < fuel)%nat ->
  exists w' suffix,
    sendChunk ops fuel ba w
    = (Done (None, Some (NewError OpRequiresTxnError), false), w')
    /\ err_Retryable (NewError OpRequiresTxnError) = false
    /\ rpcs w' = rpcs w
    /\ log w' = log w ++ suffix
    /\ Forall (fun e => isRPC e = false) suffix.
Proof.
  intros HTxn Hcons Hposs Hl Hmisses Hfound Hbeyond Hc Hfuel.
  assert (isInconsistent (ReadConsistency ba) = false) as Hcons'
    by by destruct (ReadConsistency ba).
  destruct (requires_txn_loop ops _ ba _ a rest desc misses HTxn Hcons' Hposs
              Hfound Hbeyond Hmisses fuel retryStart None w Hl)
    as (w' & suffix & Hrun & Hrpc & Hlog & Hall); [by rewrite Nat.add_0_r|done|].
  by exists w', suffix.
Qed.

Lemma sendChunk_requires_txn_witness :
  exists w' suffix,
    sendChunk exampleOps 5 (batchOf 0 [ScanRequest "a" "z" 0])
      (exampleWorld [firstRangeMissing; found rangeAM; found rangeMZ]
         [inr (replyOf [ScanResponse (rows 1)])])
    = (Done (None, Some (NewError OpRequiresTxnError), false), w')
    /\ err_Retryable (NewError OpRequiresTxnError) = false
    /\ rpcs w' = [inr (replyOf [ScanResponse (rows 1)])]
    /\ log w' = [] ++ suffix
    /\ Forall (fun e => isRPC e = false) suffix.
Proof.
  apply (sendChunk_requires_txn exampleOps 5 (batchOf 0 [ScanRequest "a" "z" 0])
           (exampleWorld [firstRangeMissing; found rangeAM; found rangeMZ]
              [inr (replyOf [ScanResponse (rows 1)])])
           [firstRangeMissing] (found rangeAM) [found rangeMZ] rangeAM).
  - reflexivity.
  - discriminate.
  - reflexivity.
  - reflexivity.
  - constructor; [|constructor]. eexists. split; reflexivity.
  - reflexivity.
  - reflexivity.
  - exact I.
  - simpl. lia.
Defined.

(** C4, the claim as stated fails: a batch without a transaction, read
    consistently, whose span a-z extends beyond the first resolved range
    a-m, but which holds only a request that cannot be part of a transaction
    ([IsPossibleTransaction] answers [false]), is not refused: [sendChunk]
    sends it to both ranges and returns their combined reply. *)
Lemma sendChunk_non_transactional_spans_ranges :
  Txn resolveBatch = None
  /\ ReadConsistency resolveBatch <> INCONSISTENT
  /\ extendsBeyond (IsReverse exampleOps resolveBatch)
       (keys_Range exampleOps resolveBatch) rangeAM = true
  /\ IsPossibleTransaction exampleOps resolveBatch = false
  /\ (sendChunk exampleOps 5 resolveBatch resolveWorld).1
     = Done (Some (replyOf [OtherResponse "ResolveIntentRange" "ok"]), None, false)
  /\ eventKind <$> log (sendChunk exampleOps 5 resolveBatch resolveWorld).2
     = [Lookup false false; RPC; Lookup false false; RPC].
Proof.
  split; [reflexivity|]. split; [discriminate|].
  split; [reflexivity|]. split; [reflexivity|].
  split; vm_compute; reflexivity.
Qed.

(** ** [sendChunk]: the global result bound *)

Lemma cnt_nonneg (r : Response) : 0 <= cnt r.
Proof. destruct r; simpl; unfold cnt; simpl; lia. Qed.

Lemma countResults_cons (r : Response) (l : list Response) :
  countResults (r :: l) = cnt r + countResults l.
Proof. unfold cnt. simpl. by destruct (Count r). Qed.

Lemma countResults_nonneg (l : list Response) : 0 <= countResults l.
Proof.
  induction l as [|r l IH]; [done|]. rewrite countResults_cons.
  pose proof (cnt_nonneg r). lia.
Qed.

Lemma countResults_insert (l : list Response) (i : nat) (a b : Response) :
  l !! i = Some a ->
  countResults (<[i:=b]> l) = countResults l - cnt a + cnt b.
Proof.
  revert i; induction l as [|x l IH]; intros [|i] Hi; try done.
  - injection Hi as ->. change (<[0%nat:=b]> (a :: l)) with (b :: l).
    rewrite !countResults_cons. lia.
  - change (<[S i:=b]> (x :: l)) with (x :: <[i:=b]> l).
    rewrite !countResults_cons, (IH i Hi). lia.
Qed.

Lemma combineResponse_count (l r z : Response) :
  combineResponse l r = inr z -> cnt z <= cnt l + cnt r.
Proof.
  pose proof (cnt_nonneg l). pose proof (cnt_nonneg r).
  destruct l, r; simpl; intros [= <-]; unfold cnt in *; simpl in *;
    rewrite ?length_app; lia.
Qed.

Lemma combineResponses_count (l r z : list Response) :
  combineResponses l r = inr z ->
  countResults z <= countResults l + countResults r.
Proof.
  revert r z; induction l as [|x l IH]; intros [|y r] z;
    cbn [combineResponses]; try done.
  - by intros [= <-].
  - destruct (combineResponse x y) as [e|c] eqn:Hc; [done|].
    destruct (combineResponses l r) as [e|rest] eqn:Hrest; [done|].
    intros [= <-]. rewrite !countResults_cons.
    apply combineResponse_count in Hc. specialize (IH _ _ Hrest). lia.
Qed.

Lemma accumulate_count br curReply acc :
  accumulate br curReply = inr acc ->
  countResults (Responses acc) <= brCount br + countResults (Responses curReply).
Proof.
  destruct br as [br|]; simpl.
  - unfold Combine.
    destruct (combineResponses (Responses br) (Responses curReply)) as [e|rs] eqn:Hc;
      [done|].
    intros [= <-]. simpl. by apply combineResponses_count.
  - intros [= <-]. lia.
Qed.

(** What the replacement loop does to each slot: a slot holding a no-op
    gets the empty response of its request's type, any other slot is kept;
    counts and length do not change. *)
Lemma fillNoops_spec (reqs : list Request) :
  forall (i : nat) (resps resps' : list Response),
    fillNoops i reqs resps = inr resps' ->
    countResults resps' = countResults resps
    /\ length resps' = length resps
    /\ (forall j, (j < i)%nat -> resps' !! j = resps !! j)
    /\ (forall k req, reqs !! k = Some req ->
         (resps !! (i + k)%nat = Some NoopResponse
          /\ ((isScan req = true
               /\ resps' !! (i + k)%nat = Some (ScanResponse []))
              \/ (isReverseScan req = true
                  /\ resps' !! (i + k)%nat = Some (ReverseScanResponse []))))
         \/ (exists resp, resp <> NoopResponse
                          /\ resps !! (i + k)%nat = Some resp
                          /\ resps' !! (i + k)%nat = Some resp)).
Proof.
  induction reqs as [|req reqs IH]; intros i resps resps'; simpl.
  - intros [= <-]. split_and!; done.
  - destruct (resps !! i) as [x|] eqn:Hx; [|done].
    assert (forall resps1 : list Response,
               (x <> NoopResponse /\ resps1 = resps)
               \/ (x = NoopResponse /\ exists b, cnt b = 0
                   /\ ((isScan req = true /\ b = ScanResponse [])
                       \/ (isReverseScan req = true /\ b = ReverseScanResponse []))
                   /\ resps1 = <[i:=b]> resps) ->
               fillNoops (S i) reqs resps1 = inr resps' ->
               countResults resps' = countResults resps
               /\ length resps' = length resps
               /\ (forall j, (j < i)%nat -> resps' !! j = resps !! j)
               /\ (forall k req0, (req :: reqs) !! k = Some req0 ->
                    (resps !! (i + k)%nat = Some NoopResponse
                     /\ ((isScan req0 = true
                          /\ resps' !! (i + k)%nat = Some (ScanResponse []))
                         \/ (isReverseScan req0 = true
                             /\ resps' !! (i + k)%nat = Some (ReverseScanResponse []))))
                    \/ (exists resp, resp <> NoopResponse
                                     /\ resps !! (i + k)%nat = Some resp
                                     /\ resps' !! (i + k)%nat = Some resp))) as Hstep.
    { intros resps1 Hresps1 Hfill.
      destruct (IH _ _ _ Hfill) as (Hcount & Hlen & Hbelow & Hslots).
      assert (countResults resps1 = countResults resps /\ length resps1 = length resps
              /\ (forall j, j <> i -> resps1 !! j = resps !! j)) as (Hc1 & Hl1 & Hne1).
      { destruct Hresps1 as [[_ ->]|(-> & b & Hb & _ & ->)]; [done|].
        split_and!.
        - rewrite (countResults_insert _ _ _ _ Hx), Hb. unfold cnt. simpl. lia.
        - apply length_insert.
        - intros j Hj. by apply list_lookup_insert_ne. }
      split_and!.
      - lia.
      - lia.
      - intros j Hj. rewrite Hbelow by lia. apply Hne1. lia.
      - intros [|k] req0 Hk.
        + injection Hk as <-. rewrite Nat.add_0_r, Hx, Hbelow by lia.
          destruct Hresps1 as [[Hnot ->]|(-> & b & Hb & Hkind & ->)].
          * right. by exists x.
          * left. split; [done|].
            rewrite list_lookup_insert_eq by (by apply lookup_lt_Some in Hx).
            destruct Hkind as [[? ->]|[? ->]]; [by left|by right].
        + replace (i + S k)%nat with (S i + k)%nat by lia.
          rewrite <- (Hne1 (S i + k)%nat) by lia. by apply Hslots. }
    destruct x; try (apply Hstep; by left).
    destruct req; try done.
    + apply Hstep. right. split; [done|]. exists (ScanResponse []).
      split; [done|]. split; [by left|done].
    + apply Hstep. right. split; [done|]. exists (ReverseScanResponse []).
      split; [done|]. split; [by right|done].
Qed.

Lemma maskSaturated_length (curResponses : list Response) :
  forall (k i : nat) (reqs : list Request) (needAnother : bool) reqs' needAnother',
    maskSaturated k i reqs curResponses needAnother = inr (reqs', needAnother') ->
    length reqs' = length reqs.
Proof.
  induction k as [|k IH]; intros i reqs na reqs' na'; cbn [maskSaturated].
  - by intros [= <- <-].
  - destruct (reqs !! i) as [req|]; [|done].
    assert (forall prevBound setBound,
               match curResponses !! i with
               | Some resp =>
                   match Count resp with
                   | Some count =>
                       if prevBound <=? 0
                       then maskSaturated k (S i) reqs curResponses true
                       else
                         if prevBound - count <=? 0
                         then maskSaturated k (S i) (<[i:=NoopRequest]> reqs)
                                curResponses na
                         else maskSaturated k (S i)
                                (<[i:=setBound (prevBound - count)]> reqs)
                                curResponses true
                   | None => maskSaturated k (S i) reqs curResponses true
                   end
               | None => inl "index out of range"%string
               end = inr (reqs', na') ->
               length reqs' = length reqs) as Hbounded.
    { intros prevBound setBound.
      destruct (curResponses !! i) as [resp|]; [|done].
      destruct (Count resp) as [count|]; [|apply IH].
      destruct (prevBound <=? 0); [apply IH|].
      destruct (prevBound - count <=? 0); intros H; apply IH in H;
        by rewrite length_insert in H. }
    destruct req; try apply IH; apply Hbounded.
Qed.

Lemma MaxScanResults_setTxn t ba : MaxScanResults (setTxn t ba) = MaxScanResults ba.
Proof. done. Qed.

Lemma Requests_setTxn t ba : Requests (setTxn t ba) = Requests ba.
Proof. done. Qed.

Lemma MaxScanResults_setMaxScanResults n ba :
  MaxScanResults (setMaxScanResults n ba) = n.
Proof. done. Qed.

Lemma Requests_setMaxScanResults n ba :
  Requests (setMaxScanResults n ba) = Requests ba.
Proof. done. Qed.

Lemma MaxScanResults_setRequests l ba :
  MaxScanResults (setRequests l ba) = MaxScanResults ba.
Proof. done. Qed.

Lemma Requests_setRequests l ba : Requests (setRequests l ba) = l.
Proof. done. Qed.

Create Rewrite HintDb batch.
#[local] Hint Rewrite MaxScanResults_setTxn Requests_setTxn
  MaxScanResults_setMaxScanResults Requests_setMaxScanResults
  MaxScanResults_setRequests Requests_setRequests : batch.

Section BoundFacts.
Context (ops : BatchOps).

(** One range further under a positive remaining bound: a response
    returned holds no more than the bound allows, and holds as much only
    with every slot filled; a continuation keeps a positive remaining
    bound that still covers what has been accumulated. *)
Lemma afterRange_bounded (K : Z) isReverse ba rs br curReply desc needAnother :
  0 < MaxScanResults ba ->
  brCount br + MaxScanResults ba <= K ->
  match afterRange ops isReverse ba rs br curReply desc needAnother with
  | RangeReturn br' =>
      countResults (Responses br') <= K
      /\ (countResults (Responses br') = K ->
          forall i, (i < length (Requests ba))%nat ->
                    exists resp, Responses br' !! i = Some resp
                                 /\ resp <> NoopResponse)
  | RangeNext ba' rs' br' =>
      0 < MaxScanResults ba'
      /\ countResults (Responses br') + MaxScanResults ba' <= K
      /\ length (Requests ba') = length (Requests ba)
  | _ => True
  end.
Proof.
  intros Hpos Hinv. unfold afterRange.
  destruct (accumulate br curReply) as [err|acc] eqn:Hacc; [done|].
  apply accumulate_count in Hacc.
  autorewrite with batch.
  rewrite (proj2 (Z.ltb_lt _ _) Hpos).
  destruct (MaxScanResults ba <? countResults (Responses curReply)) eqn:Hover;
    [exact I|].
  apply Z.ltb_ge in Hover.
  destruct (MaxScanResults ba - countResults (Responses curReply) =? 0) eqn:Hzero.
  - apply Z.eqb_eq in Hzero.
    destruct (fillNoops 0 (Requests ba) (Responses acc)) as [msg|resps] eqn:Hfill;
      [exact I|].
    destruct (fillNoops_spec _ _ _ _ Hfill) as (Hcount & _ & _ & Hslots).
    cbn [Responses setResponses]. split; [lia|].
    intros _ i Hi. apply lookup_lt_is_Some in Hi as [req Hreq].
    destruct (Hslots i req Hreq)
      as [(_ & [[_ Hr]|[_ Hr]])|(resp & Hnot & _ & Hr)];
      simpl in Hr; eauto.
  - apply Z.eqb_neq in Hzero. cbv beta iota. autorewrite with batch.
    destruct (if needAnother
              then maskSaturated (length (Requests ba)) 0 (Requests ba)
                     (Responses curReply) false
              else inr (Requests ba, false)) as [msg|[reqs na]] eqn:Hmask;
      [exact I|].
    assert (length reqs = length (Requests ba)) as Hlen.
    { destruct needAnother; [by apply maskSaturated_length in Hmask|].
      by injection Hmask as <- <-. }
    destruct na; cbn [negb].
    + destruct isReverse; autorewrite with batch; split_and!; try done; lia.
    + split; [lia|]. intros Heq. lia.
Qed.

Lemma sendChunkLoop_bounded (K : Z) (N : nat) isReverse :
  forall fuel ba rs br considerIntents r pErr w br' w',
    0 < MaxScanResults ba ->
    brCount br + MaxScanResults ba <= K ->
    length (Requests ba) = N ->
    sendChunkLoop ops isReverse fuel ba rs br considerIntents r pErr w
    = (Done (Some br', None, false), w') ->
    countResults (Responses br') <= K
    /\ (countResults (Responses br') = K ->
        forall i, (i < N)%nat ->
                  exists resp, Responses br' !! i = Some resp
                               /\ resp <> NoopResponse).
Proof.
  induction fuel as [|fuel IH];
    intros ba rs br ci r pErr w br' w' Hpos Hinv HN; cbn [sendChunkLoop]; [done|].
  destruct (retryNext r w) as [[[|] r1] w1].
  - destruct (attempt ops isReverse ba rs br ci r1 w1)
      as [ci2 r2 pErr2 w2|pErr2 w2|curReply desc na w2|pErr2 split w2|w2];
      try done.
    + by apply IH.
    + pose proof (afterRange_bounded K isReverse ba rs br curReply desc na Hpos Hinv)
        as Hstep.
      destruct (afterRange ops isReverse ba rs br curReply desc na)
        as [ret|e|msg|ba2 rs2 br2]; try done.
      * intros [= <- <-]. by rewrite <- HN.
      * destruct Hstep as (Hpos2 & Hinv2 & Hlen2).
        apply IH; [done|done|by rewrite Hlen2].
  - unfold afterClosedLoop. destruct pErr; [done|].
    by destruct (closer w1) as [[|?]|].
Qed.
End BoundFacts.

Section LimitFacts.
Context (ops : BatchOps).

Lemma afterRange_fills_slots isReverse ba rs br curReply desc needAnother acc :
  0 < MaxScanResults ba ->
  countResults (Responses curReply) = MaxScanResults ba ->
  accumulate br curReply = inr acc ->
  (exists msg,
      afterRange ops isReverse ba rs br curReply desc needAnother = RangePanic msg)
  \/ (exists br',
        afterRange ops isReverse ba rs br curReply desc needAnother = RangeReturn br'
        /\ br_Header br' = br_Header acc
        /\ length (Responses br') = length (Responses acc)
        /\ forall i req, Requests ba !! i = Some req ->
                         slotFilled req (Responses acc) (Responses br') i).
Proof.
  intros Hpos Hfull Hacc. unfold afterRange. rewrite Hacc.
  autorewrite with batch.
  rewrite (proj2 (Z.ltb_lt _ _) Hpos), Hfull, Z.ltb_irrefl, Z.sub_diag.
  cbn [Z.eqb].
  destruct (fillNoops 0 (Requests ba) (Responses acc)) as [msg|resps] eqn:Hfill;
    [left; by exists msg|].
  right. destruct (fillNoops_spec _ _ _ _ Hfill) as (_ & Hlen & _ & Hslots).
  eexists. split; [reflexivity|]. split; [done|]. split; [done|].
  intros i req Hreq. apply (Hslots i req Hreq).
Qed.
End LimitFacts.

(** * Further properties of the multi-replica sender *)

Section SendMoreFacts.
Context (env : RPCEnv).

Lemma sendNextIfAny_inflight_sent st :
  inflight st ⊆ sentLog st ->
  inflight (sendNextIfAny st) ⊆ sentLog (sendNextIfAny st).
Proof.
  unfold sendNextIfAny. destruct (orderedClients st) as [|c rest]; [done|].
  simpl. intros Hsub x Hx. apply elem_of_app in Hx as [Hx|Hx];
    apply elem_of_app; [left; by apply Hsub|by right].
Qed.

Lemma delete_subseteq {A} (l : list A) (k : nat) : delete k l ⊆ l.
Proof.
  revert k; induction l as [|x l IH]; intros [|k]; simpl; try done.
  - intros y Hy. by apply list_elem_of_further.
  - intros y Hy. apply elem_of_cons in Hy as [->|Hy];
      [apply list_elem_of_here|apply list_elem_of_further, (IH k), Hy].
Qed.

(** A reply returned by the wait loop is the completion, free of error, of
    a client the loop had sent to. *)
Lemma waitLoop_success_from_sent n sched st reply st' :
  inflight st ⊆ sentLog st ->
  waitLoop env n sched st = Returned reply None st' ->
  exists c, c ∈ sentLog st'
            /\ bc_err (completionOf env c) = None
            /\ bc_reply (completionOf env c) = reply.
Proof.
  revert st; induction sched as [|ev sched IH]; intros st Hsub; simpl; [done|].
  destruct ev as [|k].
  - apply IH. by apply sendNextIfAny_inflight_sent.
  - destruct (inflight st !! k) as [c|] eqn:Hk; [|done].
    destruct (bc_err (completionOf env c)) as [err|] eqn:Herr.
    + case_match; [done|]. apply IH. apply sendNextIfAny_inflight_sent.
      simpl. intros x Hx. by apply Hsub, (delete_subseteq _ k).
    + intros [= <- <-]. exists c. split; [|done].
      simpl. apply Hsub. by apply list_elem_of_lookup_2 in Hk.
Qed.

Lemma dialAll_first_failure args pre replica post err :
  Forall (fun r => GRPCDial env (nd_Address (ri_NodeDesc r)) = None) pre ->
  GRPCDial env (nd_Address (ri_NodeDesc replica)) = Some err ->
  dialAll env args (pre ++ replica :: post)
  = ((fun r => nd_Address (ri_NodeDesc r)) <$> (pre ++ [replica]), inl err).
Proof.
  intros Hpre Hfail. induction Hpre as [|r pre Hr _ IH]; simpl.
  - by rewrite Hfail.
  - rewrite Hr. simpl in IH. by rewrite IH.
Qed.
End SendMoreFacts.

(** X1.  A reply that [send] returns without error is the completion of a
    client it had dispatched, and that completion carried no error. *)
Theorem send_success_is_dispatched_completion (env : RPCEnv) (opts : SendOptions)
    (replicas : ReplicaSlice) (args : BatchRequest) (sched : list SelectEvent)
    (dialed : list string) (reply : option BatchResponse) (st : SendState) :
  send env opts replicas args sched = (dialed, Returned reply None st) ->
  exists c,
    c ∈ sentLog st
    /\ c ∈ (clientFor args <$> replicas)
    /\ bc_err (completionOf env c) = None
    /\ bc_reply (completionOf env c) = reply.
Proof.
  intros Hsend.
  destruct (send_cases env opts replicas args sched)
    as [(d & r & e & H & _)|[(d & H)|(d & first & rest & Ho & Hperm & H)]];
    rewrite H in Hsend; try done.
  injection Hsend as <- Hloop.
  assert (loopInvariant (first :: rest) st) as [Horder _ _ _].
  { apply (waitLoop_invariant env (first :: rest)
             (Z.of_nat (S (length rest))) sched
             (sendNext first rest initialState));
      [apply initial_dispatch_invariant|by rewrite Hloop]. }
  apply waitLoop_success_from_sent in Hloop as (c & Hc & Herr & Hreply);
    [|simpl; set_solver].
  exists c. split_and!; try done.
  rewrite <- Hperm, <- Horder. apply elem_of_app. by left.
Qed.

Lemma send_success_is_dispatched_completion_witness :
  exists dialed reply st c,
    send mixedEnv stableOpts threeReplicas emptyBatch
      [TimerFires; Completion 1; TimerFires; Completion 1]
    = (dialed, Returned reply None st)
    /\ c ∈ sentLog st
    /\ remoteAddr c = "n3:26257"
    /\ bc_reply (completionOf mixedEnv c) = reply.
Proof.
  do 3 eexists.
  exists (clientFor emptyBatch
            {| ri_Replica := {| NodeID := 3; StoreID := 3; ReplicaID := 3 |};
               ri_NodeDesc := {| nd_NodeID := 3; nd_Address := "n3:26257";
                                 nd_Attrs := [] |} |}).
  split; [vm_compute; reflexivity|].
  destruct (send_success_is_dispatched_completion mixedEnv stableOpts
              threeReplicas emptyBatch
              [TimerFires; Completion 1; TimerFires; Completion 1] _ _ _ eq_refl)
    as (c & Hc & _ & _ & _).
  split; [|split; reflexivity].
  apply list_elem_of_further, list_elem_of_further, list_elem_of_here.
Defined.

(** X2.  When dialing fails for a replica, all replicas before it having
    been dialed, [send] returns that error: the addresses dialed are those
    up to and including the failing one, and nothing has been sent. *)
Theorem send_dial_failure_aborts (env : RPCEnv) (opts : SendOptions)
    (args : BatchRequest) (sched : list SelectEvent)
    (pre : ReplicaSlice) (replica : ReplicaInfo) (post : ReplicaSlice)
    (err : GoError) :
  Forall (fun r => GRPCDial env (nd_Address (ri_NodeDesc r)) = None) pre ->
  GRPCDial env (nd_Address (ri_NodeDesc replica)) = Some err ->
  send env opts (pre ++ replica :: post) args sched
  = ((fun r => nd_Address (ri_NodeDesc r)) <$> (pre ++ [replica]),
     Returned None (Some err) initialState).
Proof.
  intros Hpre Hfail. unfold send.
  rewrite (dialAll_first_failure env args pre replica post err Hpre Hfail).
  case_match eqn:Hlen; [|done].
  apply Z.ltb_lt in Hlen. rewrite length_app in Hlen. simpl in Hlen. lia.
Qed.

Lemma send_dial_failure_aborts_witness :
  send refusingEnv randomOpts threeReplicas emptyBatch [TimerFires; Completion 0]
  = (["n1:26257"; "n2:26257"],
     Returned None (Some (PlainErr "connection refused")) initialState).
Proof.
  apply (send_dial_failure_aborts refusingEnv randomOpts emptyBatch
           [TimerFires; Completion 0]
           [{| ri_Replica := {| NodeID := 1; StoreID := 1; ReplicaID := 1 |};
               ri_NodeDesc := {| nd_NodeID := 1; nd_Address := "n1:26257";
                                 nd_Attrs := [] |} |}]
           {| ri_Replica := {| NodeID := 2; StoreID := 2; ReplicaID := 2 |};
              ri_NodeDesc := {| nd_NodeID := 2; nd_Address := "n2:26257";
                                nd_Attrs := [] |} |}
           [{| ri_Replica := {| NodeID := 3; StoreID := 3; ReplicaID := 3 |};
               ri_NodeDesc := {| nd_NodeID := 3; nd_Address := "n3:26257";
                                 nd_Attrs := [] |} |}]
           (PlainErr "connection refused")).
  - constructor; [reflexivity|constructor].
  - reflexivity.
Defined.

Section OrderFacts.
Context (env : RPCEnv).

Lemma swap_lookup {A} (i j k : nat) (s : list A) :
  (i < length s)%nat -> (j < length s)%nat ->
  swap i j s !! k
  = if decide (k = j) then s !! i else if decide (k = i) then s !! j else s !! k.
Proof.
  intros Hi Hj. unfold swap.
  destruct (lookup_lt_is_Some_2 s i Hi) as [a Ha].
  destruct (lookup_lt_is_Some_2 s j Hj) as [b Hb].
  rewrite Ha, Hb.
  destruct (decide (k = j)) as [->|Hkj].
  - rewrite list_lookup_insert_eq; [done|by rewrite length_insert].
  - rewrite list_lookup_insert_ne by done.
    destruct (decide (k = i)) as [->|Hki].
    + by rewrite list_lookup_insert_eq.
    + by rewrite list_lookup_insert_ne.
Qed.

(** The health partition keeps the ready clients seen so far in front of
    the others seen so far. *)
Lemma partitionHealthy_split :
  forall k i nHealthy clients clients' n,
    partitionHealthy env i nHealthy k clients = inr (clients', n) ->
    (nHealthy <= i)%nat ->
    (i + k = length clients)%nat ->
    (forall j c, (j < nHealthy)%nat -> clients !! j = Some c -> isReady env c = true) ->
    (forall j c, (nHealthy <= j < i)%nat -> clients !! j = Some c ->
                 isReady env c = false) ->
    (forall j c, (j < n)%nat -> clients' !! j = Some c -> isReady env c = true)
    /\ (forall j c, (n <= j)%nat -> clients' !! j = Some c -> isReady env c = false).
Proof.
  induction k as [|k IH]; intros i nH clients clients' n; simpl.
  - intros [= <- <-] Hle Hlen Hfront Hback. split; [done|].
    intros j c Hj Hc. apply (Hback j c); [|done].
    apply lookup_lt_Some in Hc. lia.
  - intros Hrun Hle Hlen Hfront Hback.
    destruct (clients !! i) as [client|] eqn:Hi;
      [|apply lookup_ge_None in Hi; lia].
    assert (i < length clients)%nat as Hilt by lia.
    assert (nH < length clients)%nat as Hnlt by lia.
    destruct (connState env (remoteAddr client)) as [err|state] eqn:Hstate; [done|].
    assert (forall b, isReady env client = b ->
              (b = false ->
               partitionHealthy env (S i) nH k clients = inr (clients', n)) ->
              (b = true ->
               partitionHealthy env (S i) (S nH) k (swap i nH clients)
               = inr (clients', n)) ->
              (forall j c, (j < n)%nat -> clients' !! j = Some c ->
                           isReady env c = true)
              /\ (forall j c, (n <= j)%nat -> clients' !! j = Some c ->
                              isReady env c = false)) as Hcases.
    { intros [|] Hb Hfalse Htrue.
      - apply (IH _ _ _ _ _ (Htrue eq_refl)); [lia|by rewrite swap_length; lia| |].
        + intros j c Hj. rewrite swap_lookup by done.
          destruct (decide (j = nH)) as [->|Hne].
          * rewrite Hi. by intros [= <-].
          * destruct (decide (j = i)); [lia|]. apply Hfront. lia.
        + intros j c Hj. rewrite swap_lookup by done.
          destruct (decide (j = nH)); [lia|].
          destruct (decide (j = i)) as [->|Hne].
          * apply Hback. lia.
          * apply Hback. lia.
      - apply (IH _ _ _ _ _ (Hfalse eq_refl)); [lia|lia|done|].
        intros j c Hj Hc. destruct (decide (j = i)) as [->|Hne].
        + rewrite Hi in Hc. by injection Hc as <-.
        + apply (Hback j c); [lia|done]. }
    unfold isReady in Hcases. rewrite Hstate in Hcases.
    destruct state; (eapply Hcases; [reflexivity|by intros ?|by intros ?]).
Qed.

Lemma orderClients_random_split clients ordered :
  orderClients env orderRandom clients = inr ordered ->
  exists healthy rest,
    ordered = healthy ++ rest
    /\ Forall (fun c => isReady env c = true) healthy
    /\ Forall (fun c => isReady env c = false) rest.
Proof.
  unfold orderClients.
  destruct (partitionHealthy env 0 0 (length clients) clients)
    as [err|[clients' n]] eqn:Hp; [done|].
  apply partitionHealthy_split in Hp as [Hfront Hback]; [|lia|lia| |];
    [|intros j c Hj; lia|intros j c Hj; lia].
  pose proof (shuffleClients_Permutation (randSource env) 0 (take n clients')) as H1.
  destruct (shuffleClients (randSource env) 0 (take n clients')) as [healthy ctr].
  pose proof (shuffleClients_Permutation (randSource env) ctr (drop n clients')) as H2.
  destruct (shuffleClients (randSource env) ctr (drop n clients')) as [rest ctr'].
  intros [= <-]. exists healthy, rest. simpl in *. split; [done|]. split.
  - rewrite H1. apply Forall_lookup. intros j c Hc.
    apply lookup_take_Some in Hc as [Hc Hj]. by apply (Hfront j).
  - rewrite H2. apply Forall_lookup. intros j c Hc.
    rewrite lookup_drop in Hc. apply (Hback (n + j)%nat); [lia|done].
Qed.

Lemma shuffleFrom_draws {A} rnd ctr i k (s : list A) :
  (shuffleFrom rnd ctr i k s).2 = (ctr + k)%nat
  /\ length (shuffleFrom rnd ctr i k s).1 = length s.
Proof.
  revert ctr i s; induction k as [|k IH]; intros ctr i s; simpl.
  - split; [lia|done].
  - destruct (IH (S ctr) (S i) (swap i (rnd ctr mod (length s - i) + i) s))
      as [-> ->]. split; [lia|apply swap_length].
Qed.
End OrderFacts.

(** X3.  With the stable ordering, the clients [send] has dispatched at any
    moment are an initial segment of the replica slice as it was given. *)
Theorem send_stable_dispatches_in_given_order (env : RPCEnv) (opts : SendOptions)
    (replicas : ReplicaSlice) (args : BatchRequest) (sched : list SelectEvent)
    (dialed : list string) (res : SendResult) (st : SendState) :
  Ordering opts = orderStable ->
  send env opts replicas args sched = (dialed, res) ->
  finalState res = Some st ->
  sentLog st `prefix_of` (clientFor args <$> replicas).
Proof.
  intros Hstable Hsend Hfinal.
  destruct (send_cases env opts replicas args sched)
    as [(d & r & e & H & _)|[(d & H)|(d & first & rest & Ho & _ & H)]];
    rewrite H in Hsend; injection Hsend as <- <-.
  - injection Hfinal as <-. apply prefix_nil.
  - done.
  - pose proof (waitLoop_invariant env _ _ _ _ _
                  (initial_dispatch_invariant first rest) Hfinal) as [H1 _ _ _].
    exists (orderedClients st). rewrite H1.
    unfold orderedFor in Ho.
    destruct (dialAll env args replicas) as [dlog [err|clients]] eqn:Hd; [done|].
    rewrite Hstable in Ho. simpl in Ho.
    by rewrite <- Ho, (dialAll_clients _ _ _ _ _ Hd).
Qed.

Lemma send_stable_dispatches_in_given_order_witness :
  exists dialed res st,
    send mixedEnv stableOpts threeReplicas emptyBatch [TimerFires]
    = (dialed, res)
    /\ finalState res = Some st
    /\ length (sentLog st) = 2%nat
    /\ sentLog st `prefix_of` (clientFor emptyBatch <$> threeReplicas).
Proof.
  do 3 eexists. split; [vm_compute; reflexivity|]. split; [reflexivity|].
  split; [reflexivity|].
  apply (send_stable_dispatches_in_given_order mixedEnv stableOpts threeReplicas
           emptyBatch [TimerFires] _ _ _ eq_refl eq_refl eq_refl).
Defined.

(** X4.  The randomized ordering puts every client whose connection is
    ready before every client whose connection is not; so if the
    connection of any client is ready, the first RPC goes to a ready one. *)
Theorem orderClients_random_ready_first (env : RPCEnv)
    (clients ordered : list batchClient) :
  orderClients env orderRandom clients = inr ordered ->
  (exists healthy rest,
      ordered = healthy ++ rest
      /\ Forall (fun c => isReady env c = true) healthy
      /\ Forall (fun c => isReady env c = false) rest)
  /\ ((exists c, c ∈ clients /\ isReady env c = true) ->
      exists first, head ordered = Some first /\ isReady env first = true).
Proof.
  intros Horder.
  pose proof (orderClients_Permutation env _ _ _ Horder) as Hperm.
  destruct (orderClients_random_split env _ _ Horder)
    as (healthy & rest & -> & Hhealthy & Hrest).
  split; [by exists healthy, rest|].
  intros (c & Hc & Hready). rewrite <- Hperm in Hc.
  destruct healthy as [|first healthy].
  - simpl in Hc. rewrite Forall_forall in Hrest.
    rewrite (Hrest c Hc) in Hready. done.
  - exists first. split; [done|]. by inversion Hhealthy.
Qed.

Lemma orderClients_random_ready_first_witness :
  exists ordered first,
    orderClients mixedEnv orderRandom (clientFor emptyBatch <$> threeReplicas)
    = inr ordered
    /\ remoteAddr <$> ordered = ["n2:26257"; "n3:26257"; "n1:26257"]
    /\ head ordered = Some first
    /\ isReady mixedEnv first = true.
Proof.
  destruct (orderClients mixedEnv orderRandom (clientFor emptyBatch <$> threeReplicas))
    as [err|ordered] eqn:Horder; [vm_compute in Horder; discriminate|].
  destruct (orderClients_random_ready_first mixedEnv _ _ Horder) as [_ Hfirst].
  destruct Hfirst as (first & Hhead & Hready).
  { exists (clientFor emptyBatch
              {| ri_Replica := {| NodeID := 2; StoreID := 2; ReplicaID := 2 |};
                 ri_NodeDesc := {| nd_NodeID := 2; nd_Address := "n2:26257";
                                   nd_Attrs := [] |} |}).
    split; [apply list_elem_of_further, list_elem_of_here|reflexivity]. }
  exists ordered, first. split; [reflexivity|].
  split; [|split; assumption].
  vm_compute in Horder. injection Horder as <-. reflexivity.
Defined.

(** X5.  [shuffleClients] rearranges the clients without losing or
    repeating any, and draws one random number per client but the last. *)
Theorem shuffleClients_permutes {A} (rnd : nat -> nat) (ctr : nat)
    (clients : list A) :
  (shuffleClients rnd ctr clients).1 ≡ₚ clients
  /\ length (shuffleClients rnd ctr clients).1 = length clients
  /\ (shuffleClients rnd ctr clients).2 = (ctr + (length clients - 1))%nat.
Proof.
  split; [apply shuffleFrom_Permutation|].
  destruct (shuffleFrom_draws rnd ctr 0 (length clients - 1) clients) as [Hd Hl].
  by split.
Qed.

(** X6.  When [send] gives up with the aggregate error, every replica's
    client has been dispatched, none is waiting to be sent or still in
    flight, and one failure has been recorded per replica. *)
Theorem send_gives_up_only_after_all_failed (env : RPCEnv) (opts : SendOptions)
    (replicas : ReplicaSlice) (args : BatchRequest) (sched : list SelectEvent)
    (dialed : list string) (reply : option BatchResponse) (err : GoError)
    (st : SendState) :
  send env opts replicas args sched = (dialed, Returned reply (Some err) st) ->
  failureLog st <> [] ->
  orderedClients st = []
  /\ inflight st = []
  /\ sentLog st ≡ₚ (clientFor args <$> replicas)
  /\ length (failureLog st) = length replicas.
Proof.
  intros Hsend Hlog.
  destruct (send_cases env opts replicas args sched)
    as [(d & r & e & H & _)|[(d & H)|(d & first & rest & _ & Hperm & H)]];
    rewrite H in Hsend.
  - by injection Hsend as <- <- <- <-.
  - done.
  - injection Hsend as <- Hloop.
    assert (loopInvariant (first :: rest) st) as [H1 H2 H3 H4].
    { apply (waitLoop_invariant env (first :: rest)
               (Z.of_nat (S (length rest))) sched
               (sendNext first rest initialState));
        [apply initial_dispatch_invariant|by rewrite Hloop]. }
    apply (waitLoop_error env (first :: rest)) in Hloop;
      [|apply initial_dispatch_invariant].
    destruct Hloop as (_ & Herr & _).
    assert (length (sentLog st) + length (orderedClients st)
            = length (first :: rest))%nat as Hlen
      by (by rewrite <- length_app, H1).
    assert (orderedClients st = []) as Hnone
      by (apply length_zero_iff_nil; lia).
    assert (inflight st = []) as Hflight
      by (apply length_zero_iff_nil; rewrite Hnone in Hlen;
          cbn [length] in *; lia).
    split_and!; try done.
    + rewrite Hnone, app_nil_r in H1. by rewrite H1.
    + apply Permutation_length in Hperm. rewrite length_fmap in Hperm. lia.
Qed.

Lemma send_gives_up_only_after_all_failed_witness :
  exists dialed reply err st,
    send failingEnv stableOpts twoReplicas emptyBatch [Completion 0; Completion 0]
    = (dialed, Returned reply (Some err) st)
    /\ orderedClients st = []
    /\ inflight st = []
    /\ sentLog st ≡ₚ (clientFor emptyBatch <$> twoReplicas)
    /\ length (failureLog st) = 2%nat.
Proof.
  do 4 eexists. split; [vm_compute; reflexivity|].
  eapply (send_gives_up_only_after_all_failed failingEnv stableOpts twoReplicas
            emptyBatch [Completion 0; Completion 0]);
    [vm_compute; reflexivity | discriminate].
Defined.

(** * [sendOne] *)

Lemma awaitReady_outcome addr call changes :
  match awaitReady addr call changes with
  | (calls, BecameReady) =>
      exists before state err,
        changes !! length before = Some (state, err)
        /\ before `prefix_of` changes
        /\ isReadyState state = true
        /\ Forall (fun c => isReadyState c.1 = false /\ c.2 = None
                            /\ isShutdown c.1 = false) before
        /\ length calls = S (length before)
  | (calls, WaitFailed err) => isRetryableFailure err = true
  | (calls, StillWaiting) =>
      Forall (fun c => isReadyState c.1 = false /\ c.2 = None
                       /\ isShutdown c.1 = false) changes
      /\ length calls = length changes
  end.
Proof.
  revert call; induction changes as [|[state err] rest IH]; intros call; simpl.
  - by split.
  - destruct (isReadyState state) eqn:Hready.
    + exists [], state, err. split_and!; try done. apply prefix_nil.
    + destruct err as [e|].
      * done.
      * destruct (isShutdown state) eqn:Hshut.
        -- done.
        -- specialize (IH (CallWaitForStateChange state)).
           destruct (awaitReady addr (CallWaitForStateChange state) rest)
             as [calls [| |]].
           ++ destruct IH as (before & s & e & Hl & Hpre & Hr & Hall & Hlen).
              exists ((state, None) :: before), s, e. split_and!; try done.
              ** by apply prefix_cons.
              ** by constructor.
              ** simpl. by rewrite Hlen.
           ++ done.
           ++ destruct IH as [Hall Hlen]. split; [by constructor|].
              simpl. by rewrite Hlen.
Qed.

Lemma awaitReady_no_batch addr call changes :
  isBatchCall call = false ->
  Forall (fun c => isBatchCall c = false) (awaitReady addr call changes).1.
Proof.
  revert call; induction changes as [|[state err] rest IH]; intros call Hcall;
    simpl; [done|].
  destruct (isReadyState state); [by repeat constructor|].
  destruct err; [by repeat constructor|].
  destruct (isShutdown state); [by repeat constructor|].
  specialize (IH (CallWaitForStateChange state) eq_refl).
  destruct (awaitReady addr (CallWaitForStateChange state) rest). simpl in *.
  by constructor.
Qed.

(** X7.  [sendOne] puts at most one value on [done]: exactly one unless its
    goroutine is still waiting for the connection, none in that case; and
    it makes at most one [Batch] call, the last thing it does. *)
Theorem sendOne_completes_once (enableLocalCalls : bool) (rpcContext : RPCContext)
    (changes : list (ConnState * option GoError))
    (remoteBatch : BatchRequest -> batchCall) (client : batchClient) :
  let r := sendOne enableLocalCalls rpcContext changes remoteBatch client in
  length (onDone r) = (if stillWaiting r then 0 else 1)%nat
  /\ (length (filter (fun c => isBatchCall c = true) (callsMade r)) <= 1)%nat
  /\ forall i c, callsMade r !! i = Some c -> isBatchCall c = true ->
                 S i = length (callsMade r).
Proof.
  cbv zeta. unfold sendOne.
  pose proof (awaitReady_no_batch (remoteAddr client) CallState changes eq_refl)
    as Hquiet.
  assert (forall calls : list SendOneCall,
             Forall (fun c => isBatchCall c = false) calls ->
             filter (fun c => isBatchCall c = true) calls = []) as Hnone.
  { intros calls Hall. induction Hall as [|c calls Hc _ IH]; [done|].
    rewrite filter_cons, decide_False by (by rewrite Hc). done. }
  assert (forall (calls : list SendOneCall) i c,
             Forall (fun c => isBatchCall c = false) calls ->
             calls !! i = Some c -> isBatchCall c = true -> False) as Habsurd.
  { intros calls i c Hall Hi Hc. rewrite Forall_lookup in Hall.
    by rewrite (Hall i c Hi) in Hc. }
  set (via := match awaitReady (remoteAddr client) CallState changes with
              | (calls, BecameReady) => _ | (calls, WaitFailed err) => _
              | (calls, StillWaiting) => _ end).
  assert (length (onDone via) = (if stillWaiting via then 0 else 1)%nat
          /\ (length (filter (fun c => isBatchCall c = true) (callsMade via)) <= 1)%nat
          /\ forall i c, callsMade via !! i = Some c -> isBatchCall c = true ->
                         S i = length (callsMade via)) as Hvia.
  { subst via.
    destruct (awaitReady (remoteAddr client) CallState changes) as [calls [|err|]];
      simpl in *.
    - split; [done|]. split.
      + rewrite filter_app, (Hnone _ Hquiet). simpl. lia.
      + intros i c Hi Hc. rewrite length_app. simpl.
        destruct (decide (i < length calls)%nat) as [Hlt|Hge].
        * rewrite lookup_app_l in Hi by done. by destruct (Habsurd _ _ _ Hquiet Hi Hc).
        * apply lookup_lt_Some in Hi. rewrite length_app in Hi. simpl in Hi. lia.
    - split; [done|]. rewrite (Hnone _ Hquiet). split; [simpl; lia|].
      intros i c Hi Hc. by destruct (Habsurd _ _ _ Hquiet Hi Hc).
    - split; [done|]. rewrite (Hnone _ Hquiet). split; [simpl; lia|].
      intros i c Hi Hc. by destruct (Habsurd _ _ _ Hquiet Hi Hc). }
  destruct (LocalInternalServer rpcContext) as [localServer|]; [|exact Hvia].
  destruct (enableLocalCalls && String.eqb (remoteAddr client) (LocalAddr rpcContext));
    [|exact Hvia].
  simpl. split; [done|]. split; [done|].
  intros [|i] c Hi Hc; [done|]. done.
Qed.

(** The two ways a call of [sendOne] that went through the connection can
    end. *)
Lemma sendOne_outcomes (enableLocalCalls : bool)
    (rpcContext : RPCContext) (changes : list (ConnState * option GoError))
    (remoteBatch : BatchRequest -> batchCall) (client : batchClient) :
  let r := sendOne enableLocalCalls rpcContext changes remoteBatch client in
  (Forall (fun c => isBatchCall c = false) (callsMade r) ->
   Forall (fun call => bc_reply call = None
                       /\ exists err, bc_err call = Some err
                                      /\ isRetryableFailure err = true)
          (onDone r))
  /\ (CallRemoteBatch (bc_args client) ∈ callsMade r ->
      exists before state err,
        changes !! length before = Some (state, err)
        /\ before `prefix_of` changes
        /\ isReadyState state = true
        /\ Forall (fun c => isReadyState c.1 = false /\ c.2 = None
                            /\ isShutdown c.1 = false) before).
Proof.
  cbv zeta. unfold sendOne.
  pose proof (awaitReady_outcome (remoteAddr client) CallState changes) as Hout.
  pose proof (awaitReady_no_batch (remoteAddr client) CallState changes eq_refl)
    as Hquiet.
  set (via := match awaitReady (remoteAddr client) CallState changes with
              | (calls, BecameReady) => _ | (calls, WaitFailed err) => _
              | (calls, StillWaiting) => _ end).
  assert ((Forall (fun c => isBatchCall c = false) (callsMade via) ->
           Forall (fun call => bc_reply call = None
                               /\ exists err, bc_err call = Some err
                                              /\ isRetryableFailure err = true)
                  (onDone via))
          /\ (CallRemoteBatch (bc_args client) ∈ callsMade via ->
              exists before state err,
                changes !! length before = Some (state, err)
                /\ before `prefix_of` changes
                /\ isReadyState state = true
                /\ Forall (fun c => isReadyState c.1 = false /\ c.2 = None
                                    /\ isShutdown c.1 = false) before)) as Hvia.
  { subst via.
    destruct (awaitReady (remoteAddr client) CallState changes) as [calls [|err|]];
      simpl in *.
    - split.
      + intros Hall. apply Forall_app in Hall as [_ Hlast].
        by inversion Hlast.
      + intros _. destruct Hout as (before & state & err & H1 & H2 & H3 & H4 & _).
        by exists before, state, err.
    - split.
      + intros _. constructor; [|done]. split; [done|]. by exists err.
      + intros Hin. rewrite Forall_forall in Hquiet. by apply Hquiet in Hin.
    - split; [done|].
      intros Hin. rewrite Forall_forall in Hquiet. by apply Hquiet in Hin. }
  destruct (LocalInternalServer rpcContext) as [localServer|]; [|exact Hvia].
  destruct (enableLocalCalls && String.eqb (remoteAddr client) (LocalAddr rpcContext));
    [|exact Hvia].
  simpl. split.
  - intros Hall. by inversion Hall.
  - intros Hin. apply list_elem_of_singleton in Hin. done.
Qed.

(** X8.  When [sendOne] completes without having made a [Batch] call, what
    it puts on [done] is an error without a reply that [send] counts as
    retryable; and it makes the remote [Batch] call only after the
    connection has reported [Ready], every state read before that having
    come without an error and not being [Shutdown]. *)
Theorem sendOne_connection_failure_is_retryable (enableLocalCalls : bool)
    (rpcContext : RPCContext) (changes : list (ConnState * option GoError))
    (remoteBatch : BatchRequest -> batchCall) (client : batchClient) :
  let r := sendOne enableLocalCalls rpcContext changes remoteBatch client in
  (Forall (fun c => isBatchCall c = false) (callsMade r) ->
   Forall (fun call => bc_reply call = None
                       /\ exists err, bc_err call = Some err
                                      /\ isRetryableFailure err = true)
          (onDone r))
  /\ (CallRemoteBatch (bc_args client) ∈ callsMade r ->
      exists before state err,
        changes !! length before = Some (state, err)
        /\ before `prefix_of` changes
        /\ isReadyState state = true
        /\ Forall (fun c => isReadyState c.1 = false /\ c.2 = None
                            /\ isShutdown c.1 = false) before).
Proof. apply sendOne_outcomes. Qed.

Lemma sendOne_connection_failure_is_retryable_witness :
  Forall (fun call => bc_reply call = None
                      /\ exists err, bc_err call = Some err
                                     /\ isRetryableFailure err = true)
    (onDone (sendOne true withLocalServer
               [(Connecting, None); (TransientFailure, None); (Shutdown, None)]
               (fun _ => okCall)
               {| remoteAddr := "n2:26257"; bc_args := emptyBatch |})).
Proof.
  apply (sendOne_connection_failure_is_retryable true withLocalServer
           [(Connecting, None); (TransientFailure, None); (Shutdown, None)]
           (fun _ => okCall) {| remoteAddr := "n2:26257"; bc_args := emptyBatch |}).
  vm_compute. repeat constructor.
Defined.

(** X9.  The local short cut is taken exactly when local calls are
    enabled, a local server is set and the client's address is the local
    address; then the local server's answer is what is put on [done], and
    neither the connection nor the remote client is touched. *)
Theorem sendOne_local_short_cut (enableLocalCalls : bool) (rpcContext : RPCContext)
    (changes : list (ConnState * option GoError))
    (remoteBatch : BatchRequest -> batchCall) (client : batchClient) :
  let r := sendOne enableLocalCalls rpcContext changes remoteBatch client in
  (CallLocalBatch (bc_args client) ∈ callsMade r <->
   enableLocalCalls = true
   /\ is_Some (LocalInternalServer rpcContext)
   /\ remoteAddr client = LocalAddr rpcContext)
  /\ forall localServer,
      enableLocalCalls = true ->
      LocalInternalServer rpcContext = Some localServer ->
      remoteAddr client = LocalAddr rpcContext ->
      onDone r = [localServer (bc_args client)]
      /\ callsMade r = [CallLocalBatch (bc_args client)]
      /\ stillWaiting r = false.
Proof.
  cbv zeta. unfold sendOne.
  pose proof (awaitReady_no_batch (remoteAddr client) CallState changes eq_refl)
    as Hquiet.
  set (via := match awaitReady (remoteAddr client) CallState changes with
              | (calls, BecameReady) => _ | (calls, WaitFailed err) => _
              | (calls, StillWaiting) => _ end).
  assert (CallLocalBatch (bc_args client) ∉ callsMade via) as Hvia.
  { subst via. rewrite Forall_forall in Hquiet.
    destruct (awaitReady (remoteAddr client) CallState changes) as [calls [|err|]];
      simpl in *; intros Hin.
    - apply elem_of_app in Hin as [Hin|Hin]; [by apply Hquiet in Hin|].
      by apply list_elem_of_singleton in Hin.
    - by apply Hquiet in Hin.
    - by apply Hquiet in Hin. }
  split.
  - destruct (LocalInternalServer rpcContext) as [localServer|].
    + destruct enableLocalCalls; simpl.
      * destruct (String.eqb_spec (remoteAddr client) (LocalAddr rpcContext)).
        -- simpl. split; [by eauto|]. intros _. apply list_elem_of_here.
        -- split; [done|]. by intros (_ & _ & ?).
      * split; [done|]. by intros (? & _).
    + split; [done|]. by intros (_ & [? ?] & _).
  - intros localServer -> -> Haddr. rewrite Haddr, String.eqb_refl. done.
Qed.

Lemma sendOne_local_short_cut_witness :
  onDone (sendOne true withLocalServer [(Shutdown, None)]
            (fun _ => {| bc_reply := None; bc_err := Some ErrUnexpectedEOF |})
            {| remoteAddr := "n1:26257"; bc_args := emptyBatch |})
  = [okCall]
  /\ callsMade (sendOne true withLocalServer [(Shutdown, None)]
                  (fun _ => {| bc_reply := None; bc_err := Some ErrUnexpectedEOF |})
                  {| remoteAddr := "n1:26257"; bc_args := emptyBatch |})
     = [CallLocalBatch emptyBatch]
  /\ stillWaiting (sendOne true withLocalServer [(Shutdown, None)]
                     (fun _ => {| bc_reply := None; bc_err := Some ErrUnexpectedEOF |})
                     {| remoteAddr := "n1:26257"; bc_args := emptyBatch |})
     = false.
Proof.
  apply (proj2 (sendOne_local_short_cut true withLocalServer [(Shutdown, None)]
                  (fun _ => {| bc_reply := None; bc_err := Some ErrUnexpectedEOF |})
                  {| remoteAddr := "n1:26257"; bc_args := emptyBatch |})
           (fun _ => okCall));
    reflexivity.
Defined.

Section FailureFacts.
Context (env : RPCEnv).

(** Every failure the wait loop records is the error of the completion of
    a client it had sent to. *)
Lemma waitLoop_failures_from_sent n sched st st' :
  inflight st ⊆ sentLog st ->
  (forall e, e ∈ failureLog st ->
             exists c, c ∈ sentLog st /\ bc_err (completionOf env c) = Some e) ->
  finalState (waitLoop env n sched st) = Some st' ->
  forall e, e ∈ failureLog st' ->
            exists c, c ∈ sentLog st' /\ bc_err (completionOf env c) = Some e.
Proof.
  revert st; induction sched as [|ev sched IH]; intros st Hsub Hlog; simpl.
  - by intros [= <-].
  - assert (forall st0,
               inflight st0 ⊆ sentLog st0 ->
               (forall e, e ∈ failureLog st0 ->
                          exists c, c ∈ sentLog st0
                                    /\ bc_err (completionOf env c) = Some e) ->
               forall e, e ∈ failureLog (sendNextIfAny st0) ->
                         exists c, c ∈ sentLog (sendNextIfAny st0)
                                   /\ bc_err (completionOf env c) = Some e)
      as Hnext.
    { intros st0 _ Hlog0 e. unfold sendNextIfAny.
      destruct (orderedClients st0) as [|c rest]; [apply Hlog0|].
      simpl. intros He. destruct (Hlog0 e He) as (c0 & Hc0 & Herr).
      exists c0. split; [|done]. apply elem_of_app. by left. }
    destruct ev as [|k].
    + apply IH; [by apply sendNextIfAny_inflight_sent|by apply Hnext].
    + destruct (inflight st !! k) as [c|] eqn:Hk; [|by intros [= <-]].
      assert (c ∈ sentLog st) as Hc
        by (apply Hsub; by apply list_elem_of_lookup_2 in Hk).
      destruct (bc_err (completionOf env c)) as [err|] eqn:Herr.
      * assert (inflight (recordFailure k err st) ⊆ sentLog (recordFailure k err st))
          as Hsub1.
        { simpl. intros x Hx. by apply Hsub, (delete_subseteq _ k). }
        assert (forall e, e ∈ failureLog (recordFailure k err st) ->
                  exists c0, c0 ∈ sentLog (recordFailure k err st)
                             /\ bc_err (completionOf env c0) = Some e) as Hlog1.
        { simpl. intros e He. apply elem_of_app in He as [He|He]; [by apply Hlog|].
          apply list_elem_of_singleton in He as ->. by exists c. }
        case_match; [by intros [= <-]|].
        apply IH; [by apply sendNextIfAny_inflight_sent|by apply Hnext].
      * intros [= <-]. simpl. apply Hlog.
Qed.
End FailureFacts.

(** X10.  [send] over [sendOne]: if what every client's [sendOne] puts on
    [done] comes from a failed wait for the connection (no [Batch] call was
    made), the aggregate error [send] ends with is marked retryable. *)
Theorem send_connection_failures_are_retryable (env : RPCEnv) (opts : SendOptions)
    (replicas : ReplicaSlice) (args : BatchRequest) (sched : list SelectEvent)
    (dialed : list string) (reply : option BatchResponse) (err : GoError)
    (st : SendState) :
  (forall c, c ∈ (clientFor args <$> replicas) ->
             exists enableLocalCalls rpcContext changes remoteBatch,
               onDone (sendOne enableLocalCalls rpcContext changes remoteBatch c)
               = [completionOf env c]
               /\ Forall (fun call => isBatchCall call = false)
                    (callsMade (sendOne enableLocalCalls rpcContext changes
                                  remoteBatch c))) ->
  send env opts replicas args sched = (dialed, Returned reply (Some err) st) ->
  failureLog st <> [] ->
  err = SendError (TooManyErrors (Z.of_nat (length replicas))
                     (Z.of_nat (length replicas))) true.
Proof.
  intros Hone Hsend Hlog.
  destruct (send_cases env opts replicas args sched)
    as [(d & r & e & H & _)|[(d & H)|(d & first & rest & _ & Hperm & H)]];
    rewrite H in Hsend.
  - by injection Hsend as <- <- <- <-.
  - done.
  - injection Hsend as <- Hloop.
    assert (loopInvariant (first :: rest) st) as [H1 _ _ _].
    { apply (waitLoop_invariant env (first :: rest)
               (Z.of_nat (S (length rest))) sched
               (sendNext first rest initialState));
        [apply initial_dispatch_invariant|by rewrite Hloop]. }
    assert (forall e, e ∈ failureLog st ->
              exists c, c ∈ sentLog st /\ bc_err (completionOf env c) = Some e)
      as Hfrom.
    { apply (waitLoop_failures_from_sent env (Z.of_nat (S (length rest))) sched
               (sendNext first rest initialState));
        [simpl; set_solver|simpl; set_solver|by rewrite Hloop]. }
    apply (waitLoop_error env (first :: rest)) in Hloop;
      [|apply initial_dispatch_invariant].
    destruct Hloop as (_ & Herr & _ & flag & -> & Hflag).
    apply Permutation_length in Hperm as Hlen. rewrite length_fmap in Hlen.
    rewrite Herr, Hlen. f_equal. apply Hflag.
    destruct (failureLog st) as [|e l] eqn:Hl; [done|].
    exists e. split; [by left|].
    destruct (Hfrom e) as (c & Hc & Hce); [by left|].
    assert (c ∈ clientFor args <$> replicas) as Hclient.
    { rewrite <- Hperm, <- H1. apply elem_of_app. by left. }
    destruct (Hone c Hclient) as (enable & ctx & changes & remote & Hdone & Hquiet).
    pose proof (proj1 (sendOne_outcomes
                         enable ctx changes remote c) Hquiet) as Hretry.
    rewrite Hdone in Hretry. inversion Hretry as [|? ? (_ & e' & He' & Hr) _]; subst.
    rewrite Hce in He'. by injection He' as <-.
Qed.

Lemma send_connection_failures_are_retryable_witness :
  exists dialed reply err st,
    send shutdownEnv stableOpts twoReplicas emptyBatch [Completion 0; Completion 0]
    = (dialed, Returned reply (Some err) st)
    /\ err = SendError (TooManyErrors 2 2) true.
Proof.
  do 4 eexists. split; [vm_compute; reflexivity|].
  eapply (send_connection_failures_are_retryable shutdownEnv stableOpts
            twoReplicas emptyBatch [Completion 0; Completion 0]);
    [|vm_compute; reflexivity|discriminate].
  intros c _. exists true, remoteOnly, [(Shutdown, None)], (fun _ => okCall).
  split; [reflexivity|]. repeat constructor.
Defined.

(** * Further properties of [sendChunk] *)

Section TraceFacts.
Context (ops : BatchOps).

Lemma rpcsFollowLookups_weaken l :
  rpcsFollowLookups false l = true -> rpcsFollowLookups true l = true.
Proof. by destruct l as [|[] l]. Qed.

Lemma rpcsFollowLookups_app b l1 l2 :
  rpcsFollowLookups b l1 = true ->
  rpcsFollowLookups false l2 = true ->
  rpcsFollowLookups b (l1 ++ l2) = true.
Proof.
  revert b; induction l1 as [|e l1 IH]; intros b H1 H2; simpl.
  - destruct b; [by apply rpcsFollowLookups_weaken|done].
  - destruct e; simpl in *; try by apply IH.
    apply andb_true_iff in H1 as [-> H1]. by apply IH.
Qed.

Lemma sendRPC_shape rangeID replicas order ba w res w' :
  sendRPC rangeID replicas order ba w = Some (res, w') ->
  log w' = log w
  \/ log w' = log w ++ [EvRPC order replicas (setRangeID rangeID ba)].
Proof.
  unfold sendRPC. case_match.
  - intros [= <- <-]. by left.
  - destruct (rpcs w) as [|answer rest]; [done|].
    destruct answer; intros [= <- <-]; by right.
Qed.

Lemma sendTruncated_shape ba rs desc w res w' :
  sendTruncated ops ba rs desc w = Some (res, w') ->
  log w' = log w \/ exists order replicas ba', log w' = log w ++ [EvRPC order replicas ba'].
Proof.
  unfold sendTruncated.
  destruct (Intersect ops rs desc) as [iErr|intersected];
    [intros [= <- <-]; by left|].
  destruct (truncate ops ba intersected) as [[truncBA numActive] [trErr|]];
    [intros [= <- <-]; by left|].
  case_match; [intros [= <- <-]; by left|].
  unfold sendSingleRange.
  destruct (getNodeDescriptor (nodeDescriptor w) (gossip w)) as [nodeDesc cached].
  destruct (optimizeReplicaOrder nodeDesc _) as [replicas order].
  match goal with
  | |- context [let '(_, _) := ?choice in _] =>
      destruct choice as [replicas' order']
  end.
  destruct (sendRPC _ _ _ _ _) as [[[pErr|br] w1]|] eqn:Hrpc; [| |done].
  - intros [= <- <-]. apply sendRPC_shape in Hrpc as [?|?]; [by left|right; eauto].
  - apply sendRPC_shape in Hrpc.
    destruct (h_Error (br_Header br)); intros [= <- <-];
      (destruct Hrpc as [?|?]; [by left|right; eauto]).
Qed.

Lemma handleError_shape considerIntents r pErr descKey desc isReverse w :
  Forall (fun e => isRPC e = false)
    (drop (length (log w))
       (log (attemptWorld (handleError considerIntents r pErr descKey desc
                             isReverse w))))
  /\ take (length (log w))
       (log (attemptWorld (handleError considerIntents r pErr descKey desc
                             isReverse w))) = log w.
Proof.
  assert (Forall (fun e => isRPC e = false) (drop (length (log w)) (log w))
          /\ take (length (log w)) (log w) = log w) as Hsame.
  { rewrite drop_all, firstn_all. by split. }
  assert (forall e, isRPC e = false ->
            Forall (fun e => isRPC e = false)
              (drop (length (log w)) (log w ++ [e]))
            /\ take (length (log w)) (log w ++ [e]) = log w) as Hone.
  { intros e He. rewrite drop_app_length, take_app_length. split; [|done].
    by repeat constructor. }
  unfold handleError.
  destruct (err_Detail pErr)
    as [|msg c|msg|msg retryable| | |[newLeader|]| |]; try done.
  - by destruct c.
  - destruct retryable; by apply Hone.
  - by apply Hone.
  - by apply Hone.
  - destruct (descFindReplica (StoreID newLeader) desc =? -1); simpl;
      rewrite updateLeaderCache_log; [by apply Hone|done].
  - simpl. rewrite updateLeaderCache_log. by apply Hone.
Qed.

Lemma rpcsFollowLookups_quiet b l :
  Forall (fun e => isRPC e = false) l -> rpcsFollowLookups b l = true.
Proof.
  intros Hall; revert b; induction Hall as [|e l He _ IH]; intros b; [done|].
  destruct e; simpl in *; try done; apply IH.
Qed.

Lemma attempt_shape isReverse ba rs br considerIntents r w :
  exists suffix,
    log (attemptWorld (attempt ops isReverse ba rs br considerIntents r w))
    = log w ++ suffix
    /\ rpcsFollowLookups false suffix = true.
Proof.
  unfold attempt, getDescriptors, LookupRangeDescriptor.
  destruct (lookups w) as [|a rest]; [exists []; by rewrite app_nil_r|].
  fold (lookupKey isReverse rs).
  set (lk := EvLookup (lookupKey isReverse rs) considerIntents isReverse
               (considerIntents && coin a)).
  set (w1 := logEvent lk (setLookups rest w)).
  assert (log w1 = log w ++ [lk]) as Hw1 by done.
  assert (forall w2 tail,
             log w2 = log w1 ++ tail ->
             rpcsFollowLookups true tail = true ->
             exists suffix, log w2 = log w ++ suffix
                            /\ rpcsFollowLookups false suffix = true) as Hgrow.
  { intros w2 tail Hlog Htail. exists (lk :: tail).
    split; [by rewrite Hlog, Hw1, <- app_assoc|done]. }
  assert (exists suffix, log w1 = log w ++ suffix
                         /\ rpcsFollowLookups false suffix = true) as Hstop.
  { apply (Hgrow w1 []); [by rewrite app_nil_r|done]. }
  destruct (if considerIntents && coin a then uncommitted a else committed a)
    as [pErr|desc].
  - by destruct (err_Retryable pErr).
  - match goal with
    | |- context [if ?c then Return (NewError OpRequiresTxnError) _ _ else _] =>
        destruct c; [done|]
    end.
    match goal with
    | |- context [if ?c then Return _ true _ else _] => destruct c; [done|]
    end.
    match goal with
    | |- context [if ?c then Continue _ _ None _ else _] =>
        destruct c;
          [eapply (Hgrow _ [_]); [unfold evictDesc; simpl; reflexivity|done]|]
    end.
    destruct (sendTruncated ops ba rs desc w1) as [[[pErr|curReply] w2]|] eqn:Hsend;
      [| |done].
    + apply sendTruncated_shape in Hsend.
      destruct (handleError_shape considerIntents r pErr
                  (lookupKey isReverse rs) desc isReverse w2) as [Hquiet Htake].
      set (w3 := attemptWorld (handleError considerIntents r pErr
                                 (lookupKey isReverse rs) desc isReverse w2)) in *.
      assert (log w3 = log w2 ++ drop (length (log w2)) (log w3)) as Hw3
        by (by rewrite <- Htake at 1; rewrite take_drop).
      destruct Hsend as [Hsame|(order & replicas & ba' & Hrpc)].
      * apply (Hgrow w3 (drop (length (log w2)) (log w3)));
          [by rewrite Hw3 at 1; rewrite Hsame|].
        by apply rpcsFollowLookups_quiet.
      * apply (Hgrow w3 (EvRPC order replicas ba'
                           :: drop (length (log w2)) (log w3)));
          [rewrite Hw3 at 1; by rewrite Hrpc, <- app_assoc|].
        simpl. by apply rpcsFollowLookups_quiet.
    + apply sendTruncated_shape in Hsend.
      destruct Hsend as [Hsame|(order & replicas & ba' & Hrpc)].
      * apply (Hgrow w2 []); [by rewrite app_nil_r|done].
      * by apply (Hgrow w2 [EvRPC order replicas ba']).
Qed.

Lemma retryNext_shape r w :
  exists suffix,
    log (retryNext r w).2 = log w ++ suffix
    /\ Forall (fun e => isRPC e = false) suffix.
Proof.
  unfold retryNext. destruct (isReset r); [exists []; by rewrite app_nil_r|].
  destruct (closer w) as [[|n]|]; simpl.
  - exists []. by rewrite app_nil_r.
  - eexists [_]. split; [done|]. by repeat constructor.
  - eexists [_]. split; [done|]. by repeat constructor.
Qed.

Lemma sendChunkLoop_shape isReverse :
  forall fuel ba rs br considerIntents r pErr w,
  exists suffix,
    log (sendChunkLoop ops isReverse fuel ba rs br considerIntents r pErr w).2
    = log w ++ suffix
    /\ rpcsFollowLookups false suffix = true.
Proof.
  induction fuel as [|fuel IH]; intros ba rs br ci r pErr w; cbn [sendChunkLoop].
  - exists []. by rewrite app_nil_r.
  - destruct (retryNext_shape r w) as (s1 & Hs1 & Hq1).
    destruct (retryNext r w) as [[ok r1] w1]. simpl in Hs1.
    assert (forall w2 tail,
               log w2 = log w1 ++ tail ->
               rpcsFollowLookups false tail = true ->
               exists suffix, log w2 = log w ++ suffix
                              /\ rpcsFollowLookups false suffix = true) as Hgrow.
    { intros w2 tail Hlog Htail. exists (s1 ++ tail).
      split; [by rewrite Hlog, Hs1, <- app_assoc|].
      apply rpcsFollowLookups_app; [by apply rpcsFollowLookups_quiet|done]. }
    destruct ok.
    + destruct (attempt_shape isReverse ba rs br ci r1 w1) as (s2 & Hs2 & Hq2).
      assert (forall w3 tail,
                 log w3 = log (attemptWorld (attempt ops isReverse ba rs br ci r1 w1))
                          ++ tail ->
                 rpcsFollowLookups false tail = true ->
                 exists suffix, log w3 = log w ++ suffix
                                /\ rpcsFollowLookups false suffix = true) as Hgrow2.
      { intros w3 tail Hlog Htail. apply (Hgrow w3 (s2 ++ tail)).
        - by rewrite Hlog, Hs2, <- app_assoc.
        - by apply rpcsFollowLookups_app. }
      destruct (attempt ops isReverse ba rs br ci r1 w1)
        as [ci2 r2 pErr2 w2|pErr2 w2|curReply desc na w2|pErr2 split w2|w2];
        simpl in *.
      * destruct (IH ba rs br ci2 r2 pErr2 w2) as (s3 & Hs3 & Hq3).
        by apply (Hgrow2 _ s3).
      * apply (Hgrow2 _ []); [by rewrite app_nil_r|done].
      * destruct (afterRange ops isReverse ba rs br curReply desc na)
          as [ret|e|msg|ba2 rs2 br2]; simpl;
          try (apply (Hgrow2 _ []); [by rewrite app_nil_r|done]).
        destruct (IH ba2 rs2 (Some br2) false retryStart None w2) as (s3 & Hs3 & Hq3).
        by apply (Hgrow2 _ s3).
      * apply (Hgrow2 _ []); [by rewrite app_nil_r|done].
      * apply (Hgrow2 _ []); [by rewrite app_nil_r|done].
    + apply (Hgrow _ []); [|done]. rewrite app_nil_r.
      unfold afterClosedLoop. destruct pErr; [done|].
      by destruct (closer w1) as [[|?]|].
Qed.
End TraceFacts.

(** X11.  [sendChunk] only adds to the log, and every RPC it issues comes
    directly after a descriptor lookup: the descriptor is looked up anew
    for each attempt, and no attempt sends more than one RPC.  So there are
    never more RPCs than lookups. *)
Theorem sendChunk_looks_up_before_each_rpc (ops : BatchOps) (fuel : nat)
    (ba : BatchRequest) (w : World) :
  exists suffix,
    log (sendChunk ops fuel ba w).2 = log w ++ suffix
    /\ rpcsFollowLookups false suffix = true
    /\ (length (filter (fun e => isRPC e = true) suffix)
        <= length (filter (fun e => isLookup e = true) suffix))%nat.
Proof.
  destruct (sendChunkLoop_shape ops (IsReverse ops ba) fuel ba (keys_Range ops ba)
              None false retryStart None w) as (suffix & Hlog & Hshape).
  exists suffix. split; [exact Hlog|]. split; [exact Hshape|].
  clear Hlog.
  assert (forall b, rpcsFollowLookups b suffix = true ->
            (length (filter (fun e => isRPC e = true) suffix)
             <= (if b then 1 else 0)
                + length (filter (fun e => isLookup e = true) suffix))%nat) as Hcount.
  { clear Hshape. induction suffix as [|e suffix IH]; intros b Hshape; [simpl; lia|].
    rewrite !filter_cons.
    destruct e; cbn [rpcsFollowLookups isRPC isLookup] in *;
      repeat case_decide; try done; cbn [length].
    - specialize (IH true Hshape). cbn beta iota in IH. lia.
    - specialize (IH false Hshape). destruct b; cbn beta iota in *; lia.
    - apply andb_true_iff in Hshape as [-> Hshape].
      specialize (IH false Hshape). cbn beta iota in *. lia.
    - specialize (IH false Hshape). destruct b; cbn beta iota in *; lia. }
  exact (Hcount false Hshape).
Qed.

(** ** [sendChunk]: ways out of the retry loop before any RPC *)

Section ChunkPaths.
Context (ops : BatchOps).

Lemma misses_then_stop (isReverse : bool) (ba : BatchRequest) (rs : RSpan)
    (a : LookupAnswer) (rest : list LookupAnswer) (misses : list LookupAnswer)
    (e : Error) (shouldSplitET : bool) :
  (forall r w1,
     lookups w1 = a :: rest ->
     let w2 := logEvent (EvLookup (lookupKey isReverse rs) false isReverse false)
                 (setLookups rest w1) in
     (attempt ops isReverse ba rs None false r w1 = BreakError e w2
      /\ shouldSplitET = false)
     \/ attempt ops isReverse ba rs None false r w1 = Return e shouldSplitET w2) ->
  Forall retryableMiss misses ->
  forall fuel r pErr w,
    lookups w = misses ++ a :: rest ->
    closerAllows (length misses + (if isReset r then 0 else 1)) (closer w) ->
    (length misses < fuel)%nat ->
    exists w' suffix,
      sendChunkLoop ops isReverse fuel ba rs None false r pErr w
      = (Done (None, Some e, shouldSplitET), w')
      /\ rpcs w' = rpcs w
      /\ lookups w' = rest
      /\ log w' = log w ++ suffix
      /\ Forall (fun e => isRPC e = false) suffix.
Proof.
  intros Hend Hmisses.
  induction Hmisses as [|m misses (e' & Hm & Hretry) _ IH];
    intros fuel r pErr w Hl Hc Hfuel;
    (destruct fuel as [|fuel]; [simpl in Hfuel; lia|]);
    destruct (retryNext_allowed _ r w Hc)
      as (r' & w1 & sfx & Hnext & Hr' & Hl1 & Hrpc1 & Hc1 & Hlog1 & Hsfx);
    cbn [sendChunkLoop]; rewrite Hnext; rewrite <- Hl1 in Hl.
  - destruct (Hend r' w1 Hl) as [[-> ->]| ->];
      (eexists _, (sfx ++ [_]); split; [reflexivity|];
       split; [done|]; split; [done|];
       split; [cbn; by rewrite Hlog1, <- app_assoc|];
       apply Forall_app; split; [done|]; by repeat constructor).
  - rewrite (attempt_miss ops _ _ _ _ _ _ _ _ _ Hl Hm Hretry).
    destruct (IH fuel r' (Some e')
                (logEvent (EvLookup (lookupKey isReverse rs) false isReverse false)
                   (setLookups (misses ++ a :: rest) w1)))
      as (w' & sfx' & Hrun & Hrpc & Hrest & Hlog & Hall);
      [| |simpl in Hfuel; lia|].
    + reflexivity.
    + cbn. rewrite Hr'. simpl in Hc1. by rewrite Nat.add_1_r.
    + exists w', (sfx ++ [EvLookup (lookupKey isReverse rs) false isReverse false]
                      ++ sfx').
      split; [exact Hrun|]. split; [by rewrite Hrpc|]. split; [done|].
      split; [rewrite Hlog; cbn; rewrite Hlog1; by rewrite <- !app_assoc|].
      apply Forall_app. split; [done|]. apply Forall_app. split; [|done].
      by repeat constructor.
Qed.

Lemma attempt_split_end_transaction isReverse ba rs r w a tail desc :
  lookups w = a :: tail ->
  committed a = inr desc ->
  extendsBeyond isReverse rs desc = true ->
  Txn ba <> None ->
  (1 < length (Requests ba))%nat ->
  from_option isEndTransaction false (last (Requests ba)) = true ->
  attempt ops isReverse ba rs None false r w
  = Return (NewError (PlainErr "cannot send 1PC txn to multiple ranges")) true
      (logEvent (EvLookup (lookupKey isReverse rs) false isReverse false)
         (setLookups tail w)).
Proof.
  intros Hl Hfound Hbeyond HTxn Hlen Hlast.
  unfold attempt, getDescriptors, LookupRangeDescriptor.
  rewrite Hl. cbn [andb]. rewrite Hfound.
  fold (extendsBeyond isReverse rs desc). rewrite Hbeyond, Hlast.
  rewrite (bool_decide_eq_false_2 (Txn ba = None)) by done.
  rewrite (bool_decide_eq_true_2 (@None BatchResponse = None)) by done.
  cbn [andb].
  replace (0 <? Z.of_nat (length (Requests ba)) - 1) with true
    by (symmetry; apply Z.ltb_lt; lia).
  done.
Qed.

Lemma attempt_lookup_error isReverse ba rs br r w a tail e :
  lookups w = a :: tail ->
  committed a = inl e ->
  err_Retryable e = false ->
  attempt ops isReverse ba rs br false r w
  = BreakError e
      (logEvent (EvLookup (lookupKey isReverse rs) false isReverse false)
         (setLookups tail w)).
Proof.
  intros Hl Hm Hretry.
  unfold attempt, getDescriptors, LookupRangeDescriptor.
  rewrite Hl. cbn [andb]. rewrite Hm, Hretry. done.
Qed.

Lemma closer_cuts_misses (isReverse : bool) (ba : BatchRequest) (rs : RSpan)
    (br : option BatchResponse) (misses : list LookupAnswer) :
  Forall retryableMiss misses ->
  forall fuel r (e0 : Error) w rest,
    isReset r = false ->
    lookups w = misses ++ rest ->
    closer w = Some (length misses) ->
    (length misses < fuel)%nat ->
    exists w' suffix,
      sendChunkLoop ops isReverse fuel ba rs br false r (Some e0) w
      = (Done (None,
               Some (foldl (fun acc m => match committed m with
                                         | inl e => e
                                         | inr _ => acc
                                         end) e0 misses),
               false), w')
      /\ rpcs w' = rpcs w
      /\ lookups w' = rest
      /\ log w' = log w ++ suffix
      /\ Forall (fun e => isRPC e = false) suffix
      /\ length (filter (fun e => isLookup e = true) suffix) = length misses.
Proof.
  induction 1 as [|m misses (e & Hm & Hretry) _ IH];
    intros fuel r e0 w rest Hr Hl Hc Hfuel;
    (destruct fuel as [|fuel]; [simpl in Hfuel; lia|]);
    cbn [sendChunkLoop]; unfold retryNext; rewrite Hr, Hc; cbn [length].
  - exists w, []. rewrite app_nil_r. unfold afterClosedLoop. by split_and!.
  - set (w1 := setCloser (Some (length misses))
                 (logEvent (EvBackoff (backoffMillis (currentAttempt r))) w)).
    rewrite (attempt_miss ops isReverse ba rs br _ w1 m (misses ++ rest) e);
      [|done..].
    edestruct (IH fuel {| currentAttempt := currentAttempt r + 1; isReset := false |}
                 e (logEvent (EvLookup (lookupKey isReverse rs) false isReverse false)
                      (setLookups (misses ++ rest) w1)) rest)
      as (w' & sfx' & Hrun & Hrpc & Hrest & Hlog & Hall & Hcount);
      [done|done|done|simpl in Hfuel; lia|].
    exists w', ([EvBackoff (backoffMillis (currentAttempt r));
                 EvLookup (lookupKey isReverse rs) false isReverse false] ++ sfx').
    split; [rewrite Hrun; cbn [foldl]; by rewrite Hm|].
    split; [by rewrite Hrpc|]. split; [done|].
    split; [rewrite Hlog; cbn; by rewrite <- !app_assoc|].
    split; [apply Forall_app; split; [by repeat constructor|done]|].
    cbn [app]. rewrite !filter_cons. cbn [isLookup].
    rewrite decide_False, decide_True by done. cbn [length]. by rewrite Hcount.
Qed.

Lemma last_miss_error (e0 : Error) (misses : list LookupAnswer) (m : LookupAnswer) :
  Forall retryableMiss misses ->
  last misses = Some m ->
  committed m = inl (foldl (fun acc m => match committed m with
                                         | inl e => e
                                         | inr _ => acc
                                         end) e0 misses).
Proof.
  destruct misses as [|x l _] using rev_ind; [done|].
  rewrite last_snoc, foldl_app. intros Hall [= ->].
  apply Forall_app in Hall as [_ Hall]. inversion_clear Hall as [|? ? (e & Hm & _) _].
  cbn [foldl]. by rewrite Hm.
Qed.
End ChunkPaths.

(** X12.  A batch inside a transaction that holds more than one request,
    ends in an [EndTransactionRequest] and extends beyond the first range
    the lookup resolves (possibly after lookups that failed retryably) is
    not sent: [sendChunk] returns with [shouldSplitET] set, having issued
    no RPC. *)
Theorem sendChunk_asks_to_split_end_transaction (ops : BatchOps) (fuel : nat)
    (ba : BatchRequest) (w : World) (misses : list LookupAnswer)
    (a : LookupAnswer) (rest : list LookupAnswer) (desc : RangeDescriptor) :
  Txn ba <> None ->
  (1 < length (Requests ba))%nat ->
  from_option isEndTransaction false (last (Requests ba)) = true ->
  lookups w = misses ++ a :: rest ->
  Forall retryableMiss misses ->
  committed a = inr desc ->
  extendsBeyond (IsReverse ops ba) (keys_Range ops ba) desc = true ->
  closerAllows (length misses) (closer w) ->
  (length misses < fuel)%nat ->
  exists pErr w' suffix,
    sendChunk ops fuel ba w = (Done (None, Some pErr, true), w')
    /\ rpcs w' = rpcs w
    /\ lookups w' = rest
    /\ log w' = log w ++ suffix
    /\ Forall (fun e => isRPC e = false) suffix.
Proof.
  intros HTxn Hlen Hlast Hl Hmisses Hfound Hbeyond Hc Hfuel.
  eexists. unfold sendChunk.
  eapply (misses_then_stop ops _ ba _ a rest misses); [|done|exact Hl| |done].
  - intros r w1 Hl1. right.
    by apply (attempt_split_end_transaction ops _ ba _ r w1 a rest desc).
  - by rewrite Nat.add_0_r.
Qed.

Lemma sendChunk_asks_to_split_end_transaction_witness :
  exists pErr w' suffix,
    sendChunk exampleOps 5
      (withTxn (batchOf 0 [OtherRequest "Put" "b" "b"; OtherRequest "Put" "q" "q";
                           EndTransactionRequest "b"]))
      (exampleWorld [firstRangeMissing; found rangeAM; found rangeMZ]
         [inr (replyOf [NoopResponse])])
    = (Done (None, Some pErr, true), w')
    /\ rpcs w' = [inr (replyOf [NoopResponse])]
    /\ lookups w' = [found rangeMZ]
    /\ log w' = [] ++ suffix
    /\ Forall (fun e => isRPC e = false) suffix.
Proof.
  apply (sendChunk_asks_to_split_end_transaction exampleOps 5
           (withTxn (batchOf 0 [OtherRequest "Put" "b" "b"; OtherRequest "Put" "q" "q";
                                EndTransactionRequest "b"]))
           (exampleWorld [firstRangeMissing; found rangeAM; found rangeMZ]
              [inr (replyOf [NoopResponse])])
           [firstRangeMissing] (found rangeAM) [found rangeMZ] rangeAM).
  - discriminate.
  - simpl. lia.
  - reflexivity.
  - reflexivity.
  - constructor; [|constructor]. eexists. split; reflexivity.
  - reflexivity.
  - reflexivity.
  - exact I.
  - simpl. lia.
Defined.

(** X13.  A descriptor lookup that fails with an error that is not
    retryable ends [sendChunk] with that error, whatever retryable lookup
    failures came before it; no RPC is sent. *)
Theorem sendChunk_returns_lookup_error (ops : BatchOps) (fuel : nat)
    (ba : BatchRequest) (w : World) (misses : list LookupAnswer)
    (a : LookupAnswer) (rest : list LookupAnswer) (e : Error) :
  lookups w = misses ++ a :: rest ->
  Forall retryableMiss misses ->
  committed a = inl e ->
  err_Retryable e = false ->
  closerAllows (length misses) (closer w) ->
  (length misses < fuel)%nat ->
  exists w' suffix,
    sendChunk ops fuel ba w = (Done (None, Some e, false), w')
    /\ rpcs w' = rpcs w
    /\ lookups w' = rest
    /\ log w' = log w ++ suffix
    /\ Forall (fun e => isRPC e = false) suffix.
Proof.
  intros Hl Hmisses Hfailed Hfinal Hc Hfuel. unfold sendChunk.
  eapply (misses_then_stop ops _ ba _ a rest misses); [|done|exact Hl| |done].
  - intros r w1 Hl1. left. split; [|done].
    by apply (attempt_lookup_error ops _ ba _ None r w1 a rest e).
  - by rewrite Nat.add_0_r.
Qed.

Lemma sendChunk_returns_lookup_error_witness :
  exists w' suffix,
    sendChunk exampleOps 5 (batchOf 0 [ScanRequest "a" "c" 0])
      (exampleWorld
         [firstRangeMissing;
          {| committed := inl (NewError (PlainErr "lookup failed"));
             uncommitted := inl (NewError (PlainErr "lookup failed"));
             coin := false |};
          found rangeAM]
         [inr (replyOf [ScanResponse (rows 1)])])
    = (Done (None, Some (NewError (PlainErr "lookup failed")), false), w')
    /\ rpcs w' = [inr (replyOf [ScanResponse (rows 1)])]
    /\ lookups w' = [found rangeAM]
    /\ log w' = [] ++ suffix
    /\ Forall (fun e => isRPC e = false) suffix.
Proof.
  apply (sendChunk_returns_lookup_error exampleOps 5
           (batchOf 0 [ScanRequest "a" "c" 0])
           (exampleWorld
              [firstRangeMissing;
               {| committed := inl (NewError (PlainErr "lookup failed"));
                  uncommitted := inl (NewError (PlainErr "lookup failed"));
                  coin := false |};
               found rangeAM]
              [inr (replyOf [ScanResponse (rows 1)])])
           [firstRangeMissing]
           {| committed := inl (NewError (PlainErr "lookup failed"));
              uncommitted := inl (NewError (PlainErr "lookup failed"));
              coin := false |}
           [found rangeAM]).
  - reflexivity.
  - constructor; [|constructor]. eexists. split; reflexivity.
  - reflexivity.
  - reflexivity.
  - exact I.
  - simpl. lia.
Defined.

(** X14.  When descriptor lookups keep failing retryably and the closer
    fires during the backoff wait after one of them, [sendChunk] returns
    the error of that last lookup.  It has made one lookup more than the
    number of waits the closer let pass, and sent no RPC. *)
Theorem sendChunk_closer_returns_last_error (ops : BatchOps) (fuel : nat)
    (ba : BatchRequest) (w : World) (misses rest : list LookupAnswer)
    (m : LookupAnswer) (n : nat) :
  lookups w = misses ++ rest ->
  Forall retryableMiss misses ->
  last misses = Some m ->
  closer w = Some n ->
  length misses = S n ->
  (S (length misses) < fuel)%nat ->
  exists e w' suffix,
    committed m = inl e
    /\ sendChunk ops fuel ba w = (Done (None, Some e, false), w')
    /\ rpcs w' = rpcs w
    /\ lookups w' = rest
    /\ log w' = log w ++ suffix
    /\ Forall (fun e => isRPC e = false) suffix
    /\ length (filter (fun e => isLookup e = true) suffix) = S n.
Proof.
  intros Hl Hmisses Hlast Hc Hlen Hfuel.
  destruct misses as [|m0 misses]; [done|]. cbn [length] in *.
  injection Hlen as <-.
  inversion Hmisses as [|? ? (e0 & Hm0 & Hretry0) Hmisses']; subst.
  destruct fuel as [|fuel]; [lia|].
  unfold sendChunk. cbn [sendChunkLoop].
  change (retryNext retryStart w)
    with (true, {| currentAttempt := 0; isReset := false |}, w).
  cbn beta iota.
  rewrite (attempt_miss ops _ ba _ None _ w m0 (misses ++ rest) e0); [|done..].
  edestruct (closer_cuts_misses ops (IsReverse ops ba) ba (keys_Range ops ba) None
               misses Hmisses' fuel {| currentAttempt := 0; isReset := false |} e0
               (logEvent (EvLookup (lookupKey (IsReverse ops ba) (keys_Range ops ba))
                            false (IsReverse ops ba) false)
                  (setLookups (misses ++ rest) w)) rest)
    as (w' & sfx & Hrun & Hrpc & Hrest & Hlog & Hall & Hcount);
    [done|done|done|lia|].
  eexists _, w', (_ :: sfx). split; [|split; [exact Hrun|]].
  - rewrite (last_miss_error e0 (m0 :: misses) m Hmisses Hlast).
    cbn [foldl]. by rewrite Hm0.
  - split; [by rewrite Hrpc|]. split; [done|].
    split; [rewrite Hlog; cbn; by rewrite <- app_assoc|].
    split; [by constructor|].
    rewrite filter_cons. cbn [isLookup]. rewrite decide_True by done.
    cbn [length]. by rewrite Hcount.
Qed.

Lemma sendChunk_closer_returns_last_error_witness :
  exists e w' suffix,
    committed firstRangeMissing = inl e
    /\ sendChunk exampleOps 5 (batchOf 0 [ScanRequest "a" "c" 0])
         (setCloser (Some 1%nat)
            (exampleWorld [firstRangeMissing; firstRangeMissing; found rangeAM]
               [inr (replyOf [ScanResponse (rows 1)])]))
       = (Done (None, Some e, false), w')
    /\ rpcs w' = [inr (replyOf [ScanResponse (rows 1)])]
    /\ lookups w' = [found rangeAM]
    /\ log w' = [] ++ suffix
    /\ Forall (fun e => isRPC e = false) suffix
    /\ length (filter (fun e => isLookup e = true) suffix) = 2%nat.
Proof.
  apply (sendChunk_closer_returns_last_error exampleOps 5
           (batchOf 0 [ScanRequest "a" "c" 0])
           (setCloser (Some 1%nat)
              (exampleWorld [firstRangeMissing; firstRangeMissing; found rangeAM]
                 [inr (replyOf [ScanResponse (rows 1)])]))
           [firstRangeMissing; firstRangeMissing] [found rangeAM]
           firstRangeMissing 1).
  - reflexivity.
  - repeat constructor; eexists; split; reflexivity.
  - reflexivity.
  - reflexivity.
  - reflexivity.
  - simpl. lia.
Defined.

(** X15.  A batch that is not turned away by the transaction test or the
    [EndTransaction] test, and whose resolved descriptor does not contain
    the part of the span asked for, has that descriptor evicted and the
    lookup retried with no error recorded; when the closer fires during the
    wait before that retry, [sendChunk] returns a node-unavailable error.
    One lookup and one eviction have happened, and no RPC.  The span may
    well extend beyond the descriptor, as in the source's example. *)
Theorem sendChunk_closer_after_stale_descriptor (ops : BatchOps) (fuel : nat)
    (ba : BatchRequest) (w : World) (a : LookupAnswer)
    (rest : list LookupAnswer) (desc : RangeDescriptor) :
  let isReverse := IsReverse ops ba in
  let rs := keys_Range ops ba in
  lookups w = a :: rest ->
  committed a = inr desc ->
  extendsBeyond isReverse rs desc && bool_decide (Txn ba = None)
    && IsPossibleTransaction ops ba
    && negb (isInconsistent (ReadConsistency ba)) = false ->
  extendsBeyond isReverse rs desc
    && (0 <? Z.of_nat (length (Requests ba)) - 1)
    && from_option isEndTransaction false (last (Requests ba)) = false ->
  (if isReverse then ContainsKeyRange ops desc (StartKey desc) (rs_EndKey rs)
   else ContainsKeyRange ops desc (rs_Key rs) (EndKey desc)) = false ->
  closer w = Some O ->
  sendChunk ops (S (S fuel)) ba w
  = (Done (None, Some (NewError NodeUnavailableError), false),
     evictDesc (lookupKey isReverse rs) desc isReverse
       (logEvent (EvLookup (lookupKey isReverse rs) false isReverse false)
          (setLookups rest w))).
Proof.
  intros isReverse rs Hl Hfound Htxn Hsplit Hstale Hc.
  unfold sendChunk. fold isReverse rs. cbn [sendChunkLoop].
  change (retryNext retryStart w)
    with (true, {| currentAttempt := 0; isReset := false |}, w).
  cbn beta iota.
  unfold attempt, getDescriptors, LookupRangeDescriptor.
  rewrite Hl. cbn [andb]. rewrite Hfound.
  fold (extendsBeyond isReverse rs desc) (lookupKey isReverse rs).
  rewrite (bool_decide_eq_true_2 (@None BatchResponse = None)) by done.
  rewrite !andb_true_r, Htxn, Hsplit.
  replace (isReverse && negb (ContainsKeyRange ops desc (StartKey desc) (rs_EndKey rs))
           || negb isReverse
              && negb (ContainsKeyRange ops desc (rs_Key rs) (EndKey desc)))
    with true by (destruct isReverse; rewrite Hstale; done).
  unfold retryNext, afterClosedLoop, evictDesc. simpl. rewrite Hc. simpl.
  by rewrite Hc.
Qed.

Lemma sendChunk_closer_after_stale_descriptor_witness :
  extendsBeyond false {| rs_Key := "a"; rs_EndKey := "z" |} rangeCD = true
  /\ sendChunk exampleOps 2 (withTxn (batchOf 0 [ScanRequest "a" "z" 0]))
       (setCloser (Some O) (exampleWorld [found rangeCD; found rangeAM]
                              [inr (replyOf [ScanResponse (rows 1)])]))
     = (Done (None, Some (NewError NodeUnavailableError), false),
        evictDesc "a" rangeCD false
          (logEvent (EvLookup "a" false false false)
             (setLookups [found rangeAM]
                (setCloser (Some O) (exampleWorld [found rangeCD; found rangeAM]
                                       [inr (replyOf [ScanResponse (rows 1)])]))))).
Proof.
  split; [reflexivity|].
  apply (sendChunk_closer_after_stale_descriptor exampleOps 0
           (withTxn (batchOf 0 [ScanRequest "a" "z" 0]))
           (setCloser (Some O) (exampleWorld [found rangeCD; found rangeAM]
                                  [inr (replyOf [ScanResponse (rows 1)])]))
           (found rangeCD) [found rangeAM] rangeCD); reflexivity.
Defined.

(** * The choice of replicas for one range *)

Section ReplicaChoice.

Lemma MoveToFront_Permutation (i : Z) (rs : ReplicaSlice) : MoveToFront i rs ≡ₚ rs.
Proof.
  unfold MoveToFront, ReplicaSlice in *.
  destruct (rs !! Z.to_nat i) eqn:Hi; [|done].
  symmetry. by apply delete_Permutation.
Qed.

Lemma optimizeReplicaOrder_Permutation (nodeDesc : option NodeDescriptor)
    (replicas : ReplicaSlice) :
  (optimizeReplicaOrder nodeDesc replicas).1 ≡ₚ replicas.
Proof.
  unfold optimizeReplicaOrder. destruct nodeDesc as [nodeDesc|]; [|done].
  pose proof (SortByCommonAttributePrefix_Permutation (nd_Attrs nodeDesc) replicas)
    as Hsort.
  destruct (SortByCommonAttributePrefix (nd_Attrs nodeDesc) replicas)
    as [sorted n]. simpl in Hsort.
  case_match; simpl; [|done].
  by rewrite MoveToFront_Permutation.
Qed.

Lemma MoveToFront_found (p : ReplicaInfo -> bool) (rs : ReplicaSlice) :
  0 <= findIndex p rs ->
  exists r, head (MoveToFront (findIndex p rs) rs) = Some r /\ p r = true.
Proof.
  intros Hfound. destruct (findIndex_range p rs) as [Hnone|[_ (x & Hx & Hp)]]; [lia|].
  exists x. unfold MoveToFront, ReplicaSlice in *. by rewrite Hx.
Qed.

(** The replicas and the policy [sendSingleRange] hands to [sendRPC]. *)
Lemma sendSingleRange_choice (ops : BatchOps) (ba : BatchRequest)
    (desc : RangeDescriptor) (w : World) :
  exists replicas order,
    replicas ≡ₚ newReplicaSlice (gossip w) desc
    /\ sendSingleRange ops ba desc w
       = match sendRPC (RangeID desc) replicas order ba
                 (setNodeDescriptor
                    (getNodeDescriptor (nodeDescriptor w) (gossip w)).2 w) with
         | None => None
         | Some (inl pErr, w') => Some (inl pErr, w')
         | Some (inr br, w') =>
             match h_Error (br_Header br) with
             | Some pErr => Some (inl pErr, w')
             | None => Some (inr (scrubError br), w')
             end
         end
    /\ (IsReadOnly ops ba && isInconsistent (ReadConsistency ba) = false ->
        0 < StoreID (leaderCacheLookup (RangeID desc) w) ->
        (exists r, r ∈ newReplicaSlice (gossip w) desc
                   /\ StoreID (ri_Replica r)
                      = StoreID (leaderCacheLookup (RangeID desc) w)) ->
        order = orderStable
        /\ exists r, head replicas = Some r
                     /\ StoreID (ri_Replica r)
                        = StoreID (leaderCacheLookup (RangeID desc) w)).
Proof.
  unfold sendSingleRange.
  destruct (getNodeDescriptor (nodeDescriptor w) (gossip w)) as [nodeDesc cached].
  pose proof (optimizeReplicaOrder_Permutation nodeDesc
                (newReplicaSlice (gossip w) desc)) as Hperm.
  destruct (optimizeReplicaOrder nodeDesc (newReplicaSlice (gossip w) desc))
    as [replicas order]. simpl in Hperm.
  change (leaderCacheLookup (RangeID desc) (setNodeDescriptor cached w))
    with (leaderCacheLookup (RangeID desc) w).
  set (leader := leaderCacheLookup (RangeID desc) w).
  destruct (IsReadOnly ops ba && isInconsistent (ReadConsistency ba)) eqn:Hread;
    cbn [negb andb].
  { exists replicas, order. by split_and!. }
  destruct (0 <? StoreID leader) eqn:Hknown.
  2:{ exists replicas, order. split_and!; [done..|]. intros _ ?. lia. }
  destruct (0 <=? FindReplica (StoreID leader) replicas) eqn:Hpresent.
  - exists (MoveToFront (FindReplica (StoreID leader) replicas) replicas), orderStable.
    split; [by rewrite MoveToFront_Permutation|]. split; [done|].
    intros _ _ _. split; [done|].
    destruct (MoveToFront_found (fun r => StoreID (ri_Replica r) =? StoreID leader)
                replicas) as (r & Hhead & Hr); [unfold FindReplica in Hpresent; lia|].
    exists r. split; [exact Hhead|lia].
  - exists replicas, order. split_and!; [done..|].
    intros _ _ (r & Hin & Hr). exfalso.
    assert (0 <= FindReplica (StoreID leader) replicas); [|lia].
    apply (findIndex_found _ _ r); [by rewrite Hperm|lia].
Qed.
End ReplicaChoice.

(** X16.  When gossip resolves none of the range's replicas,
    [sendSingleRange] fails with the retryable "no node addresses" error:
    no RPC is attempted, and nothing but the cached node descriptor can
    have changed. *)
Theorem sendSingleRange_without_addresses (ops : BatchOps) (ba : BatchRequest)
    (desc : RangeDescriptor) (w : World) :
  newReplicaSlice (gossip w) desc = [] ->
  exists pErr cached,
    sendSingleRange ops ba desc w = Some (inl pErr, setNodeDescriptor cached w)
    /\ err_Detail pErr = noNodeAddrsAvailError
    /\ err_Retryable pErr = true.
Proof.
  intros Hnone.
  destruct (sendSingleRange_choice ops ba desc w)
    as (replicas & order & Hperm & -> & _).
  rewrite Hnone in Hperm. apply Permutation_nil_r in Hperm as ->.
  by eexists _, _.
Qed.

Lemma sendSingleRange_without_addresses_witness :
  exists pErr cached,
    sendSingleRange exampleOps (batchOf 0 [ScanRequest "a" "c" 0])
      {| RangeID := 9; StartKey := "a"; EndKey := "m";
         Replicas := [replicaOn 7; replicaOn 8] |}
      (exampleWorld [] [inr (replyOf [ScanResponse (rows 1)])])
    = Some (inl pErr,
            setNodeDescriptor cached
              (exampleWorld [] [inr (replyOf [ScanResponse (rows 1)])]))
    /\ err_Detail pErr = noNodeAddrsAvailError
    /\ err_Retryable pErr = true.
Proof.
  apply (sendSingleRange_without_addresses exampleOps
           (batchOf 0 [ScanRequest "a" "c" 0])
           {| RangeID := 9; StartKey := "a"; EndKey := "m";
              Replicas := [replicaOn 7; replicaOn 8] |}
           (exampleWorld [] [inr (replyOf [ScanResponse (rows 1)])])).
  reflexivity.
Defined.

(** X17.  When gossip resolves at least one replica, a call of
    [sendSingleRange] that returns has issued exactly one RPC: it carries
    the batch stamped with the range's identifier, consumes one answer of
    [rpcSend], and addresses the resolved replicas, all of them and each
    once, in some order. *)
Theorem sendSingleRange_sends_to_resolved_replicas (ops : BatchOps)
    (ba : BatchRequest) (desc : RangeDescriptor) (w : World)
    (res : Error + BatchResponse) (w' : World) :
  newReplicaSlice (gossip w) desc <> [] ->
  sendSingleRange ops ba desc w = Some (res, w') ->
  exists order replicas answer,
    log w' = log w ++ [EvRPC order replicas (setRangeID (RangeID desc) ba)]
    /\ replicas ≡ₚ newReplicaSlice (gossip w) desc
    /\ rpcs w = answer :: rpcs w'.
Proof.
  intros Hsome.
  destruct (sendSingleRange_choice ops ba desc w)
    as (replicas & order & Hperm & -> & _).
  unfold sendRPC.
  destruct (Z.of_nat (length replicas) =? 0) eqn:Hlen.
  { destruct replicas; [|simpl in Hlen; lia].
    symmetry in Hperm. by apply Permutation_nil_r in Hperm. }
  cbn [rpcs setNodeDescriptor].
  destruct (rpcs w) as [|answer rest] eqn:Hrpcs; [done|].
  intros Hres. exists order, replicas, answer.
  destruct answer as [err|br]; [|destruct (h_Error (br_Header br))];
    injection Hres as <- <-; by split_and!.
Qed.

Lemma sendSingleRange_sends_to_resolved_replicas_witness :
  exists res w',
    sendSingleRange exampleOps (batchOf 0 [ScanRequest "a" "c" 0]) rangeAM
      (exampleWorld [] [inr (replyOf [ScanResponse (rows 1)])])
    = Some (res, w')
    /\ exists order replicas answer,
    log w' = [] ++ [EvRPC order replicas
                         (setRangeID 1 (batchOf 0 [ScanRequest "a" "c" 0]))]
    /\ replicas ≡ₚ newReplicaSlice (Some exampleGossip) rangeAM
    /\ [inr (replyOf [ScanResponse (rows 1)])] = answer :: rpcs w'.
Proof.
  destruct (sendSingleRange exampleOps (batchOf 0 [ScanRequest "a" "c" 0]) rangeAM
              (exampleWorld [] [inr (replyOf [ScanResponse (rows 1)])]))
    as [[res w']|] eqn:Hrun; [|vm_compute in Hrun; discriminate].
  exists res, w'. split; [reflexivity|].
  apply (sendSingleRange_sends_to_resolved_replicas exampleOps
           (batchOf 0 [ScanRequest "a" "c" 0]) rangeAM
           (exampleWorld [] [inr (replyOf [ScanResponse (rows 1)])]) res w').
  - vm_compute. discriminate.
  - exact Hrun.
Defined.

(** X18.  A request that has to go to the leader (anything but an
    inconsistent read-only batch) is sent with the cached leader's replica
    at the head of the list and with the stable ordering policy, whenever
    the leader cache knows a leader for the range and gossip resolves its
    replica. *)
Theorem sendSingleRange_cached_leader_first (ops : BatchOps)
    (ba : BatchRequest) (desc : RangeDescriptor) (w : World)
    (res : Error + BatchResponse) (w' : World) (r : ReplicaInfo) :
  IsReadOnly ops ba && isInconsistent (ReadConsistency ba) = false ->
  0 < StoreID (leaderCacheLookup (RangeID desc) w) ->
  r ∈ newReplicaSlice (gossip w) desc ->
  StoreID (ri_Replica r) = StoreID (leaderCacheLookup (RangeID desc) w) ->
  sendSingleRange ops ba desc w = Some (res, w') ->
  exists first others,
    log w' = log w ++ [EvRPC orderStable (first :: others)
                         (setRangeID (RangeID desc) ba)]
    /\ StoreID (ri_Replica first) = StoreID (leaderCacheLookup (RangeID desc) w).
Proof.
  intros Hlead Hknown Hin Hr.
  destruct (sendSingleRange_choice ops ba desc w)
    as (replicas & order & Hperm & -> & Hleader).
  destruct Hleader as (-> & first & Hhead & Hfirst); [done|done|by exists r|].
  destruct replicas as [|first' others]; [done|]. injection Hhead as ->.
  unfold sendRPC.
  destruct (Z.of_nat (length (first :: others)) =? 0) eqn:Hlen;
    [apply Z.eqb_eq in Hlen; cbn [length] in Hlen; lia|].
  cbn [rpcs setNodeDescriptor].
  destruct (rpcs w) as [|answer rest]; [done|].
  intros Hres. exists first, others.
  destruct answer as [err|br]; [|destruct (h_Error (br_Header br))];
    injection Hres as <- <-; by split.
Qed.

Lemma sendSingleRange_cached_leader_first_witness :
  exists res w',
    sendSingleRange exampleOps (batchOf 0 [OtherRequest "Put" "b" "b"]) rangeAM
      (setLeaderCache (<[1 := replicaOn 3]> ∅)
         (exampleWorld [] [inr (replyOf [OtherResponse "Put" "ok"])]))
    = Some (res, w')
    /\ exists first others,
    log w' = [] ++ [EvRPC orderStable (first :: others)
                         (setRangeID 1 (batchOf 0 [OtherRequest "Put" "b" "b"]))]
    /\ StoreID (ri_Replica first)
       = StoreID (leaderCacheLookup 1
                    (setLeaderCache (<[1 := replicaOn 3]> ∅)
                       (exampleWorld [] [inr (replyOf [OtherResponse "Put" "ok"])]))).
Proof.
  destruct (sendSingleRange exampleOps (batchOf 0 [OtherRequest "Put" "b" "b"]) rangeAM
              (setLeaderCache (<[1 := replicaOn 3]> ∅)
                 (exampleWorld [] [inr (replyOf [OtherResponse "Put" "ok"])])))
    as [[res w']|] eqn:Hrun; [|vm_compute in Hrun; discriminate].
  exists res, w'. split; [reflexivity|].
  apply (sendSingleRange_cached_leader_first exampleOps
           (batchOf 0 [OtherRequest "Put" "b" "b"]) rangeAM
           (setLeaderCache (<[1 := replicaOn 3]> ∅)
              (exampleWorld [] [inr (replyOf [OtherResponse "Put" "ok"])]))
           res w'
           {| ri_Replica := replicaOn 3; ri_NodeDesc := nodeAt 3 "n3:26257" |}).
  - reflexivity.
  - reflexivity.
  - vm_compute. do 2 apply list_elem_of_further. apply list_elem_of_here.
  - reflexivity.
  - exact Hrun.
Defined.

(** X19.  [optimizeReplicaOrder] only reorders: the slice it leaves holds
    the same replicas, each as often as before; without a node descriptor
    it leaves the slice as it is and asks for random ordering. *)
Theorem optimizeReplicaOrder_permutes (nodeDesc : option NodeDescriptor)
    (replicas : ReplicaSlice) :
  (optimizeReplicaOrder nodeDesc replicas).1 ≡ₚ replicas
  /\ optimizeReplicaOrder None replicas = (replicas, orderRandom).
Proof. split; [apply optimizeReplicaOrder_Permutation|done]. Qed.

(** X20.  When one of the replicas lives on the sender's own node,
    [optimizeReplicaOrder] leaves a replica of that node at the head of the
    slice. *)
Theorem optimizeReplicaOrder_puts_local_replica_first (nodeDesc : NodeDescriptor)
    (replicas : ReplicaSlice) (r : ReplicaInfo) :
  r ∈ replicas ->
  NodeID (ri_Replica r) = nd_NodeID nodeDesc ->
  exists first others,
    (optimizeReplicaOrder (Some nodeDesc) replicas).1 = first :: others
    /\ NodeID (ri_Replica first) = nd_NodeID nodeDesc.
Proof.
  intros Hin Hlocal.
  destruct (optimizeReplicaOrder_local_front nodeDesc replicas r Hin Hlocal)
    as (first & Hhead & Hfirst).
  destruct (optimizeReplicaOrder (Some nodeDesc) replicas).1 as [|x others];
    [done|].
  injection Hhead as ->. by exists first, others.
Qed.

Lemma optimizeReplicaOrder_puts_local_replica_first_witness :
  exists first others,
    (optimizeReplicaOrder (Some (nodeAt 3 "n3:26257"))
       (newReplicaSlice (Some exampleGossip) rangeAM)).1 = first :: others
    /\ NodeID (ri_Replica first) = nd_NodeID (nodeAt 3 "n3:26257").
Proof.
  apply (optimizeReplicaOrder_puts_local_replica_first (nodeAt 3 "n3:26257")
           (newReplicaSlice (Some exampleGossip) rangeAM)
           {| ri_Replica := replicaOn 3; ri_NodeDesc := nodeAt 3 "n3:26257" |}).
  - vm_compute. do 2 apply list_elem_of_further. apply list_elem_of_here.
  - reflexivity.
Defined.

(** X21.  Once [getNodeDescriptor] has found the node descriptor it is
    cached: every later call returns the same descriptor, whatever gossip
    holds by then, even if gossip is gone. *)
Theorem getNodeDescriptor_caches (cached : option NodeDescriptor)
    (gossip gossip' : option Gossip) (desc : NodeDescriptor)
    (cached' : option NodeDescriptor) :
  getNodeDescriptor cached gossip = (Some desc, cached') ->
  cached' = Some desc
  /\ getNodeDescriptor cached' gossip' = (Some desc, cached').
Proof.
  unfold getNodeDescriptor at 1. intros Hfound.
  assert (cached' = Some desc) as ->; [|done].
  destruct cached as [d|]; [by injection Hfound as -> <-|].
  destruct gossip as [g|]; [|done].
  destruct (0 <? g_NodeID g); [|done].
  destruct (g_Nodes g !! g_NodeID g); [|done].
  by injection Hfound as -> <-.
Qed.

Lemma getNodeDescriptor_caches_witness :
  (getNodeDescriptor None (Some exampleGossip)).2 = Some (nodeAt 1 "n1:26257")
  /\ getNodeDescriptor (getNodeDescriptor None (Some exampleGossip)).2 None
     = (Some (nodeAt 1 "n1:26257"), (getNodeDescriptor None (Some exampleGossip)).2).
Proof.
  apply (getNodeDescriptor_caches None (Some exampleGossip) None).
  vm_compute. reflexivity.
Defined.

(** X22.  A call of [getNodeDescriptor] that finds nothing leaves the cache
    empty, so that the next call asks gossip again. *)
Theorem getNodeDescriptor_failure_caches_nothing (cached : option NodeDescriptor)
    (gossip : option Gossip) (cached' : option NodeDescriptor) :
  getNodeDescriptor cached gossip = (None, cached') ->
  cached = None /\ cached' = None
  /\ forall gossip', getNodeDescriptor cached' gossip'
                     = getNodeDescriptor None gossip'.
Proof.
  unfold getNodeDescriptor at 1. intros Hnone.
  destruct cached as [d|]; [done|]. split; [done|].
  assert (cached' = None) as ->; [|done].
  destruct gossip as [g|]; [|by injection Hnone].
  destruct (0 <? g_NodeID g); [|by injection Hnone].
  destruct (g_Nodes g !! g_NodeID g); [done|by injection Hnone].
Qed.

Lemma getNodeDescriptor_failure_caches_nothing_witness :
  @None NodeDescriptor = None /\ @None NodeDescriptor = None
  /\ forall gossip', getNodeDescriptor None gossip' = getNodeDescriptor None gossip'.
Proof.
  apply (getNodeDescriptor_failure_caches_nothing None
           (Some {| g_NodeID := 0; g_Nodes := ∅ |}) None).
  reflexivity.
Defined.

(** * The masking loop and the limit check *)

Lemma maskSaturated_spec (curResponses : list Response) :
  forall (k i : nat) (reqs : list Request) (needAnother : bool) reqs' needAnother',
    maskSaturated k i reqs curResponses needAnother = inr (reqs', needAnother') ->
    (i + k)%nat = length reqs ->
    (forall j, (j < i)%nat -> reqs' !! j = reqs !! j)
    /\ needAnother' = needAnother || existsb isActive (drop i reqs').
Proof.
  induction k as [|k IH]; intros i reqs na reqs' na'; cbn [maskSaturated].
  { intros [= <- <-] Hlen. split; [done|].
    rewrite drop_ge by lia. by rewrite orb_false_r. }
  intros Hrun Hlen.
  assert (forall reqs1 na1 x,
            maskSaturated k (S i) reqs1 curResponses na1 = inr (reqs', na') ->
            length reqs1 = length reqs ->
            (forall j, (j < i)%nat -> reqs1 !! j = reqs !! j) ->
            reqs1 !! i = Some x ->
            na1 = na || isActive x ->
            (forall j, (j < i)%nat -> reqs' !! j = reqs !! j)
            /\ na' = na || existsb isActive (drop i reqs')) as Hstep.
  { intros reqs1 na1 x Hrec Hlen1 Hbefore Hx Hna1.
    destruct (IH (S i) reqs1 na1 reqs' na' Hrec) as [Hkeep ->]; [lia|].
    split; [intros j Hj; rewrite Hkeep by lia; by apply Hbefore|].
    assert (reqs' !! i = Some x) as Hi by (rewrite Hkeep by lia; done).
    rewrite (drop_S _ _ _ Hi). cbn [existsb]. by rewrite Hna1, orb_assoc. }
  assert (i < length reqs)%nat as Hi by lia.
  assert (forall x, <[i := x]> reqs !! i = Some x) as Hset
    by (intros x; by apply list_lookup_insert_eq).
  assert (forall x j, (j < i)%nat -> <[i := x]> reqs !! j = reqs !! j) as Hother
    by (intros x j Hj; apply list_lookup_insert_ne; lia).
  destruct (reqs !! i) as [req|] eqn:Hreq; [|done].
  destruct req as [key endKey prevBound|key endKey prevBound| | |].
  - destruct (curResponses !! i) as [resp|]; [|done].
    destruct (Count resp) as [count|];
      [|by apply (Hstep reqs true (ScanRequest key endKey prevBound));
           rewrite ?orb_true_r].
    destruct (prevBound <=? 0);
      [by apply (Hstep reqs true (ScanRequest key endKey prevBound));
          rewrite ?orb_true_r|].
    destruct (prevBound - count <=? 0).
    + apply (Hstep _ na NoopRequest Hrun); rewrite ?length_insert, ?orb_false_r;
        auto.
    + apply (Hstep _ true (ScanRequest key endKey (prevBound - count)) Hrun);
        rewrite ?length_insert, ?orb_true_r; auto.
  - destruct (curResponses !! i) as [resp|]; [|done].
    destruct (Count resp) as [count|];
      [|by apply (Hstep reqs true (ReverseScanRequest key endKey prevBound));
           rewrite ?orb_true_r].
    destruct (prevBound <=? 0);
      [by apply (Hstep reqs true (ReverseScanRequest key endKey prevBound));
          rewrite ?orb_true_r|].
    destruct (prevBound - count <=? 0).
    + apply (Hstep _ na NoopRequest Hrun); rewrite ?length_insert, ?orb_false_r;
        auto.
    + apply (Hstep _ true (ReverseScanRequest key endKey (prevBound - count)) Hrun);
        rewrite ?length_insert, ?orb_true_r; auto.
  - by apply (Hstep reqs na NoopRequest); rewrite ?orb_false_r.
  - eapply (Hstep reqs true);
      [exact Hrun|done|done|exact Hreq|cbn; by rewrite orb_true_r].
  - eapply (Hstep reqs true);
      [exact Hrun|done|done|exact Hreq|cbn; by rewrite orb_true_r].
Qed.

(** X23.  The masking loop of [sendChunk], run over a whole batch, asks for
    another range exactly when it leaves a request that is not a no-op:
    once every request is saturated or masked, the remaining ranges are not
    visited. *)
Theorem maskSaturated_continues_iff_active (curResponses : list Response)
    (reqs reqs' : list Request) (needAnother' : bool) :
  maskSaturated (length reqs) 0 reqs curResponses false = inr (reqs', needAnother') ->
  length reqs' = length reqs
  /\ needAnother' = existsb isActive reqs'.
Proof.
  intros Hrun. split; [by apply maskSaturated_length in Hrun|].
  by apply maskSaturated_spec in Hrun as [_ ->].
Qed.

Lemma maskSaturated_continues_iff_active_witness :
  length [NoopRequest; ScanRequest "n" "q" 2] = length [ScanRequest "a" "z" 3; ScanRequest "n" "q" 2]
  /\ true = existsb isActive [NoopRequest; ScanRequest "n" "q" 2].
Proof.
  apply (maskSaturated_continues_iff_active
           [ScanResponse (rows 3); NoopResponse]
           [ScanRequest "a" "z" 3; ScanRequest "n" "q" 2]).
  reflexivity.
Defined.

Lemma scanDirections_scans (reqs : list Request) (fwd rev : bool) :
  forallb (fun r => isScan r || isReverseScan r) reqs = true ->
  scanDirections reqs fwd rev
  = inr (fwd || existsb isScan reqs, rev || existsb isReverseScan reqs).
Proof.
  revert fwd rev; induction reqs as [|req reqs IH]; intros fwd rev Hall.
  - by rewrite !orb_false_r.
  - destruct req; try done; cbn in Hall |- *; rewrite (IH _ _ Hall);
      by rewrite ?orb_true_r, ?orb_false_r.
Qed.

Lemma one_direction (reqs : list Request) :
  forallb (fun r => isScan r || isReverseScan r) reqs
  && negb (existsb isScan reqs && existsb isReverseScan reqs)
  = forallb isScan reqs || forallb isReverseScan reqs.
Proof.
  assert (forall l, forallb isScan l = true -> existsb isReverseScan l = false)
    as Hfwd by (induction l as [|[] l IH]; simpl; intros; auto; done).
  assert (forall l, forallb isReverseScan l = true -> existsb isScan l = false)
    as Hrev by (induction l as [|[] l IH]; simpl; intros; auto; done).
  assert (forall l, forallb isScan l = true ->
            forallb (fun r => isScan r || isReverseScan r) l = true) as Hfa
    by (induction l as [|[] l IH]; simpl; intros; auto; done).
  assert (forall l, forallb isReverseScan l = true ->
            forallb (fun r => isScan r || isReverseScan r) l = true) as Hra
    by (induction l as [|[] l IH]; simpl; intros; auto; done).
  assert (forall l, forallb (fun r => isScan r || isReverseScan r) l = true ->
            existsb isReverseScan l = false -> forallb isScan l = true) as Hf
    by (induction l as [|[] l IH]; simpl; intros; auto; done).
  assert (forall l, forallb (fun r => isScan r || isReverseScan r) l = true ->
            existsb isScan l = false -> forallb isReverseScan l = true) as Hr
    by (induction l as [|[] l IH]; simpl; intros; auto; done).
  destruct (forallb isScan reqs) eqn:H1.
  { by rewrite (Hfa _ H1), (Hfwd _ H1), andb_false_r. }
  destruct (forallb isReverseScan reqs) eqn:H2.
  { by rewrite (Hra _ H2), (Hrev _ H2). }
  destruct (forallb (fun r => isScan r || isReverseScan r) reqs) eqn:H3; [|done].
  destruct (existsb isScan reqs) eqn:H4;
    [|by rewrite (Hr _ H3 H4) in H2].
  destruct (existsb isReverseScan reqs) eqn:H5; [done|].
  by rewrite (Hf _ H3 H5) in H1.
Qed.

(** X24.  The limit check of [Send] lets a batch pass exactly when it has
    no limit, or holds forward scans only, or holds reverse scans only. *)
Theorem checkLimit_accepts_one_direction (ba : BatchRequest) :
  checkLimit ba = None
  <-> MaxScanResults ba = 0
      \/ forallb isScan (Requests ba) = true
      \/ forallb isReverseScan (Requests ba) = true.
Proof.
  unfold checkLimit.
  destruct (MaxScanResults ba =? 0) eqn:Hlimit; cbn [negb].
  { split; [left; lia|done]. }
  pose proof (one_direction (Requests ba)) as Hone.
  destruct (forallb (fun r => isScan r || isReverseScan r) (Requests ba)) eqn:Hall.
  - rewrite (scanDirections_scans _ false false Hall). cbn [orb andb] in *.
    destruct (existsb isScan (Requests ba) && existsb isReverseScan (Requests ba));
      cbn [negb] in Hone; symmetry in Hone.
    + apply orb_false_iff in Hone as [H1 H2].
      split; [done|intros [?|[?|?]]; [lia|congruence..]].
    + apply orb_true_iff in Hone. split; [intros _; by right|done].
  - cbn [andb] in Hone. symmetry in Hone. apply orb_false_iff in Hone as [H1 H2].
    assert (exists req, req ∈ Requests ba
                        /\ isScan req = false /\ isReverseScan req = false)
      as (req & Hin & Hs & Hr).
    { clear -Hall. induction (Requests ba) as [|req l IH]; [done|].
      cbn in Hall. apply andb_false_iff in Hall as [Hreq|Hl].
      - exists req. apply orb_false_iff in Hreq as [? ?].
        split; [apply list_elem_of_here|done].
      - destruct (IH Hl) as (x & ? & ?). exists x.
        split; [by apply list_elem_of_further|done]. }
    destruct (scanDirections_other _ false false req Hin Hs Hr) as [msg ->].
    split; [done|intros [?|[?|?]]; [lia|congruence..]].
Qed.

(** X25.  [Send] panics on a batch without requests, before any lookup or
    RPC. *)
Theorem Send_empty_batch_panics (ops : BatchOps) (fuel : nat)
    (ba : BatchRequest) (w : World) :
  Requests ba = [] ->
  exists w',
    Send ops fuel ba w = (Panic "empty batch", w')
    /\ log w' = log w /\ lookups w' = lookups w /\ rpcs w' = rpcs w.
Proof.
  intros Hempty. unfold Send.
  destruct (prepareBatch ba w) as [ba' w'] eqn:Hprep.
  apply prepareBatch_keeps in Hprep as (Hreqs & _ & Hlog & Hlookups & Hrpcs).
  rewrite Hreqs, Hempty. exists w'. by split_and!.
Qed.

Lemma Send_empty_batch_panics_witness :
  exists w',
    Send exampleOps 5 (withTxn emptyBatch)
      (exampleWorld [found rangeAM] [inr (replyOf [])])
    = (Panic "empty batch", w')
    /\ log w' = [] /\ lookups w' = [found rangeAM] /\ rpcs w' = [inr (replyOf [])].
Proof.
  apply (Send_empty_batch_panics exampleOps 5 (withTxn emptyBatch)
           (exampleWorld [found rangeAM] [inr (replyOf [])])).
  reflexivity.
Defined.

(** * Construction of the sender *)

(** X26.  Whatever the context holds, or without one, the sender built by
    [NewDistSender] has caches of positive size, a range lookup bound
    between zero and the default, and the gossip handle it was given. *)
Theorem NewDistSender_sizes (ctx : option DistSenderContext)
    (gossip : option Gossip) :
  0 < ds_rangeCacheSize (NewDistSender ctx gossip)
  /\ 0 < ds_leaderCacheSize (NewDistSender ctx gossip)
  /\ 0 <= ds_rangeLookupMaxRanges (NewDistSender ctx gossip)
     <= defaultRangeLookupMaxRanges
  /\ ds_gossip (NewDistSender ctx gossip) = gossip.
Proof.
  unfold NewDistSender.
  cbn [ds_rangeCacheSize ds_leaderCacheSize ds_rangeLookupMaxRanges ds_gossip].
  assert (0 < defaultRangeDescriptorCacheSize) by done.
  assert (0 < defaultLeaderCacheSize) by done.
  assert (0 <= defaultRangeLookupMaxRanges) by done.
  repeat match goal with
         | |- context [?a <=? 0] => destruct (Z.leb_spec a 0)
         end; split_and!; (done || lia).
Qed.

(** X27.  A context that sets a positive [RangeLookupMaxRanges] does not
    get that value into the sender, nor the default: the field keeps its
    zero value.  Positive cache sizes are taken over. *)
Theorem NewDistSender_lookup_bound_not_copied (ctx : DistSenderContext)
    (gossip : option Gossip) :
  0 < RangeLookupMaxRanges ctx ->
  0 < RangeDescriptorCacheSize ctx ->
  0 < LeaderCacheSize ctx ->
  ds_rangeLookupMaxRanges (NewDistSender (Some ctx) gossip) = 0
  /\ ds_rangeCacheSize (NewDistSender (Some ctx) gossip)
     = RangeDescriptorCacheSize ctx
  /\ ds_leaderCacheSize (NewDistSender (Some ctx) gossip) = LeaderCacheSize ctx.
Proof.
  intros Hlookup Hrange Hleader. unfold NewDistSender.
  cbn [ds_rangeCacheSize ds_leaderCacheSize ds_rangeLookupMaxRanges].
  repeat match goal with
         | |- context [?a <=? 0] => destruct (Z.leb_spec a 0); [lia|]
         end.
  done.
Qed.

Lemma NewDistSender_lookup_bound_not_copied_witness :
  ds_rangeLookupMaxRanges (NewDistSender (Some (sizedContext 100 20 50)) None) = 0
  /\ ds_rangeCacheSize (NewDistSender (Some (sizedContext 100 20 50)) None)
     = RangeDescriptorCacheSize (sizedContext 100 20 50)
  /\ ds_leaderCacheSize (NewDistSender (Some (sizedContext 100 20 50)) None)
     = LeaderCacheSize (sizedContext 100 20 50).
Proof.
  apply (NewDistSender_lookup_bound_not_copied (sizedContext 100 20 50) None);
    reflexivity.
Defined.

(** X28.  A node descriptor given in the context is what
    [getNodeDescriptor] returns for the new sender, without a look at
    gossip, and [optimizeReplicaOrder] then puts a replica of that node
    first. *)
Theorem NewDistSender_node_descriptor (ctx : DistSenderContext)
    (gossip gossip' : option Gossip) (desc : NodeDescriptor)
    (replicas : ReplicaSlice) (r : ReplicaInfo) :
  ctx_nodeDescriptor ctx = Some desc ->
  r ∈ replicas ->
  NodeID (ri_Replica r) = nd_NodeID desc ->
  let ds := NewDistSender (Some ctx) gossip in
  getNodeDescriptor (ds_nodeDescriptor ds) gossip' = (Some desc, Some desc)
  /\ exists first others,
       (optimizeReplicaOrder
          (getNodeDescriptor (ds_nodeDescriptor ds) gossip').1 replicas).1
       = first :: others
       /\ NodeID (ri_Replica first) = nd_NodeID desc.
Proof.
  intros Hdesc Hin Hlocal ds.
  assert (getNodeDescriptor (ds_nodeDescriptor ds) gossip' = (Some desc, Some desc))
    as Hget by (subst ds; cbn; by rewrite Hdesc).
  split; [exact Hget|]. rewrite Hget. cbn [fst].
  destruct (optimizeReplicaOrder_local_front desc replicas r Hin Hlocal)
    as (first & Hhead & Hfirst).
  destruct (optimizeReplicaOrder (Some desc) replicas).1 as [|x others]; [done|].
  injection Hhead as ->. by exists first, others.
Qed.

Lemma NewDistSender_node_descriptor_witness :
  getNodeDescriptor
    (ds_nodeDescriptor (NewDistSender (Some (nodeContext (nodeAt 2 "n2:26257"))) None))
    None
  = (Some (nodeAt 2 "n2:26257"), Some (nodeAt 2 "n2:26257"))
  /\ exists first others,
       (optimizeReplicaOrder
          (getNodeDescriptor
             (ds_nodeDescriptor
                (NewDistSender (Some (nodeContext (nodeAt 2 "n2:26257"))) None))
             None).1 twoReplicas).1
       = first :: others
       /\ NodeID (ri_Replica first) = nd_NodeID (nodeAt 2 "n2:26257").
Proof.
  apply (NewDistSender_node_descriptor (nodeContext (nodeAt 2 "n2:26257")) None None
           (nodeAt 2 "n2:26257") twoReplicas
           {| ri_Replica := {| NodeID := 2; StoreID := 2; ReplicaID := 2 |};
              ri_NodeDesc := {| nd_NodeID := 2; nd_Address := "n2:26257";
                                nd_Attrs := [] |} |}).
  - reflexivity.
  - apply list_elem_of_further, list_elem_of_here.
  - reflexivity.
Defined.

(** X29.  A batch without a result limit whose span lies within the first
    range the lookup resolves is answered by that range alone: [sendChunk]
    returns the reply of the one call of [sendSingleRange] as it is, after
    one lookup. *)
Theorem sendChunk_single_range (ops : BatchOps) (fuel : nat)
    (ba : BatchRequest) (w : World) (a : LookupAnswer)
    (rest : list LookupAnswer) (desc : RangeDescriptor)
    (reply : BatchResponse) (w' : World) :
  let isReverse := IsReverse ops ba in
  let rs := keys_Range ops ba in
  MaxScanResults ba = 0 ->
  lookups w = a :: rest ->
  committed a = inr desc ->
  extendsBeyond isReverse rs desc = false ->
  (if isReverse then ContainsKeyRange ops desc (StartKey desc) (rs_EndKey rs)
   else ContainsKeyRange ops desc (rs_Key rs) (EndKey desc)) = true ->
  sendTruncated ops ba rs desc
    (logEvent (EvLookup (lookupKey isReverse rs) false isReverse false)
       (setLookups rest w))
  = Some (inr reply, w') ->
  sendChunk ops (S fuel) ba w = (Done (Some reply, None, false), w').
Proof.
  intros isReverse rs Hlimit Hl Hfound Hbeyond Hholds Hsend.
  unfold sendChunk. fold isReverse rs. cbn [sendChunkLoop].
  change (retryNext retryStart w)
    with (true, {| currentAttempt := 0; isReset := false |}, w).
  cbn beta iota.
  unfold attempt, getDescriptors, LookupRangeDescriptor.
  rewrite Hl. cbn [andb]. rewrite Hfound.
  fold (extendsBeyond isReverse rs desc) (lookupKey isReverse rs).
  rewrite Hbeyond. cbn [andb].
  replace (isReverse && negb (ContainsKeyRange ops desc (StartKey desc) (rs_EndKey rs))
           || negb isReverse
              && negb (ContainsKeyRange ops desc (rs_Key rs) (EndKey desc)))
    with false by (destruct isReverse; rewrite Hholds; done).
  rewrite Hsend.
  unfold afterRange, accumulate. autorewrite with batch. rewrite Hlimit.
  done.
Qed.

Lemma sendChunk_single_range_witness :
  exists reply w',
    sendTruncated exampleOps (batchOf 0 [ScanRequest "a" "c" 0])
      (keys_Range exampleOps (batchOf 0 [ScanRequest "a" "c" 0])) rangeAM
      (logEvent (EvLookup "a" false false false)
         (setLookups [] (exampleWorld [found rangeAM]
                           [inr (replyOf [ScanResponse (rows 2)])])))
    = Some (inr reply, w')
    /\ sendChunk exampleOps 1 (batchOf 0 [ScanRequest "a" "c" 0])
         (exampleWorld [found rangeAM] [inr (replyOf [ScanResponse (rows 2)])])
       = (Done (Some reply, None, false), w').
Proof.
  destruct (sendTruncated exampleOps (batchOf 0 [ScanRequest "a" "c" 0])
              (keys_Range exampleOps (batchOf 0 [ScanRequest "a" "c" 0])) rangeAM
              (logEvent (EvLookup "a" false false false)
                 (setLookups [] (exampleWorld [found rangeAM]
                                   [inr (replyOf [ScanResponse (rows 2)])]))))
    as [[[pErr|reply] w']|] eqn:Hsend;
    [vm_compute in Hsend; discriminate| |vm_compute in Hsend; discriminate].
  exists reply, w'. split; [reflexivity|].
  apply (sendChunk_single_range exampleOps 0 (batchOf 0 [ScanRequest "a" "c" 0])
           (exampleWorld [found rangeAM] [inr (replyOf [ScanResponse (rows 2)])])
           (found rangeAM) [] rangeAM reply w');
    [reflexivity..|exact Hsend].
Defined.

(** * The retry loop around one RPC *)

Section LoopSteps.
Context (ops : BatchOps).

(** A pass that gets as far as sending ends as the answer to the RPC
    says. *)
Lemma attempt_sends isReverse ba rs br considerIntents r w desc needAnother wl :
  descriptorForSend ops isReverse ba rs br considerIntents w
  = Some (desc, needAnother, wl) ->
  attempt ops isReverse ba rs br considerIntents r w
  = match sendTruncated ops ba rs desc wl with
    | None => NoAnswer wl
    | Some (inr curReply, w') => Finished curReply desc needAnother w'
    | Some (inl pErr, w') =>
        handleError considerIntents r pErr (lookupKey isReverse rs) desc isReverse w'
    end.
Proof.
  unfold descriptorForSend, attempt, getDescriptors.
  fold (lookupKey isReverse rs).
  destruct (LookupRangeDescriptor _ _ _ w) as [[[pErr|d] w0]|]; [done| |done].
  repeat match goal with
         | |- context [if ?c then None else _] => destruct c; [done|]
         end.
  by intros [= -> -> ->].
Qed.

(** One pass of the loop whose RPC fails: the loop goes on as the error
    handling decides. *)
Lemma sendChunkLoop_rpc_error isReverse fuel ba rs br considerIntents r pErr w
    r1 w1 desc needAnother wl e w2 :
  retryNext r w = (true, r1, w1) ->
  descriptorForSend ops isReverse ba rs br considerIntents w1
  = Some (desc, needAnother, wl) ->
  sendTruncated ops ba rs desc wl = Some (inl e, w2) ->
  sendChunkLoop ops isReverse (S fuel) ba rs br considerIntents r pErr w
  = match handleError considerIntents r1 e (lookupKey isReverse rs) desc
            isReverse w2 with
    | Continue considerIntents r pErr w =>
        sendChunkLoop ops isReverse fuel ba rs br considerIntents r pErr w
    | BreakError pErr w => (Done (None, Some pErr, false), w)
    | Return pErr shouldSplitET w => (Done (None, Some pErr, shouldSplitET), w)
    | NoAnswer w => (Stalled, w)
    | Finished curReply desc needAnother w =>
        match afterRange ops isReverse ba rs br curReply desc needAnother with
        | RangeReturn br => (Done (Some br, None, false), w)
        | RangeError pErr => (Done (None, Some pErr, false), w)
        | RangePanic msg => (Panic msg, w)
        | RangeNext ba rs br =>
            sendChunkLoop ops isReverse fuel ba rs (Some br) false retryStart None w
        end
    end.
Proof.
  intros Hnext Hdesc Hsend. cbn [sendChunkLoop]. rewrite Hnext.
  by rewrite (attempt_sends _ _ _ _ _ _ _ _ _ _ Hdesc), Hsend.
Qed.

(** A pass entered without a backoff wait starts with a lookup, made with
    the loop's [considerIntents]; whatever follows is logged after it. *)
Lemma sendChunkLoop_starts_with_lookup isReverse fuel ba rs br considerIntents
    r pErr w a rest :
  isReset r = true ->
  lookups w = a :: rest ->
  exists suffix,
    log (sendChunkLoop ops isReverse (S fuel) ba rs br considerIntents r pErr w).2
    = log w ++ EvLookup (lookupKey isReverse rs) considerIntents isReverse
                 (considerIntents && coin a) :: suffix.
Proof.
  intros Hreset Hl. cbn [sendChunkLoop]. unfold retryNext. rewrite Hreset.
  set (r1 := {| currentAttempt := currentAttempt r; isReset := false |}).
  destruct (attempt_first_lookup ops isReverse ba rs br considerIntents r1 w a rest Hl)
    as (sfx & Hsfx).
  assert (forall w3 tail,
             log w3 = log (attemptWorld (attempt ops isReverse ba rs br
                                           considerIntents r1 w)) ++ tail ->
             exists suffix,
               log w3 = log w ++ EvLookup (lookupKey isReverse rs) considerIntents
                                   isReverse (considerIntents && coin a) :: suffix)
    as Hgrow.
  { intros w3 tail ->. exists (sfx ++ tail). by rewrite Hsfx, <- app_assoc. }
  destruct (attempt ops isReverse ba rs br considerIntents r1 w)
    as [ci2 r2 pErr2 w2|pErr2 w2|curReply desc na w2|pErr2 split w2|w2];
    cbn [attemptWorld] in Hgrow.
  - destruct (sendChunkLoop_shape ops isReverse fuel ba rs br ci2 r2 pErr2 w2)
      as (s3 & Hs3 & _).
    by apply (Hgrow _ s3).
  - apply (Hgrow _ []). by rewrite app_nil_r.
  - destruct (afterRange ops isReverse ba rs br curReply desc na)
      as [ret|e|msg|ba2 rs2 br2];
      try (apply (Hgrow _ []); by rewrite app_nil_r).
    destruct (sendChunkLoop_shape ops isReverse fuel ba2 rs2 (Some br2) false
                retryStart None w2) as (s3 & Hs3 & _).
    by apply (Hgrow _ s3).
  - apply (Hgrow _ []). by rewrite app_nil_r.
  - apply (Hgrow _ []). by rewrite app_nil_r.
Qed.
End LoopSteps.

(** C2.  In the retry loop of [sendChunk], a pass whose RPC is answered
    with a range-not-found or range-key-mismatch error evicts the
    descriptor and continues the loop with the retry state reset and
    [considerIntents] set: the next [r.Next()] succeeds at once, with no
    backoff wait and whatever the closer, and the next thing logged after
    the eviction is the descriptor lookup of the retry, made with
    [considerIntents = true].  Whether that lookup then reads the
    uncommitted value is the draw of the lookup itself ([coin]); the first
    lookup of a range, made with [considerIntents = false], never does. *)
Theorem addressing_error_retries_with_intents (ops : BatchOps) (isReverse : bool)
    (fuel : nat) (ba : BatchRequest) (rs : RSpan) (br : option BatchResponse)
    (considerIntents : bool) (r : Retry) (pErr : option Error) (w : World)
    (r1 : Retry) (w1 : World) (desc : RangeDescriptor) (needAnother : bool)
    (wl : World) (e : Error) (w2 : World) :
  retryNext r w = (true, r1, w1) ->
  descriptorForSend ops isReverse ba rs br considerIntents w1
  = Some (desc, needAnother, wl) ->
  sendTruncated ops ba rs desc wl = Some (inl e, w2) ->
  err_Detail e = RangeNotFoundError \/ err_Detail e = RangeKeyMismatchError ->
  let w3 := evictDesc (lookupKey isReverse rs) desc isReverse w2 in
  sendChunkLoop ops isReverse (S fuel) ba rs br considerIntents r pErr w
  = sendChunkLoop ops isReverse fuel ba rs br true (retryReset r1) (Some e) w3
  /\ retryNext (retryReset r1) w3
     = (true, {| currentAttempt := 0; isReset := false |}, w3)
  /\ (forall a rest,
        lookups w2 = a :: rest ->
        (0 < fuel)%nat ->
        exists suffix,
          log (sendChunkLoop ops isReverse (S fuel) ba rs br considerIntents
                 r pErr w).2
          = log w2 ++ EvEvict (lookupKey isReverse rs) desc isReverse
                   :: EvLookup (lookupKey isReverse rs) true isReverse (coin a)
                   :: suffix)
  /\ (forall fuel' ba' a rest,
        lookups w = a :: rest ->
        exists suffix,
          log (sendChunk ops (S fuel') ba' w).2
          = log w ++ EvLookup (lookupKey (IsReverse ops ba') (keys_Range ops ba'))
                       false (IsReverse ops ba') false :: suffix).
Proof.
  intros Hnext Hdesc Hsend Hdetail w3.
  assert (sendChunkLoop ops isReverse (S fuel) ba rs br considerIntents r pErr w
          = sendChunkLoop ops isReverse fuel ba rs br true (retryReset r1) (Some e) w3)
    as Hstep.
  { rewrite (sendChunkLoop_rpc_error ops isReverse fuel ba rs br considerIntents
               r pErr w r1 w1 desc needAnother wl e w2 Hnext Hdesc Hsend).
    unfold handleError. by destruct Hdetail as [-> | ->]. }
  split; [exact Hstep|]. split; [done|]. split.
  - intros a rest Hl Hfuel. rewrite Hstep.
    destruct fuel as [|fuel]; [lia|].
    destruct (sendChunkLoop_starts_with_lookup ops isReverse fuel ba rs br true
                (retryReset r1) (Some e) w3 a rest eq_refl Hl) as (sfx & Hsfx).
    exists sfx. rewrite Hsfx. subst w3. unfold evictDesc. cbn [log logEvent andb].
    by rewrite <- app_assoc.
  - intros fuel' ba' a rest Hl. unfold sendChunk.
    exact (sendChunkLoop_starts_with_lookup ops _ fuel' ba' _ None false
             retryStart None w a rest eq_refl Hl).
Qed.

Lemma addressing_error_retries_with_intents_witness :
  exists w2 suffix,
    sendTruncated exampleOps (batchOf 0 [ScanRequest "n" "p" 0])
      {| rs_Key := "n"; rs_EndKey := "p" |} rangeAZ
      (logEvent (EvLookup "n" false false false)
         (setLookups (drop 1 splitLookups) mismatchWorld))
    = Some (inl (NewError RangeKeyMismatchError), w2)
    /\ sendChunk exampleOps 5 (batchOf 0 [ScanRequest "n" "p" 0]) mismatchWorld
       = sendChunkLoop exampleOps false 4 (batchOf 0 [ScanRequest "n" "p" 0])
           {| rs_Key := "n"; rs_EndKey := "p" |} None true retryStart
           (Some (NewError RangeKeyMismatchError)) (evictDesc "n" rangeAZ false w2)
    /\ log (sendChunk exampleOps 5 (batchOf 0 [ScanRequest "n" "p" 0])
              mismatchWorld).2
       = log w2 ++ EvEvict "n" rangeAZ false :: EvLookup "n" true false true
                :: suffix.
Proof.
  destruct (sendTruncated exampleOps (batchOf 0 [ScanRequest "n" "p" 0])
              {| rs_Key := "n"; rs_EndKey := "p" |} rangeAZ
              (logEvent (EvLookup "n" false false false)
                 (setLookups (drop 1 splitLookups) mismatchWorld)))
    as [[[e|reply] w2]|] eqn:Hsend;
    [|vm_compute in Hsend; discriminate..].
  assert (e = NewError RangeKeyMismatchError) as ->
    by (vm_compute in Hsend; injection Hsend as <- _; reflexivity).
  assert (lookups w2 = drop 1 splitLookups) as Hl
    by (vm_compute in Hsend; injection Hsend as <-; reflexivity).
  destruct (addressing_error_retries_with_intents exampleOps false 4
              (batchOf 0 [ScanRequest "n" "p" 0])
              {| rs_Key := "n"; rs_EndKey := "p" |} None false retryStart None
              mismatchWorld {| currentAttempt := 0; isReset := false |}
              mismatchWorld rangeAZ false
              (logEvent (EvLookup "n" false false false)
                 (setLookups (drop 1 splitLookups) mismatchWorld))
              (NewError RangeKeyMismatchError) w2
              eq_refl eq_refl Hsend (or_intror eq_refl))
    as (Hstep & _ & Hlog & _).
  destruct (Hlog _ [] Hl) as (suffix & Hsuffix); [lia|].
  exists w2, suffix. split; [reflexivity|]. split; [exact Hstep|exact Hsuffix].
Defined.

Lemma updateLeaderCache_cache rid leader w :
  leaderCache (updateLeaderCache rid leader w)
  = if StoreID leader =? StoreID (leaderCacheLookup rid w)
    then leaderCache w
    else <[rid := leader]> (leaderCache w).
Proof. unfold updateLeaderCache. by destruct (_ =? _). Qed.

(** C3, as the code has it.  A not-the-leader error resets the retry state
    (the next [r.Next()] succeeds at once) and the loop of [sendChunk]
    continues with the world the handling leaves.  With a leader reported,
    the leader cache is left as it is when its entry for the range already
    names the reported leader's store, and otherwise gets the reported
    replica as the entry of the range (no other entry changes); the
    descriptor is evicted exactly when no replica of the descriptor is on
    that store.  With no leader reported, the descriptor is evicted and the
    entry of the range becomes the zero value, unless the cache knew no
    leader (store 0) for the range before, in which case it is left as it
    is. *)
Theorem not_leader_handling (considerIntents : bool) (r : Retry) (pErr : Error)
    (descKey : RKey) (desc : RangeDescriptor) (isReverse : bool) (w : World)
    (Leader : option ReplicaDescriptor) :
  err_Detail pErr = NotLeaderError Leader ->
  exists w',
    handleError considerIntents r pErr descKey desc isReverse w
    = Continue considerIntents (retryReset r) (Some pErr) w'
    /\ retryNext (retryReset r) w'
       = (true, {| currentAttempt := 0; isReset := false |}, w')
    /\ match Leader with
       | Some newLeader =>
           StoreID (leaderCacheLookup (RangeID desc) w') = StoreID newLeader
           /\ (StoreID newLeader <> StoreID (leaderCacheLookup (RangeID desc) w) ->
               leaderCacheLookup (RangeID desc) w' = newLeader
               /\ leaderCache w' = <[RangeID desc := newLeader]> (leaderCache w))
           /\ (StoreID newLeader = StoreID (leaderCacheLookup (RangeID desc) w) ->
               leaderCache w' = leaderCache w)
           /\ ((exists replica, replica ∈ Replicas desc
                                /\ StoreID replica = StoreID newLeader) ->
               log w' = log w)
           /\ ((forall replica, replica ∈ Replicas desc ->
                                StoreID replica <> StoreID newLeader) ->
               log w' = log w ++ [EvEvict descKey desc isReverse])
       | None =>
           StoreID (leaderCacheLookup (RangeID desc) w') = 0
           /\ (StoreID (leaderCacheLookup (RangeID desc) w) <> 0 ->
               leaderCache w'
               = <[RangeID desc := zeroReplicaDescriptor]> (leaderCache w))
           /\ (StoreID (leaderCacheLookup (RangeID desc) w) = 0 ->
               leaderCache w' = leaderCache w)
           /\ log w' = log w ++ [EvEvict descKey desc isReverse]
       end
    /\ forall ops fuel ba rs br r0 pErr0 w0 w1 needAnother wl,
         retryNext r0 w0 = (true, r, w1) ->
         descriptorForSend ops isReverse ba rs br considerIntents w1
         = Some (desc, needAnother, wl) ->
         sendTruncated ops ba rs desc wl = Some (inl pErr, w) ->
         descKey = lookupKey isReverse rs ->
         sendChunkLoop ops isReverse (S fuel) ba rs br considerIntents r0 pErr0 w0
         = sendChunkLoop ops isReverse fuel ba rs br considerIntents
             (retryReset r) (Some pErr) w'.
Proof.
  intros Hdetail.
  assert (forall w', handleError considerIntents r pErr descKey desc isReverse w
                     = Continue considerIntents (retryReset r) (Some pErr) w' ->
            forall ops fuel ba rs br r0 pErr0 w0 w1 needAnother wl,
              retryNext r0 w0 = (true, r, w1) ->
              descriptorForSend ops isReverse ba rs br considerIntents w1
              = Some (desc, needAnother, wl) ->
              sendTruncated ops ba rs desc wl = Some (inl pErr, w) ->
              descKey = lookupKey isReverse rs ->
              sendChunkLoop ops isReverse (S fuel) ba rs br considerIntents r0 pErr0 w0
              = sendChunkLoop ops isReverse fuel ba rs br considerIntents
                  (retryReset r) (Some pErr) w') as Hloop.
  { intros w' Hhandle ops fuel ba rs br r0 pErr0 w0 w1 na wl Hnext Hdesc Hsend ->.
    rewrite (sendChunkLoop_rpc_error ops isReverse fuel ba rs br considerIntents
               r0 pErr0 w0 r w1 desc na wl pErr w Hnext Hdesc Hsend).
    by rewrite Hhandle. }
  revert Hloop. unfold handleError. rewrite Hdetail. intros Hloop.
  destruct Leader as [newLeader|].
  - destruct (descFindReplica (StoreID newLeader) desc =? -1) eqn:Habsent.
    + destruct (leaderCacheLookup_updated (RangeID desc) newLeader
                  (evictDesc descKey desc isReverse w)) as [Hstore Hcache].
      pose proof (updateLeaderCache_cache (RangeID desc) newLeader
                    (evictDesc descKey desc isReverse w)) as Hwhole.
      change (leaderCacheLookup (RangeID desc) (evictDesc descKey desc isReverse w))
        with (leaderCacheLookup (RangeID desc) w) in *.
      change (leaderCache (evictDesc descKey desc isReverse w))
        with (leaderCache w) in *.
      eexists. split; [reflexivity|]. split; [reflexivity|].
      split; [|by apply Hloop].
      rewrite updateLeaderCache_log. split; [exact Hstore|]. split_and!.
      * intros Hne. split; [by apply Hcache|].
        rewrite Hwhole. by rewrite (proj2 (Z.eqb_neq _ _) Hne).
      * intros Heq. rewrite Hwhole. by rewrite (proj2 (Z.eqb_eq _ _) Heq).
      * apply Z.eqb_eq in Habsent. unfold descFindReplica in Habsent.
        rewrite findIndex_absent in Habsent.
        intros (replica & Hin & Hsame). apply Habsent in Hin.
        apply Z.eqb_neq in Hin. done.
      * done.
    + destruct (leaderCacheLookup_updated (RangeID desc) newLeader w)
        as [Hstore Hcache].
      pose proof (updateLeaderCache_cache (RangeID desc) newLeader w) as Hwhole.
      eexists. split; [reflexivity|]. split; [reflexivity|].
      split; [|by apply Hloop].
      rewrite updateLeaderCache_log. split; [exact Hstore|]. split_and!.
      * intros Hne. split; [by apply Hcache|].
        rewrite Hwhole. by rewrite (proj2 (Z.eqb_neq _ _) Hne).
      * intros Heq. rewrite Hwhole. by rewrite (proj2 (Z.eqb_eq _ _) Heq).
      * done.
      * apply Z.eqb_neq in Habsent.
        intros Hall. destruct Habsent. unfold descFindReplica.
        apply findIndex_absent.
        intros replica Hin. apply Z.eqb_neq. by apply Hall.
  - destruct (leaderCacheLookup_updated (RangeID desc) zeroReplicaDescriptor
                (evictDesc descKey desc isReverse w)) as [Hstore _].
    pose proof (updateLeaderCache_cache (RangeID desc) zeroReplicaDescriptor
                  (evictDesc descKey desc isReverse w)) as Hwhole.
    change (leaderCacheLookup (RangeID desc) (evictDesc descKey desc isReverse w))
      with (leaderCacheLookup (RangeID desc) w) in *.
    change (leaderCache (evictDesc descKey desc isReverse w))
      with (leaderCache w) in *.
    eexists. split; [reflexivity|]. split; [reflexivity|].
    split; [|by apply Hloop].
    rewrite updateLeaderCache_log. split; [exact Hstore|]. split_and!.
    + intros Hne. rewrite Hwhole. cbn [StoreID zeroReplicaDescriptor].
      destruct (0 =? StoreID (leaderCacheLookup (RangeID desc) w)) eqn:Hz; [|done].
      apply Z.eqb_eq in Hz. lia.
    + intros Heq. rewrite Hwhole. cbn [StoreID zeroReplicaDescriptor].
      by rewrite Heq.
    + done.
Qed.

Lemma not_leader_handling_witness :
  (exists w',
      handleError false {| currentAttempt := 3; isReset := false |}
        (NewError (NotLeaderError (Some (replicaOn 2)))) "a" rangeAM false
        (exampleWorld [] [])
      = Continue false retryStart
          (Some (NewError (NotLeaderError (Some (replicaOn 2))))) w'
      /\ leaderCacheLookup 1 w' = replicaOn 2
      /\ log w' = [])
  /\ (exists w',
        handleError false {| currentAttempt := 3; isReset := false |}
          (NewError (NotLeaderError (Some (replicaOn 2)))) "a" rangeAM false
          cachedLeaderWorld
        = Continue false retryStart
            (Some (NewError (NotLeaderError (Some (replicaOn 2))))) w'
        /\ leaderCacheLookup 1 w' = {| NodeID := 5; StoreID := 2; ReplicaID := 7 |}
        /\ log w' = []).
Proof.
  split.
  - destruct (not_leader_handling false {| currentAttempt := 3; isReset := false |}
                (NewError (NotLeaderError (Some (replicaOn 2)))) "a" rangeAM false
                (exampleWorld [] []) (Some (replicaOn 2)) eq_refl)
      as (w' & Hcont & _ & (_ & Hcache & _ & Hpresent & _) & _).
    exists w'. split; [exact Hcont|]. split.
    + apply Hcache. vm_compute. discriminate.
    + apply Hpresent. exists (replicaOn 2).
      split; [apply list_elem_of_further, list_elem_of_here|reflexivity].
  - destruct (not_leader_handling false {| currentAttempt := 3; isReset := false |}
                (NewError (NotLeaderError (Some (replicaOn 2)))) "a" rangeAM false
                cachedLeaderWorld (Some (replicaOn 2)) eq_refl)
      as (w' & Hcont & _ & (_ & _ & Hsame & Hpresent & _) & _).
    exists w'. split; [exact Hcont|]. split.
    + unfold leaderCacheLookup. rewrite Hsame by (vm_compute; reflexivity).
      vm_compute. reflexivity.
    + apply Hpresent. exists (replicaOn 2).
      split; [apply list_elem_of_further, list_elem_of_here|reflexivity].
Defined.

(** * [send]: giving up *)

Lemma isRetryableFailure_spec (e : GoError) :
  isRetryableFailure e = true <-> e = ErrUnexpectedEOF \/ canRetry e = true.
Proof.
  destruct e; simpl; split; try done; auto; intros [?|?]; done.
Qed.

Section GiveUp.
Context (env : RPCEnv).

Lemma dialAll_ok args replicas :
  (forall addr, GRPCDial env addr = None) ->
  exists dialed, dialAll env args replicas = (dialed, inr (clientFor args <$> replicas)).
Proof.
  intros Hdial. induction replicas as [|replica rest [dialed IH]]; simpl.
  - by eexists.
  - rewrite Hdial, IH. by eexists.
Qed.

Lemma partitionHealthy_ok :
  (forall addr, exists s, connState env addr = inr s) ->
  forall k i nHealthy clients,
    exists res, partitionHealthy env i nHealthy k clients = inr res.
Proof.
  intros Hconn. induction k as [|k IH]; intros i nH clients; simpl; [by eexists|].
  destruct (clients !! i) as [c|]; [|by eexists].
  destruct (Hconn (remoteAddr c)) as [s ->]. destruct s; apply IH.
Qed.

Lemma orderClients_ok policy clients :
  policy = orderStable \/ (forall addr, exists s, connState env addr = inr s) ->
  exists ordered, orderClients env policy clients = inr ordered.
Proof.
  unfold orderClients. destruct policy; [by eexists|].
  intros [?|Hconn]; [done|].
  destruct (partitionHealthy_ok Hconn (length clients) 0 0 clients)
    as [[clients' nHealthy] ->].
  destruct (shuffleClients _ 0 _) as [healthy ctr].
  destruct (shuffleClients _ ctr _) as [rest ctr']. by eexists.
Qed.

Lemma sendNextIfAny_inOrder ordered st :
  inOrderInvariant env ordered st ->
  inOrderInvariant env ordered (sendNextIfAny st)
  /\ (inflight (sendNextIfAny st) = [] -> orderedClients (sendNextIfAny st) = [])
  /\ failureLog (sendNextIfAny st) = failureLog st
  /\ errors (sendNextIfAny st) = errors st.
Proof.
  intros (Hinv & Hflight & Hfail & Hlen).
  pose proof (sendNextIfAny_invariant ordered st Hinv) as Hinv'.
  unfold sendNextIfAny in *.
  destruct (orderedClients st) as [|c rest] eqn:Hc; [by split_and!|].
  split; [|split_and!; try done; simpl; by destruct (inflight st)].
  split; [done|]. cbn [inflight sentLog failureLog sendNext]. split_and!.
  - by rewrite drop_app_le, Hflight.
  - by rewrite take_app_le.
  - rewrite length_app. lia.
Qed.

Lemma recordFailure_inOrder ordered st c err :
  inOrderInvariant env ordered st ->
  inflight st !! 0%nat = Some c ->
  bc_err (completionOf env c) = Some err ->
  inOrderInvariant env ordered (recordFailure 0 err st).
Proof.
  intros (Hinv & Hflight & Hfail & Hlen) Hc Herr.
  assert (sentLog st !! length (failureLog st) = Some c) as Hsent.
  { rewrite Hflight, lookup_drop, Nat.add_0_r in Hc. done. }
  split; [by eapply recordFailure_invariant|].
  cbn [inflight sentLog failureLog recordFailure]. split_and!.
  - rewrite length_app, Nat.add_1_r. rewrite Hflight.
    by rewrite (drop_S _ _ _ Hsent).
  - rewrite length_app, Nat.add_1_r, (take_S_r _ _ _ Hsent).
    apply Forall2_app; [done|]. by constructor.
  - rewrite length_app, Nat.add_1_r. by apply lookup_lt_Some in Hsent.
Qed.

Lemma waitLoop_gives_up ordered :
  (forall c, bc_err (completionOf env c) <> None) ->
  forall sched st,
    inOrderInvariant env ordered st ->
    (inflight st = [] -> orderedClients st = []) ->
    (length (failureLog st) < length ordered)%nat ->
    inDispatchOrder sched ->
    (length ordered - length (failureLog st) <= countCompletions sched)%nat ->
    exists st',
      waitLoop env (Z.of_nat (length ordered)) sched st
      = Returned None
          (Some (SendError
                   (TooManyErrors (Z.of_nat (length ordered))
                      (Z.of_nat (length ordered)))
                   (1 <=? retryableErrors st')))
          st'
      /\ inOrderInvariant env ordered st'
      /\ sentLog st' = ordered
      /\ length (failureLog st') = length ordered.
Proof.
  intros Hfail. induction sched as [|ev sched IH];
    intros st Hinv Hempty Hless Horder Hcount.
  { unfold countCompletions in Hcount. simpl in Hcount. lia. }
  apply Forall_cons in Horder as [Hev Horder].
  destruct Hev as [-> | ->]; cbn [waitLoop].
  - destruct (sendNextIfAny_inOrder ordered st Hinv) as (Hinv' & Hempty' & Hlog & _).
    apply IH; try done; by rewrite Hlog.
  - destruct Hinv as (Hloop & Hflight & Hfails & Hlen).
    destruct (inflight st) as [|c tl] eqn:Hin.
    { exfalso. pose proof (inv_order _ _ Hloop) as Hord.
      rewrite (Hempty eq_refl), app_nil_r in Hord.
      symmetry in Hflight. apply drop_nil_inv in Hflight.
      rewrite Hord in Hflight. lia. }
    cbn [lookup list_lookup].
    destruct (bc_err (completionOf env c)) as [err|] eqn:Herr;
      [|by destruct (Hfail c)].
    assert (inOrderInvariant env ordered st) as Hinv by (by rewrite <- Hin in *).
    assert (inflight st !! 0%nat = Some c) as Hc by (by rewrite Hin).
    pose proof (recordFailure_inOrder ordered st c err Hinv Hc Herr) as Hinv1.
    pose proof (inv_errors _ _ Hloop) as Herrors.
    cbn [errors recordFailure]. rewrite Herrors.
    destruct (Z.of_nat (length ordered) - (Z.of_nat (length (failureLog st)) + 1) <? 1)
      eqn:Hdone.
    + apply Z.ltb_lt in Hdone.
      assert (S (length (failureLog st)) = length ordered) as Hall by lia.
      exists (recordFailure 0 err st).
      replace (Z.of_nat (length (failureLog st)) + 1)
        with (Z.of_nat (length ordered)) by lia.
      rewrite Z.sub_diag, Z.add_0_l.
      split; [reflexivity|]. split; [exact Hinv1|].
      assert (length (failureLog (recordFailure 0 err st)) = length ordered) as Hlen1
        by (simpl; rewrite length_app; simpl; lia).
      split; [|exact Hlen1].
      destruct Hinv1 as (Hloop1 & _ & _ & Hle1).
      pose proof (inv_order _ _ Hloop1) as Hord1.
      assert (length (sentLog (recordFailure 0 err st)) = length ordered) as Hfull.
      { apply (f_equal length) in Hord1. rewrite length_app in Hord1. lia. }
      rewrite <- Hord1 in Hfull |- *. rewrite length_app in Hfull.
      destruct (orderedClients (recordFailure 0 err st)); [by rewrite app_nil_r|].
      simpl in Hfull. lia.
    + apply Z.ltb_ge in Hdone.
      destruct (sendNextIfAny_inOrder ordered _ Hinv1)
        as (Hinv2 & Hempty2 & Hlog2 & _).
      assert (length (failureLog (recordFailure 0 err st))
              = S (length (failureLog st))) as Hlen1
        by (simpl; rewrite length_app; simpl; lia).
      apply IH; try done; rewrite Hlog2, Hlen1.
      * lia.
      * unfold countCompletions in *. rewrite filter_cons in Hcount.
        cbn [isCompletion] in Hcount. rewrite decide_True in Hcount by done.
        cbn [length] in Hcount. lia.
Qed.
End GiveUp.

(** C5.  When [send] returns an error after a failed completion, every
    replica has failed, the error is the aggregate "too many errors" send
    error, and its retryable flag is set exactly when one of the recorded
    failures was a disconnect ([io.ErrUnexpectedEOF]) or an error whose
    [CanRetry] answers [true], or a replica that has not failed remains.
    And [send] does return it: when every replica can be dialed and
    ordered, every call fails, and the completions arrive in dispatch
    order, at least as many as there are replicas, [send] returns the
    aggregate error counting all replicas, and its flag is set exactly
    when the call to one of the replicas fails with a disconnect or an
    error that reports itself retryable. *)
Theorem send_aggregate_error_retryable (env : RPCEnv) (opts : SendOptions)
    (replicas : ReplicaSlice) (args : BatchRequest) :
  (forall sched dialed reply err st,
      send env opts replicas args sched = (dialed, Returned reply (Some err) st) ->
      failureLog st <> [] ->
      reply = None
      /\ errors st = Z.of_nat (length replicas)
      /\ exists flag,
          err = SendError (TooManyErrors (errors st) (Z.of_nat (length replicas))) flag
          /\ (flag = true <->
              (exists e, e ∈ failureLog st
                         /\ (e = ErrUnexpectedEOF \/ canRetry e = true))
              \/ errors st < Z.of_nat (length replicas)))
  /\ (forall sched,
        replicas <> [] ->
        (forall addr, GRPCDial env addr = None) ->
        Ordering opts = orderStable
        \/ (forall addr, exists s, connState env addr = inr s) ->
        (forall c, bc_err (completionOf env c) <> None) ->
        inDispatchOrder sched ->
        (length replicas <= countCompletions sched)%nat ->
        exists dialed flag st,
          send env opts replicas args sched
          = (dialed,
             Returned None
               (Some (SendError
                        (TooManyErrors (Z.of_nat (length replicas))
                           (Z.of_nat (length replicas))) flag)) st)
          /\ (flag = true <->
              exists replica e,
                replica ∈ replicas
                /\ failureOf env args replica = Some e
                /\ (e = ErrUnexpectedEOF \/ canRetry e = true))).
Proof.
  split.
  - intros sched dialed reply err st Hsend Hlog.
    destruct (send_cases env opts replicas args sched)
      as [(d & r & e & H & _)|[(d & H)|(d & first & rest & _ & Hperm & H)]];
      rewrite H in Hsend.
    + by injection Hsend as <- <- <- <-.
    + done.
    + injection Hsend as <- Hloop.
      apply (waitLoop_error env (first :: rest)) in Hloop;
        [|apply initial_dispatch_invariant].
      destruct Hloop as (-> & Herr & _ & flag & -> & Hflag).
      apply Permutation_length in Hperm. rewrite length_fmap in Hperm.
      rewrite Hperm in *. split_and!; try done.
      exists flag. split; [done|]. rewrite Hflag. split.
      * intros (e & Hin & He). left. exists e.
        by rewrite <- isRetryableFailure_spec.
      * intros [(e & Hin & He)|?]; [|lia]. exists e.
        by rewrite isRetryableFailure_spec.
  - intros sched Hsome Hdial Hconn Hfail Horder Hcount.
    unfold send.
    destruct (Z.of_nat (length replicas) <? 1) eqn:Hlen.
    { destruct replicas; [done|]. apply Z.ltb_lt in Hlen.
      cbn [length] in Hlen. lia. }
    destruct (dialAll_ok env args replicas Hdial) as [dialed ->].
    destruct (orderClients_ok env (Ordering opts) (clientFor args <$> replicas) Hconn)
      as [ordered Hordered].
    rewrite Hordered. apply orderClients_Permutation in Hordered as Hperm.
    assert (length ordered = length replicas) as Hsame
      by (by rewrite (Permutation_length Hperm), length_fmap).
    destruct ordered as [|first rest]; [destruct replicas; done|].
    rewrite <- Hsame in *.
    destruct (waitLoop_gives_up env (first :: rest) Hfail sched
                (sendNext first rest initialState))
      as (st & -> & (Hloop & _ & Hfails & _) & Hsent & Hall).
    { split_and!; [apply initial_dispatch_invariant|done|constructor|simpl; lia]. }
    { done. }
    { simpl. lia. }
    { done. }
    { simpl. simpl in Hcount. lia. }
    exists dialed, (1 <=? retryableErrors st), st. split; [reflexivity|].
    rewrite Hall, Hsent, firstn_all in Hfails.
    rewrite Z.leb_le, (inv_retryable _ _ Hloop), retryable_count_positive.
    split.
    + intros (e & Hin & He).
      apply list_elem_of_lookup_1 in Hin as [i Hi].
      destruct (Forall2_lookup_r _ _ _ _ _ Hfails Hi) as (c & Hc & Herr).
      apply list_elem_of_lookup_2 in Hc. rewrite Hperm in Hc.
      apply list_elem_of_fmap in Hc as (replica & -> & Hin).
      exists replica, e. by rewrite <- isRetryableFailure_spec.
    + intros (replica & e & Hin & Herr & He).
      assert (clientFor args replica ∈ first :: rest) as Hc
        by (rewrite Hperm; by apply list_elem_of_fmap_2).
      apply list_elem_of_lookup_1 in Hc as [i Hi].
      destruct (Forall2_lookup_l _ _ _ _ _ Hfails Hi) as (e' & He' & Herr').
      unfold failureOf in Herr. rewrite Herr in Herr'. injection Herr' as <-.
      exists e. split; [by apply list_elem_of_lookup_2 in He'|].
      by rewrite isRetryableFailure_spec.
Qed.

Lemma send_aggregate_error_retryable_witness :
  (exists dialed st,
      send failingEnv stableOpts threeReplicas emptyBatch
        [Completion 0; TimerFires; Completion 0; Completion 0]
      = (dialed, Returned None (Some (SendError (TooManyErrors 3 3) true)) st)
      /\ errors st = 3)
  /\ (exists dialed st,
        send refusedEnv randomOpts threeReplicas emptyBatch
          [Completion 0; Completion 0; Completion 0]
        = (dialed, Returned None (Some (SendError (TooManyErrors 3 3) false)) st)).
Proof.
  split.
  - destruct (send_aggregate_error_retryable failingEnv stableOpts threeReplicas
                emptyBatch) as [Hsafe Hlive].
    destruct (Hlive [Completion 0; TimerFires; Completion 0; Completion 0])
      as (dialed & flag & st & Hsend & Hflag).
    + unfold threeReplicas. discriminate.
    + done.
    + by left.
    + intros c. simpl. discriminate.
    + unfold inDispatchOrder.
      repeat (apply Forall_cons_2; [auto|]). constructor.
    + vm_compute. lia.
    + assert (flag = true) as ->.
      { apply Hflag. eexists _, ErrUnexpectedEOF.
        split; [apply list_elem_of_here|]. split; [reflexivity|by left]. }
      exists dialed, st. split; [exact Hsend|].
      destruct (Hsafe _ _ _ _ _ Hsend) as (_ & Herrors & _); [|exact Herrors].
      pose proof Hsend as Hrun. vm_compute in Hrun.
      injection Hrun as _ <-. discriminate.
  - destruct (send_aggregate_error_retryable refusedEnv randomOpts threeReplicas
                emptyBatch) as [_ Hlive].
    destruct (Hlive [Completion 0; Completion 0; Completion 0])
      as (dialed & flag & st & Hsend & Hflag).
    + unfold threeReplicas. discriminate.
    + done.
    + right. intros addr. by eexists.
    + intros c. simpl. discriminate.
    + unfold inDispatchOrder.
      repeat (apply Forall_cons_2; [auto|]). constructor.
    + vm_compute. lia.
    + assert (flag = false) as ->.
      { destruct flag; [|done]. exfalso.
        destruct (proj1 Hflag eq_refl) as (replica & e & _ & He & Hretry).
        injection He as <-. by destruct Hretry. }
      by exists dialed, st.
Defined.

(** * [sendChunk]: the result bound and the replies received *)

Section ReplyFacts.
Context (ops : BatchOps).

Lemma sendRPC_rpcs rangeID replicas order ba w res w' :
  sendRPC rangeID replicas order ba w = Some (res, w') ->
  (rpcs w' = rpcs w /\ exists pErr, res = inl pErr)
  \/ (exists answer,
        rpcs w = answer :: rpcs w'
        /\ res = match answer with
                 | inl err => inl (NewError err)
                 | inr reply => inr reply
                 end).
Proof.
  unfold sendRPC. case_match.
  - intros [= <- <-]. left. split; [done|]. by eexists.
  - destruct (rpcs w) as [|answer rest] eqn:Hrpcs; [done|].
    intros Hres. right. exists answer.
    destruct answer; injection Hres as <- <-; by split.
Qed.

(** A call of [sendSingleRange] that returns a reply has consumed one
    answer of [rpcSend], a good one; a call that returns an error has
    consumed no good answer. *)
Lemma sendSingleRange_rpcs ba desc w res w' :
  sendSingleRange ops ba desc w = Some (res, w') ->
  exists used,
    rpcs w = used ++ rpcs w'
    /\ match res with
       | inr reply => exists answer, used = [answer] /\ goodReply answer = Some reply
       | inl _ => omap goodReply used = []
       end.
Proof.
  unfold sendSingleRange.
  destruct (getNodeDescriptor (nodeDescriptor w) (gossip w)) as [nodeDesc cached].
  destruct (optimizeReplicaOrder nodeDesc _) as [replicas order].
  match goal with
  | |- context [let '(_, _) := ?choice in _] =>
      destruct choice as [replicas' order']
  end.
  destruct (sendRPC _ _ _ _ _) as [[[pErr|br] w1]|] eqn:Hrpc; [| |done].
  - intros [= <- <-].
    apply sendRPC_rpcs in Hrpc as [[Hsame _]|(answer & Hused & Hres)];
      cbn [rpcs setNodeDescriptor] in *.
    + exists []. by rewrite Hsame.
    + exists [answer]. split; [done|]. by destruct answer.
  - apply sendRPC_rpcs in Hrpc as [[_ [? ?]]|(answer & Hused & Hres)]; [done|].
    cbn [rpcs setNodeDescriptor] in Hused.
    destruct answer as [err|reply]; [done|]. injection Hres as ->.
    destruct (h_Error (br_Header reply)) eqn:Herr; intros [= <- <-];
      exists [inr reply]; (split; [done|]).
    + cbn. by rewrite Herr.
    + exists (inr reply). split; [done|]. cbn. by rewrite Herr.
Qed.

Lemma sendTruncated_rpcs ba rs desc w res w' :
  sendTruncated ops ba rs desc w = Some (res, w') ->
  exists used,
    rpcs w = used ++ rpcs w'
    /\ match res with
       | inr reply => exists answer, used = [answer] /\ goodReply answer = Some reply
       | inl _ => omap goodReply used = []
       end.
Proof.
  unfold sendTruncated.
  destruct (Intersect ops rs desc) as [iErr|intersected];
    [intros [= <- <-]; by exists []|].
  destruct (truncate ops ba intersected) as [[truncBA numActive] [trErr|]];
    [intros [= <- <-]; by exists []|].
  case_match; [intros [= <- <-]; by exists []|].
  apply sendSingleRange_rpcs.
Qed.

Lemma handleError_rpcs considerIntents r pErr descKey desc isReverse w :
  rpcs (attemptWorld (handleError considerIntents r pErr descKey desc isReverse w))
  = rpcs w
  /\ forall curReply d na w',
       handleError considerIntents r pErr descKey desc isReverse w
       <> Finished curReply d na w'.
Proof.
  unfold handleError.
  destruct (err_Detail pErr)
    as [|msg c|msg|msg retryable| | |[newLeader|]| |]; try done.
  - by destruct c.
  - by destruct retryable.
  - destruct (descFindReplica (StoreID newLeader) desc =? -1); simpl;
      unfold updateLeaderCache; by case_match.
  - simpl. unfold updateLeaderCache. by case_match.
Qed.

(** One pass through the loop body: a pass that finishes has consumed one
    good answer, the reply it finishes with; any other pass has consumed
    no good answer. *)
Lemma attempt_rpcs isReverse ba rs br considerIntents r w :
  match attempt ops isReverse ba rs br considerIntents r w with
  | Finished curReply desc needAnother w' =>
      exists answer, rpcs w = answer :: rpcs w' /\ goodReply answer = Some curReply
  | other =>
      exists used, rpcs w = used ++ rpcs (attemptWorld other)
                   /\ omap goodReply used = []
  end.
Proof.
  unfold attempt, getDescriptors, LookupRangeDescriptor.
  destruct (lookups w) as [|a rest]; [by exists []|].
  destruct (if considerIntents && coin a then uncommitted a else committed a)
    as [pErr|desc].
  { destruct (err_Retryable pErr); by exists []. }
  repeat match goal with
         | |- context [if ?c then Return ?e ?s ?w else _] =>
             destruct c; [by exists []|]
         | |- context [if ?c then Continue ?a ?b None ?w else _] =>
             destruct c; [by exists []|]
         end.
  match goal with
  | |- context [sendTruncated ops ba rs desc ?w1] =>
      destruct (sendTruncated ops ba rs desc w1) as [[[pErr|curReply] w2]|] eqn:Hsend
  end; [| |by exists []].
  - apply sendTruncated_rpcs in Hsend as (used & Hused & Hnone).
    cbn [rpcs logEvent setLookups] in Hused.
    match goal with
    | |- match ?h with _ => _ end =>
        pose proof (handleError_rpcs considerIntents r pErr
                      (if negb isReverse then rs_Key rs else rs_EndKey rs)
                      desc isReverse w2) as [Hsame Hnot];
        destruct h as [? ? ? w3|? w3|? ? ? w3|? ? w3|w3] eqn:Hh
    end; cbn [attemptWorld] in Hsame |- *;
      try (by destruct (Hnot _ _ _ _ eq_refl));
      exists used; by rewrite Hsame.
  - apply sendTruncated_rpcs in Hsend as (used & Hused & answer & -> & Hgood).
    cbn [rpcs logEvent setLookups] in Hused. by exists answer.
Qed.

Lemma retryNext_rpcs r w : rpcs (retryNext r w).2 = rpcs w.
Proof.
  unfold retryNext. destruct (isReset r); [done|].
  by destruct (closer w) as [[|n]|].
Qed.

(** The replacement loop does not panic when every slot that holds a
    no-op belongs to a scan or a reverse scan. *)
Lemma fillNoops_total (reqs : list Request) :
  forall (i : nat) (resps : list Response),
    (forall k req, reqs !! k = Some req ->
       exists resp, resps !! (i + k)%nat = Some resp
                    /\ (resp = NoopResponse ->
                        isScan req = true \/ isReverseScan req = true)) ->
    exists resps', fillNoops i reqs resps = inr resps'.
Proof.
  induction reqs as [|req reqs IH]; intros i resps Hslots; cbn [fillNoops];
    [by eexists|].
  destruct (Hslots 0%nat req eq_refl) as (resp & Hresp & Hkind).
  rewrite Nat.add_0_r in Hresp. rewrite Hresp.
  assert (forall resps1,
             (forall j, j <> i -> resps1 !! j = resps !! j) ->
             exists resps', fillNoops (S i) reqs resps1 = inr resps') as Hnext.
  { intros resps1 Hother. apply IH. intros k req' Hk.
    rewrite Hother by lia.
    replace (S i + k)%nat with (i + S k)%nat by lia. by apply (Hslots (S k)). }
  destruct resp; try (by apply Hnext).
  destruct (Hkind eq_refl) as [Hs|Hr]; destruct req; try done;
    apply Hnext; intros j Hj; by apply list_lookup_insert_ne.
Qed.

Lemma keepsKind_refl (r : Request) : keepsKind r r.
Proof. right. by left. Qed.

Lemma keepsKind_trans (a b c : Request) :
  keepsKind a b -> keepsKind b c -> keepsKind a c.
Proof.
  unfold keepsKind.
  intros [->|[->|[[Ha Hb]|[Ha Hb]]]] [->|[->|[[Hb' Hc]|[Hb' Hc]]]]; auto;
    try done; destruct b; done.
Qed.

Lemma maskSaturated_kinds (curResponses : list Response) :
  forall (k i : nat) (reqs : list Request) (needAnother : bool) reqs' needAnother',
    maskSaturated k i reqs curResponses needAnother = inr (reqs', needAnother') ->
    forall j r r', reqs !! j = Some r -> reqs' !! j = Some r' -> keepsKind r r'.
Proof.
  induction k as [|k IH]; intros i reqs na reqs' na'; cbn [maskSaturated].
  { intros [= <- <-] j r r' Hr Hr'. rewrite Hr in Hr'. injection Hr' as <-.
    apply keepsKind_refl. }
  destruct (reqs !! i) as [req|] eqn:Hreq; [|done].
  assert (forall x na1,
             keepsKind req x ->
             maskSaturated k (S i) (<[i := x]> reqs) curResponses na1
             = inr (reqs', na') ->
             forall j r r', reqs !! j = Some r -> reqs' !! j = Some r' ->
                            keepsKind r r') as Hset.
  { intros x na1 Hx Hrun j r r' Hr Hr'.
    destruct (decide (j = i)) as [->|Hne].
    - rewrite Hreq in Hr. injection Hr as <-.
      apply (keepsKind_trans _ x); [done|].
      apply (IH _ _ _ _ _ Hrun i); [|done].
      apply list_lookup_insert_eq. by apply lookup_lt_Some in Hreq.
    - apply (IH _ _ _ _ _ Hrun j); [|done].
      by rewrite list_lookup_insert_ne. }
  destruct req as [key endKey prevBound|key endKey prevBound| | |];
    try (by apply IH).
  - destruct (curResponses !! i) as [resp|]; [|done].
    destruct (Count resp) as [count|]; [|by apply IH].
    destruct (prevBound <=? 0); [by apply IH|].
    destruct (prevBound - count <=? 0); apply Hset; [by left|].
    right. right. by left.
  - destruct (curResponses !! i) as [resp|]; [|done].
    destruct (Count resp) as [count|]; [|by apply IH].
    destruct (prevBound <=? 0); [by apply IH|].
    destruct (prevBound - count <=? 0); apply Hset; [by left|].
    right. right. by right.
Qed.

Lemma keepKinds_mask curResponses orig reqs needAnother reqs' needAnother' :
  keepKinds orig reqs ->
  maskSaturated (length reqs) 0 reqs curResponses needAnother
  = inr (reqs', needAnother') ->
  keepKinds orig reqs'.
Proof.
  intros [Hlen Hkinds] Hmask. split.
  - by rewrite (maskSaturated_length _ _ _ _ _ _ _ Hmask).
  - intros i o c' Ho Hc'.
    assert (is_Some (reqs !! i)) as [c Hc].
    { apply lookup_lt_is_Some. rewrite Hlen. by apply lookup_lt_Some in Ho. }
    apply (keepsKind_trans _ c); [by apply (Hkinds i)|].
    by apply (maskSaturated_kinds _ _ _ _ _ _ _ Hmask i).
Qed.

Lemma slotFilled_original (o c : Request) acc final i :
  keepsKind o c -> slotFilled c acc final i -> slotFilled o acc final i.
Proof.
  intros Hkind [(Hnoop & Hfilled)|Hkept]; [|by right].
  left. split; [done|].
  destruct Hkind as [->|[->|[[Ho Hc]|[Ho Hc]]]]; [|done| |].
  - by destruct Hfilled as [[? _]|[? _]].
  - destruct Hfilled as [[_ ?]|[Hrev _]]; [by left|]. by destruct c.
  - destruct Hfilled as [[Hs _]|[_ ?]]; [|by right]. by destruct c.
Qed.

(** One range further under a positive remaining bound [MaxScanResults]:
    [seen] results have been counted in the replies so far. *)
Lemma afterRange_limit (K seen : Z) (orig : list Request) isReverse ba rs br
    curReply desc needAnother :
  0 < MaxScanResults ba ->
  seen + MaxScanResults ba = K ->
  brCount br <= seen ->
  keepKinds orig (Requests ba) ->
  match afterRange ops isReverse ba rs br curReply desc needAnother with
  | RangeReturn br' =>
      exists acc,
        accumulate br curReply = inr acc
        /\ seen + countResults (Responses curReply) <= K
        /\ countResults (Responses br') <= seen + countResults (Responses curReply)
        /\ (seen + countResults (Responses curReply) = K ->
            br_Header br' = br_Header acc
            /\ length (Responses br') = length (Responses acc)
            /\ forall i req, orig !! i = Some req ->
                             slotFilled req (Responses acc) (Responses br') i)
  | RangeNext ba' rs' br' =>
      accumulate br curReply = inr br'
      /\ 0 < MaxScanResults ba'
      /\ seen + countResults (Responses curReply) + MaxScanResults ba' = K
      /\ countResults (Responses br') <= seen + countResults (Responses curReply)
      /\ keepKinds orig (Requests ba')
  | _ => True
  end.
Proof.
  intros Hpos Hinv Hseen Hkinds. unfold afterRange.
  destruct (accumulate br curReply) as [err|acc] eqn:Hacc; [done|].
  apply accumulate_count in Hacc.
  autorewrite with batch.
  rewrite (proj2 (Z.ltb_lt _ _) Hpos).
  destruct (MaxScanResults ba <? countResults (Responses curReply)) eqn:Hover;
    [exact I|].
  apply Z.ltb_ge in Hover.
  destruct (MaxScanResults ba - countResults (Responses curReply) =? 0) eqn:Hzero.
  - apply Z.eqb_eq in Hzero.
    destruct (fillNoops 0 (Requests ba) (Responses acc)) as [msg|resps] eqn:Hfill;
      [exact I|].
    destruct (fillNoops_spec _ _ _ _ Hfill) as (Hcount & Hlen & _ & Hslots).
    exists acc. cbn [Responses setResponses br_Header].
    split; [done|]. split; [lia|]. split; [lia|].
    intros _. split; [done|]. split; [done|].
    intros i o Ho. destruct Hkinds as [Hsame Hkinds].
    assert (is_Some (Requests ba !! i)) as [c Hc].
    { apply lookup_lt_is_Some. rewrite Hsame. by apply lookup_lt_Some in Ho. }
    apply (slotFilled_original o c); [by apply (Hkinds i)|].
    apply (Hslots i c Hc).
  - apply Z.eqb_neq in Hzero. cbv beta iota. autorewrite with batch.
    destruct (if needAnother
              then maskSaturated (length (Requests ba)) 0 (Requests ba)
                     (Responses curReply) false
              else inr (Requests ba, false)) as [msg|[reqs na]] eqn:Hmask;
      [exact I|].
    assert (keepKinds orig reqs) as Hkinds'.
    { destruct needAnother; [by apply (keepKinds_mask _ _ _ _ _ _ Hkinds Hmask)|].
      by injection Hmask as <- <-. }
    destruct na; cbn [negb].
    + destruct isReverse; autorewrite with batch; split_and!; try done; lia.
    + exists acc. split; [done|]. split; [lia|]. split; [lia|]. intros ?. lia.
Qed.

Lemma accumulateAll_none br used rest :
  omap goodReply used = [] ->
  accumulateAll br (omap goodReply (used ++ rest))
  = accumulateAll br (omap goodReply rest)
  /\ totalResults (omap goodReply (used ++ rest))
     = totalResults (omap goodReply rest).
Proof. intros Hnone. by rewrite omap_app, Hnone. Qed.

Lemma sendChunkLoop_limit (K : Z) (orig : list Request) isReverse :
  forall fuel ba rs br considerIntents r pErr w br' w' seen,
    0 < MaxScanResults ba ->
    seen + MaxScanResults ba = K ->
    brCount br <= seen ->
    keepKinds orig (Requests ba) ->
    sendChunkLoop ops isReverse fuel ba rs br considerIntents r pErr w
    = (Done (Some br', None, false), w') ->
    exists used acc,
      rpcs w = used ++ rpcs w'
      /\ accumulateAll br (omap goodReply used) = inr (Some acc)
      /\ seen + totalResults (omap goodReply used) <= K
      /\ countResults (Responses br') <= seen + totalResults (omap goodReply used)
      /\ (seen + totalResults (omap goodReply used) = K ->
          br_Header br' = br_Header acc
          /\ length (Responses br') = length (Responses acc)
          /\ forall i req, orig !! i = Some req ->
                           slotFilled req (Responses acc) (Responses br') i).
Proof.
  induction fuel as [|fuel IH];
    intros ba rs br ci r pErr w br' w' seen Hpos Hinv Hseen Hkinds;
    cbn [sendChunkLoop]; [done|].
  pose proof (retryNext_rpcs r w) as Hrpcs1.
  destruct (retryNext r w) as [[[|] r1] w1]; cbn [snd] in Hrpcs1.
  2:{ unfold afterClosedLoop. destruct pErr; [done|].
      by destruct (closer w1) as [[|?]|]. }
  pose proof (attempt_rpcs isReverse ba rs br ci r1 w1) as Hatt.
  destruct (attempt ops isReverse ba rs br ci r1 w1)
    as [ci2 r2 pErr2 w2|pErr2 w2|curReply desc na w2|pErr2 split w2|w2];
    try done.
  - destruct Hatt as (used1 & Hused1 & Hnone). cbn [attemptWorld] in Hused1.
    intros Hrun.
    destruct (IH _ _ _ _ _ _ _ _ _ seen Hpos Hinv Hseen Hkinds Hrun)
      as (used2 & acc & Hused2 & Hacc & Hle & Hcount & Hslots).
    destruct (accumulateAll_none br used1 used2 Hnone) as [Hacc' Htotal'].
    exists (used1 ++ used2), acc. rewrite Hacc', Htotal'.
    split; [by rewrite <- Hrpcs1, Hused1, Hused2, <- app_assoc|done].
  - destruct Hatt as (answer & Hused1 & Hgood).
    pose proof (afterRange_limit K seen orig isReverse ba rs br curReply desc na
                  Hpos Hinv Hseen Hkinds) as Hstep.
    destruct (afterRange ops isReverse ba rs br curReply desc na)
      as [ret|e|msg|ba2 rs2 br2]; try done.
    + intros [= <- <-].
      destruct Hstep as (acc & Hacc & Hle & Hcount & Hslots).
      exists [answer], acc.
      assert (omap goodReply [answer] = [curReply]) as ->
        by (simpl; by rewrite Hgood).
      cbn [accumulateAll totalResults foldr app].
      rewrite Hacc, Z.add_0_r.
      split; [by rewrite <- Hrpcs1|done].
    + destruct Hstep as (Hacc & Hpos2 & Hinv2 & Hseen2 & Hkinds2).
      intros Hrun.
      destruct (IH ba2 rs2 (Some br2) false retryStart None w2 br' w'
                  (seen + countResults (Responses curReply))
                  Hpos2 Hinv2 Hseen2 Hkinds2 Hrun)
        as (used2 & acc & Hused2 & Hacc2 & Hle & Hcount & Hslots).
      exists (answer :: used2), acc.
      assert (omap goodReply (answer :: used2) = curReply :: omap goodReply used2)
        as -> by (simpl; by rewrite Hgood).
      cbn [accumulateAll totalResults foldr].
      fold (totalResults (omap goodReply used2)).
      rewrite Hacc, Z.add_assoc.
      split; [by rewrite <- Hrpcs1, Hused1, Hused2|done].
Qed.
End ReplyFacts.

Lemma afterRange_bound_reached (ops : BatchOps) isReverse ba rs br curReply desc
    needAnother acc :
  0 < MaxScanResults ba ->
  countResults (Responses curReply) = MaxScanResults ba ->
  accumulate br curReply = inr acc ->
  (forall i req, Requests ba !! i = Some req ->
     exists resp, Responses acc !! i = Some resp
                  /\ (resp = NoopResponse ->
                      isScan req = true \/ isReverseScan req = true)) ->
  exists br',
    afterRange ops isReverse ba rs br curReply desc needAnother = RangeReturn br'
    /\ br_Header br' = br_Header acc
    /\ length (Responses br') = length (Responses acc)
    /\ forall i req, Requests ba !! i = Some req ->
                     slotFilled req (Responses acc) (Responses br') i.
Proof.
  intros Hpos Hfull Hacc Htyped.
  destruct (afterRange_fills_slots ops isReverse ba rs br curReply desc needAnother
              acc Hpos Hfull Hacc) as [(msg & Hpanic)|Hret]; [|done].
  exfalso. revert Hpanic. unfold afterRange. rewrite Hacc.
  autorewrite with batch.
  rewrite (proj2 (Z.ltb_lt _ _) Hpos), Hfull, Z.ltb_irrefl, Z.sub_diag.
  cbn [Z.eqb].
  destruct (fillNoops_total (Requests ba) 0 (Responses acc) Htyped) as [resps ->].
  done.
Qed.

(** C1.  Under a global bound [MaxScanResults = K > 0], a response that
    [sendChunk] returns was built from the good replies among the answers
    of [rpcSend] it consumed: these replies count at most [K] results
    between them, and the response counts no more than they do.  When they
    count exactly [K], the response is their accumulation [acc] with, in
    every slot of the batch, the empty response of the type of the batch's
    request (scan or reverse scan) where [acc] still held a no-op, and what
    [acc] held otherwise; no slot is a no-op then.
    And the pass of the loop that sees the bound used up does return: when
    the reply of the current range counts as many results as were left, and
    every slot in which the accumulated response still holds a no-op
    belongs to a scan or a reverse scan, [sendChunk]'s loop returns the
    response filled in this way, without error. *)
Theorem sendChunk_respects_limit (ops : BatchOps) :
  (forall fuel ba w br w',
      0 < MaxScanResults ba ->
      sendChunk ops fuel ba w = (Done (Some br, None, false), w') ->
      countResults (Responses br) <= MaxScanResults ba
      /\ (countResults (Responses br) = MaxScanResults ba ->
          forall i, (i < length (Requests ba))%nat ->
                    exists resp, Responses br !! i = Some resp
                                 /\ resp <> NoopResponse)
      /\ exists used acc,
          rpcs w = used ++ rpcs w'
          /\ accumulateAll None (omap goodReply used) = inr (Some acc)
          /\ totalResults (omap goodReply used) <= MaxScanResults ba
          /\ countResults (Responses br) <= totalResults (omap goodReply used)
          /\ (totalResults (omap goodReply used) = MaxScanResults ba ->
              br_Header br = br_Header acc
              /\ length (Responses br) = length (Responses acc)
              /\ forall i req,
                  Requests ba !! i = Some req ->
                  slotFilled req (Responses acc) (Responses br) i))
  /\ (forall isReverse fuel ba rs br considerIntents r pErr w r1 w1 desc
             needAnother wl curReply w2 acc,
        retryNext r w = (true, r1, w1) ->
        descriptorForSend ops isReverse ba rs br considerIntents w1
        = Some (desc, needAnother, wl) ->
        sendTruncated ops ba rs desc wl = Some (inr curReply, w2) ->
        0 < MaxScanResults ba ->
        countResults (Responses curReply) = MaxScanResults ba ->
        accumulate br curReply = inr acc ->
        (forall i req, Requests ba !! i = Some req ->
           exists resp, Responses acc !! i = Some resp
                        /\ (resp = NoopResponse ->
                            isScan req = true \/ isReverseScan req = true)) ->
        exists br',
          sendChunkLoop ops isReverse (S fuel) ba rs br considerIntents r pErr w
          = (Done (Some br', None, false), w2)
          /\ br_Header br' = br_Header acc
          /\ length (Responses br') = length (Responses acc)
          /\ forall i req,
              Requests ba !! i = Some req ->
              slotFilled req (Responses acc) (Responses br') i).
Proof.
  split.
  - intros fuel ba w br w' Hpos Hrun.
    destruct (sendChunkLoop_limit ops (MaxScanResults ba) (Requests ba)
                (IsReverse ops ba) fuel ba (keys_Range ops ba) None false
                retryStart None w br w' 0 Hpos)
      as (used & acc & Hused & Hacc & Hle & Hcount & Hslots);
      [lia|done| |exact Hrun|].
    { split; [done|]. intros i o c Ho Hc. rewrite Ho in Hc. injection Hc as <-.
      apply keepsKind_refl. }
    rewrite Z.add_0_l in *.
    split; [lia|]. split.
    + intros Hfull i Hi. apply lookup_lt_is_Some in Hi as [req Hreq].
      destruct Hslots as (_ & _ & Hslots); [lia|].
      destruct (Hslots i req Hreq)
        as [(_ & [[_ Hr]|[_ Hr]])|(resp & Hnot & _ & Hr)]; eauto.
    + by exists used, acc.
  - intros isReverse fuel ba rs br ci r pErr w r1 w1 desc na wl curReply w2 acc
      Hnext Hdesc Hsend Hpos Hfull Hacc Htyped.
    destruct (afterRange_bound_reached ops isReverse ba rs br curReply desc na acc
                Hpos Hfull Hacc Htyped) as (br' & Hret & Hrest).
    exists br'. split; [|exact Hrest].
    cbn [sendChunkLoop]. rewrite Hnext.
    by rewrite (attempt_sends ops _ _ _ _ _ _ _ _ _ _ Hdesc), Hsend, Hret.
Qed.

Lemma sendChunk_respects_limit_witness :
  (exists br w' acc,
      sendChunk exampleOps 10 limitedBatch limitedWorld
      = (Done (Some br, None, false), w')
      /\ Responses br = [ScanResponse (rows 3); ScanResponse []]
      /\ countResults (Responses br) <= 3
      /\ accumulateAll None (omap goodReply (rpcs limitedWorld)) = inr (Some acc)
      /\ slotFilled (ScanRequest "n" "q" 0) (Responses acc) (Responses br) 1)
  /\ (exists br w' acc,
        sendChunk exampleOps 10 limitedReverseBatch limitedReverseWorld
        = (Done (Some br, None, false), w')
        /\ Responses br = [ReverseScanResponse (rows 3); ReverseScanResponse []]
        /\ countResults (Responses br) <= 3
        /\ accumulateAll None (omap goodReply (rpcs limitedReverseWorld))
           = inr (Some acc)
        /\ slotFilled (ReverseScanRequest "a" "b" 0) (Responses acc)
             (Responses br) 1)
  /\ (exists br' w2,
        sendChunk exampleOps 1 fullReverseBatch fullReverseWorld
        = (Done (Some br', None, false), w2)
        /\ slotFilled (ReverseScanRequest "b" "d" 0)
             [ReverseScanResponse (rows 2); NoopResponse] (Responses br') 1).
Proof.
  destruct (sendChunk_respects_limit exampleOps) as [Hbound Hreturn].
  split_and!.
  - destruct (sendChunk exampleOps 10 limitedBatch limitedWorld)
      as [[[[[br|] [|]] [|]]| |] w'] eqn:Hrun;
      try (vm_compute in Hrun; discriminate).
    destruct (Hbound 10%nat limitedBatch limitedWorld br w' eq_refl Hrun)
      as (Hle & _ & used & acc & Hused & Hacc & _ & _ & Hslots).
    assert (rpcs w' = []) as Hrest
      by (vm_compute in Hrun; by injection Hrun as _ <-).
    rewrite Hrest, app_nil_r in Hused. subst used.
    exists br, w', acc. split; [reflexivity|].
    split; [vm_compute in Hrun; by injection Hrun as <- _|].
    split; [exact Hle|]. split; [exact Hacc|].
    apply Hslots; reflexivity.
  - destruct (sendChunk exampleOps 10 limitedReverseBatch limitedReverseWorld)
      as [[[[[br|] [|]] [|]]| |] w'] eqn:Hrun;
      try (vm_compute in Hrun; discriminate).
    destruct (Hbound 10%nat limitedReverseBatch limitedReverseWorld br w' eq_refl Hrun)
      as (Hle & _ & used & acc & Hused & Hacc & _ & _ & Hslots).
    assert (rpcs w' = []) as Hrest
      by (vm_compute in Hrun; by injection Hrun as _ <-).
    rewrite Hrest, app_nil_r in Hused. subst used.
    exists br, w', acc. split; [reflexivity|].
    split; [vm_compute in Hrun; by injection Hrun as <- _|].
    split; [exact Hle|]. split; [exact Hacc|].
    apply Hslots; reflexivity.
  - destruct (sendTruncated exampleOps fullReverseBatch
                (keys_Range exampleOps fullReverseBatch) rangeMZ
                (logEvent (EvLookup "z" false true false)
                   (setLookups [found rangeAM] fullReverseWorld)))
      as [[[pErr|curReply] w2]|] eqn:Hsend;
      [vm_compute in Hsend; discriminate| |vm_compute in Hsend; discriminate].
    assert (curReply = replyOf [ReverseScanResponse (rows 2); NoopResponse]) as ->
      by (vm_compute in Hsend; by injection Hsend as <- _).
    destruct (Hreturn true 0%nat fullReverseBatch
                (keys_Range exampleOps fullReverseBatch) None false retryStart None
                fullReverseWorld {| currentAttempt := 0; isReset := false |}
                fullReverseWorld rangeMZ true
                (logEvent (EvLookup "z" false true false)
                   (setLookups [found rangeAM] fullReverseWorld))
                (replyOf [ReverseScanResponse (rows 2); NoopResponse]) w2
                (replyOf [ReverseScanResponse (rows 2); NoopResponse])
                eq_refl eq_refl Hsend eq_refl eq_refl eq_refl)
      as (br' & Hrun & _ & _ & Hslots).
    + intros [|[|i]] req Hreq; try done; injection Hreq as <-; eexists;
        (split; [reflexivity|]); [done|by right].
    + exists br', w2. split; [exact Hrun|]. apply Hslots. reflexivity.
Defined.
